(** * Dependency-ordered service activation: graph, traversal and watcher

    A shallow embedding of [pkg/compose/dependencies.go] and of
    [watchContainers] in [pkg/compose/start.go], with the properties of
    the specification proved (or refuted) on it.

    Conventions of the embedding:
    - a Go [map[string]T] is an association list without repeated keys;
      the order of the list stands for the order in which [range] happens
      to enumerate the map, which Go leaves unspecified.  Statements are
      proved for every list order, so they hold for every enumeration;
    - a [*Vertex] is represented by the key under which the vertex is
      registered in [Graph.Vertices]: [AddEdge] only ever stores
      [g.Vertices[k]] under the key [k] of a [Children] or [Parents] map,
      so a pointer held there is dereferenced by looking [k] up in the
      graph, which is the single store of vertices;
    - a Go [error] is a value of the type [error] below, rendered by
      [Error]; [nil] is [None];
    - a nil-pointer dereference is the outcome [Panic]. *)

From stdpp Require Import base strings list gmap.
From Stdlib Require Import ZArith Lia.

Set Warnings "-clear-no-such-hyp".

Open Scope string_scope.
Open Scope list_scope.

(** ** Errors and outcomes *)

Inductive error : Type :=
| CouldNotFind (name : string)          (* fmt.Errorf("could not find %s", name) *)
| CycleFound (path : list string)       (* fmt.Errorf("cycle found: %s", strings.Join(path, " -> ")) *)
| OtherError (msg : string).            (* an error made by a collaborator (visitor, runtime, callback) *)

Definition Error (e : error) : string :=
  match e with
  | CouldNotFind name => "could not find " +:+ name
  | CycleFound path => "cycle found: " +:+ String.concat " -> " path
  | OtherError msg => msg
  end.

Global Instance error_eq_dec : EqDecision error.
Proof. solve_decision. Defined.

(** What a call does: it returns, it panics on a nil vertex, or the
    recursion bound of the embedding is exhausted. *)
Inductive outcome (A : Type) : Type :=
| Ret (a : A)
| Panic
| OutOfFuel.
Arguments Ret {A} a.
Arguments Panic {A}.
Arguments OutOfFuel {A}.

(** Go's [int] on the platforms the tool is built for: 64 bits, two's
    complement. *)
Definition int_wrap (z : Z) : Z := ((z + 2 ^ 63) mod 2 ^ 64 - 2 ^ 63)%Z.

(** ** Helpers of [pkg/utils] *)

(** Modelled from the spec: [utils.StringContains] and [utils.Contains]
    live in [pkg/utils], which is not among the sources; the
    specification uses them as the membership test of a slice. *)
Fixpoint StringContains (array : list string) (needle : string) : bool :=
  match array with
  | [] => false
  | v :: rest => if String.eqb needle v then true else StringContains rest needle
  end.

Definition Contains := StringContains.

(** Modelled from the spec: [utils.Remove] is not among the sources; the
    specification uses it to take an ID out of a slice, and the result is
    a fresh slice (the argument is not changed). *)
Fixpoint Remove (origin : list string) (element : string) : list string :=
  match origin with
  | [] => []
  | v :: rest =>
      if String.eqb v element then Remove rest element else v :: Remove rest element
  end.

(** ** Go maps in enumeration order *)

Module GoMap.
Section defs.
Context {V : Type}.

Fixpoint get (m : list (string * V)) (k : string) : option V :=
  match m with
  | [] => None
  | (k', v) :: rest => if String.eqb k k' then Some v else get rest k
  end.

(* m[k] = v *)
Fixpoint set (m : list (string * V)) (k : string) (v : V) : list (string * V) :=
  match m with
  | [] => [(k, v)]
  | (k', v') :: rest =>
      if String.eqb k k' then (k, v) :: rest else (k', v') :: set rest k v
  end.

(* an update in place of the value stored under k *)
Fixpoint alter (f : V → V) (m : list (string * V)) (k : string) : list (string * V) :=
  match m with
  | [] => []
  | (k', v') :: rest =>
      if String.eqb k k' then (k', f v') :: rest else (k', v') :: alter f rest k
  end.

Definition keys (m : list (string * V)) : list string := m.*1.
End defs.
End GoMap.

(** ** The graph *)

Inductive ServiceStatus : Type := ServiceStopped | ServiceStarted.

Global Instance ServiceStatus_eq_dec : EqDecision ServiceStatus.
Proof. solve_decision. Defined.

Definition status_eqb (a b : ServiceStatus) : bool := bool_decide (a = b).

(** [Children] and [Parents] are the key sets of the Go maps, in
    enumeration order. *)
Record Vertex : Type := mkVertex {
  Key : string;
  Service : string;
  Status : ServiceStatus;
  Children : list string;
  Parents : list string;
}.

Record Graph : Type := mkGraph {
  Vertices : list (string * Vertex);
}.

(** A service of the project, as far as [NewGraph] reads it: its name
    and the result of [GetDependencies()]. *)
Record ServiceConfig : Type := mkService {
  Name : string;
  GetDependencies : list string;
}.

Definition NewVertex (key service : string) (initialStatus : ServiceStatus) : Vertex :=
  {| Key := key; Service := service; Status := initialStatus;
     Parents := []; Children := [] |}.

Definition AddVertex (g : Graph) (key service : string) (initialStatus : ServiceStatus) : Graph :=
  {| Vertices := GoMap.set (Vertices g) key (NewVertex key service initialStatus) |}.

(* m[k] = v on a map whose values are determined by their key *)
Definition key_add (m : list string) (k : string) : list string :=
  if StringContains m k then m else m ++ [k].

Definition add_child (destination : string) (v : Vertex) : Vertex :=
  {| Key := Key v; Service := Service v; Status := Status v;
     Children := key_add (Children v) destination; Parents := Parents v |}.

Definition add_parent (source : string) (v : Vertex) : Vertex :=
  {| Key := Key v; Service := Service v; Status := Status v;
     Children := Children v; Parents := key_add (Parents v) source |}.

Definition set_status (status : ServiceStatus) (v : Vertex) : Vertex :=
  {| Key := Key v; Service := Service v; Status := status;
     Children := Children v; Parents := Parents v |}.

(** [AddEdge] changes the graph in place and returns an error; here it
    returns the graph after the call together with the error. *)
Definition AddEdge (g : Graph) (source destination : string) : Graph * option error :=
  match GoMap.get (Vertices g) source, GoMap.get (Vertices g) destination with
  | None, _ => (g, Some (CouldNotFind source))
  | Some _, None => (g, Some (CouldNotFind destination))
  | Some sourceVertex, Some _ =>
      if StringContains (Children sourceVertex) destination then (g, None)
      else
        let vs1 := GoMap.alter (add_child destination) (Vertices g) source in
        let vs2 := GoMap.alter (add_parent source) vs1 destination in
        ({| Vertices := vs2 |}, None)
  end.

Definition Leaves (g : Graph) : list string :=
  (filter (λ kv, length (Children kv.2) = 0) (Vertices g)).*1.

Definition Roots (g : Graph) : list string :=
  (filter (λ kv, length (Parents kv.2) = 0) (Vertices g)).*1.

Definition GetParents (g : Graph) (v : string) : outcome (list string) :=
  match GoMap.get (Vertices g) v with
  | None => Panic
  | Some vertex => Ret (Parents vertex)
  end.

Definition GetChildren (g : Graph) (v : string) : outcome (list string) :=
  match GoMap.get (Vertices g) v with
  | None => Panic
  | Some vertex => Ret (Children vertex)
  end.

Definition UpdateStatus (g : Graph) (key : string) (status : ServiceStatus) : outcome Graph :=
  match GoMap.get (Vertices g) key with
  | None => Panic
  | Some _ => Ret {| Vertices := GoMap.alter (set_status status) (Vertices g) key |}
  end.

(** The loop of [FilterChildren] and [FilterParents]: keep the
    neighbours whose status is [status]; reading the status of a
    neighbour dereferences it. *)
Fixpoint filter_status (g : Graph) (status : ServiceStatus) (adjacent : list string)
  : outcome (list string) :=
  match adjacent with
  | [] => Ret []
  | a :: rest =>
      match GoMap.get (Vertices g) a with
      | None => Panic
      | Some vertex =>
          match filter_status g status rest with
          | Ret res => Ret (if status_eqb (Status vertex) status then a :: res else res)
          | o => o
          end
      end
  end.

Definition FilterChildren (g : Graph) (key : string) (status : ServiceStatus)
  : outcome (list string) :=
  match GoMap.get (Vertices g) key with
  | None => Panic
  | Some vertex => filter_status g status (Children vertex)
  end.

Definition FilterParents (g : Graph) (key : string) (status : ServiceStatus)
  : outcome (list string) :=
  match GoMap.get (Vertices g) key with
  | None => Panic
  | Some vertex => filter_status g status (Parents vertex)
  end.

(** ** Cycle detection *)

Definition remove (slice : list string) (item : string) : list string :=
  filter (λ i, i ≠ item) slice.

(** The value [visit] returns: [(discovered, finished, err)]. *)
Definition visited : Type := list string * list string * option error.

Section visit.
Variable g : Graph.
(* the recursive call g.visit(v.Key, path, discovered, finished) *)
Variable rec : string → list string → list string → list string → outcome visited.

(** The [for] loop over the children of [key]; [None] when the loop
    falls through, [Some o] when its body returns [o]. *)
Fixpoint visit_children (children path discovered finished : list string)
  : option (outcome visited) :=
  match children with
  | [] => None
  | v :: rest =>
      let path' := path ++ [v] in
      if StringContains discovered v then
        Some (Ret ([], [], Some (CycleFound path')))
      else if negb (StringContains finished v) then
        match rec v path' discovered finished with
        | Ret (_, _, None) => visit_children rest path discovered finished
        | Ret (_, _, Some err) => Some (Ret ([], [], Some err))
        | Panic => Some Panic
        | OutOfFuel => Some OutOfFuel
        end
      else visit_children rest path discovered finished
  end.
End visit.

Fixpoint visit (fuel : nat) (g : Graph) (key : string) (path discovered finished : list string)
  : outcome visited :=
  match fuel with
  | O => OutOfFuel
  | S fuel' =>
      let discovered := discovered ++ [key] in
      match GoMap.get (Vertices g) key with
      | None => Panic
      | Some vertex =>
          match visit_children (visit fuel' g) (Children vertex) path discovered finished with
          | Some o => o
          | None => Ret (remove discovered key, finished ++ [key], None)
          end
      end
  end.

(** The loop of [HasCycles] over the vertices of the graph. *)
Fixpoint has_cycles_loop (fuel : nat) (g : Graph) (vertices : list (string * Vertex))
    (discovered finished : list string) : outcome (bool * option error) :=
  match vertices with
  | [] => Ret (false, None)
  | (_, vertex) :: rest =>
      let path := [Key vertex] in
      if negb (StringContains discovered (Key vertex))
         && negb (StringContains finished (Key vertex)) then
        match visit fuel g (Key vertex) path discovered finished with
        | Ret (_, _, Some err) => Ret (true, Some err)
        | Ret (discovered', finished', None) =>
            has_cycles_loop fuel g rest discovered' finished'
        | Panic => Panic
        | OutOfFuel => OutOfFuel
        end
      else has_cycles_loop fuel g rest discovered finished
  end.

(** The recursion of [visit] is never deeper than the number of
    vertices plus one ([visit_fuel_enough] below). *)
Definition HasCycles (g : Graph) : outcome (bool * option error) :=
  has_cycles_loop (S (length (Vertices g))) g (Vertices g) [] [].

(** ** Construction *)

Definition add_vertices (services : list ServiceConfig) (initialStatus : ServiceStatus)
    (g : Graph) : Graph :=
  foldl (λ g s, AddVertex g (Name s) (Name s) initialStatus) g services.

(* _ = graph.AddEdge(s.Name, name): the error is dropped *)
Definition add_edges_of (s : ServiceConfig) (g : Graph) : Graph :=
  foldl (λ g name, (AddEdge g (Name s) name).1) g (GetDependencies s).

Definition add_edges (services : list ServiceConfig) (g : Graph) : Graph :=
  foldl (λ g s, add_edges_of s g) g services.

Definition NewGraph (services : list ServiceConfig) (initialStatus : ServiceStatus)
  : outcome (option Graph * option error) :=
  let graph := {| Vertices := [] |} in
  let graph := add_vertices services initialStatus graph in
  let graph := add_edges services graph in
  match HasCycles graph with
  | Ret (true, err) => Ret (None, err)
  | Ret (false, _) => Ret (Some graph, None)
  | Panic => Panic
  | OutOfFuel => OutOfFuel
  end.

(** ** Small runs *)

Definition svc (name : string) (deps : list string) : ServiceConfig :=
  {| Name := name; GetDependencies := deps |}.

Definition diamond : list ServiceConfig :=
  [svc "A" ["B"; "C"]; svc "B" ["D"]; svc "C" ["D"]; svc "D" []].

Definition lasso : list ServiceConfig :=
  [svc "R" ["A"]; svc "A" ["B"]; svc "B" ["A"]].

(** ** Notions the properties are stated with *)

(** Well-formed graphs.
    What every graph made by [AddVertex] and [AddEdge] satisfies: the
    keys are those of a map, a vertex carries the key it is registered
    under, and the neighbours it names are vertices of the graph. *)

Definition keys (g : Graph) : list string := GoMap.keys (Vertices g).

Definition vertex_at (g : Graph) (k : string) : option Vertex := GoMap.get (Vertices g) k.

Record graph_wf (g : Graph) : Prop := {
  wf_keys : NoDup (keys g);
  wf_key : ∀ k v, vertex_at g k = Some v → Key v = k;
  wf_children : ∀ k v, vertex_at g k = Some v → Children v ⊆ keys g;
  wf_parents : ∀ k v, vertex_at g k = Some v → Parents v ⊆ keys g;
}.

(** A checker for [graph_wf], to settle it on a given graph by
    computation. *)
Definition subset_b (l k : list string) : bool := forallb (StringContains k) l.

Definition graph_wfb (g : Graph) : bool :=
  bool_decide (NoDup (keys g))
  && forallb (λ kv, String.eqb (Key kv.2) kv.1
                    && subset_b (Children kv.2) (keys g)
                    && subset_b (Parents kv.2) (keys g)) (Vertices g).

Definition status_at (g : Graph) (k : string) : option ServiceStatus :=
  Status <$> vertex_at g k.

Definition names (services : list ServiceConfig) : list string := Name <$> services.

(** The service list with the dependencies that name no service left out. *)
Definition known_only (services : list ServiceConfig) : list ServiceConfig :=
  (λ s, {| Name := Name s;
           GetDependencies := filter (λ d, d ∈ names services) (GetDependencies s) |})
  <$> services.

Inductive walk (R : string → string → Prop) : list string → Prop :=
| walk_one x : walk R [x]
| walk_cons x y p : R x y → walk R (y :: p) → walk R (x :: y :: p).

(** A closed walk with at least one edge. *)
Definition cycle (R : string → string → Prop) (p : list string) : Prop :=
  walk R p ∧ (2 ≤ length p)%nat ∧ head p = last p.

(** The last key of the sequence occurs earlier in it. *)
Definition closes (p : list string) : Prop :=
  ∃ pre x mid, p = pre ++ x :: mid ++ [x].

(** The edges of a graph: [gedge g a b] when [b] is a child of [a]. *)
Definition gedge (g : Graph) (a b : string) : Prop :=
  ∃ v, vertex_at g a = Some v ∧ b ∈ Children v.

Definition cycle_reported (g : Graph) (o : outcome visited) : Prop :=
  ∃ p, o = Ret ([], [], Some (CycleFound p)) ∧ walk (gedge g) p ∧ closes p.

Record visit_pre (g : Graph) (fuel : nat) (key : string) (path discovered finished : list string)
  : Prop := {
  pre_key : key ∈ keys g;
  pre_nodup : NoDup discovered;
  pre_known : discovered ⊆ keys g;
  pre_fresh : key ∉ discovered;
  pre_fuel : length (keys g) < fuel + length discovered;
  pre_finished : ∀ x, x ∈ finished → sn (gedge g) x;
  pre_walk : walk (gedge g) path;
  pre_last : last path = Some key;
  pre_on_path : discovered ⊆ path;
}.

(** The declared dependencies: [dep_edge services a b] when a service
    named [a] lists [b] among its dependencies. *)
Definition dep_edge (services : list ServiceConfig) (a b : string) : Prop :=
  ∃ s, s ∈ services ∧ Name s = a ∧ b ∈ GetDependencies s.

(** The graph [NewGraph] runs the cycle detection on. *)
Definition built (services : list ServiceConfig) (st : ServiceStatus) : Graph :=
  add_edges services (add_vertices services st {| Vertices := [] |}).

Definition unknown_dependency (services : list ServiceConfig) : Prop :=
  ∃ s name, s ∈ services ∧ name ∈ GetDependencies s ∧ name ∉ names services.


(** * The watcher ([watchContainers]) *)

Module Watcher.

(** [moby.Container], as far as the watcher reads it. *)
Record Container : Type := mkContainer {
  ID : string;
  Names : list string;
  Labels : gmap string string;
}.

(** The answer of [ContainerInspect]: the fields of [ContainerJSON] the
    watcher reads, an error that [errdefs.IsNotFound] accepts, or any
    other error. *)
Record ContainerJSON : Type := mkInspected {
  inspected_ID : string;
  inspected_Name : string;
  Config_Labels : gmap string string;
  State_Restarting : bool;
  State_ExitCode : Z;
}.

Inductive inspection : Type :=
| Inspected (inspected : ContainerJSON)
| NotFound (err : error)
| InspectError (err : error).

(** [api.Event]; [time.Time] is an integer here. *)
Record Event : Type := mkEvent {
  Timestamp : Z;
  Event_Container : string;
  Event_Status : string;
}.

Inductive ContainerEventType : Type :=
| ContainerEventAttach
| ContainerEventStopped
| ContainerEventRecreated
| ContainerEventExit.

(** [api.ContainerEvent]; a field the code leaves out of the literal has
    its zero value. *)
Record ContainerEvent : Type := mkContainerEvent {
  Type_ : ContainerEventType;
  Event_Name : string;
  Event_ID : string;
  Event_Service : string;
  ExitCode : Z;
  Restarting : bool;
}.

(** What the watcher does to its collaborators, in the order it does it. *)
Inductive effect : Type :=
| Subscribe (projectName : string) (services : list string)
| Listener (e : ContainerEvent)
| OnStart (c : Container) (t : Z)
| OnRecreate (c : Container) (t : Z)
| Stop.

(** What the event stream brings next: an event, with the answer
    [ContainerInspect] gives for it at that moment, or the cancellation
    of the context by the caller. *)
Inductive stream_item : Type :=
| Deliver (event : Event) (answer : inspection)
| Cancel.

(** The variables the consumer closes over, with the journal of effects.
    [cancelled] is the state of the context made by [WithCancel]. *)
Record state : Type := mkState {
  expected : list string;
  watched : gmap string Z;
  replaced : list string;
  cancelled : bool;
  journal : list effect;
}.

Definition set_expected (st : state) (e : list string) : state :=
  {| expected := e; watched := watched st; replaced := replaced st;
     cancelled := cancelled st; journal := journal st |}.

Definition set_watched (st : state) (w : gmap string Z) : state :=
  {| expected := expected st; watched := w; replaced := replaced st;
     cancelled := cancelled st; journal := journal st |}.

Definition set_replaced (st : state) (r : list string) : state :=
  {| expected := expected st; watched := watched st; replaced := r;
     cancelled := cancelled st; journal := journal st |}.

Definition set_cancelled (st : state) : state :=
  {| expected := expected st; watched := watched st; replaced := replaced st;
     cancelled := true; journal := journal st |}.

Definition emit (st : state) (e : effect) : state :=
  {| expected := expected st; watched := watched st; replaced := replaced st;
     cancelled := cancelled st; journal := journal st ++ [e] |}.

(** The [moby.Container] the consumer makes of an inspection. *)
Definition container_of (inspected : ContainerJSON) : Container :=
  {| ID := inspected_ID inspected; Names := [inspected_Name inspected];
     Labels := Config_Labels inspected |}.

Section watcher.
(** The label names are constants of [pkg/api] and
    [getContainerNameWithoutProject] is a function of another file of
    the package; neither is among the sources. *)
Variable ServiceLabel ContainerReplaceLabel : string.
Variable getContainerNameWithoutProject : Container → string.

(** The callbacks: what they return; that they were called is written
    to the journal. *)
Variable onStart onRecreate : Container → Z → option error.

Definition label (labels : gmap string string) (name : string) : string :=
  default "" (labels !! name).

(* if len(expected) == 0 { stop() }; return nil *)
Definition finish (st : state) : state * option error :=
  if decide (length (expected st) = 0)
  then (set_cancelled (emit st Stop), None)
  else (st, None).

Definition on_stop (st : state) (container : Container) (name service : string)
  : state * option error :=
  let st :=
    match watched st !! ID container with
    | Some _ =>
        (* utils.Remove(replaced, container.ID): the result is dropped *)
        let eType := if Contains (replaced st) (ID container)
                     then ContainerEventRecreated else ContainerEventStopped in
        emit st (Listener {| Type_ := eType; Event_Name := name;
                             Event_ID := ID container; Event_Service := service;
                             ExitCode := 0; Restarting := false |})
    | None => st
    end in
  let st := set_watched st (delete (ID container) (watched st)) in
  let st := set_expected st (Remove (expected st) (ID container)) in
  finish st.

Definition on_die (st : state) (inspected : ContainerJSON) (container : Container)
    (name service : string) : state * option error :=
  let restarted := default 0%Z (watched st !! ID container) in
  let st := set_watched st (<[ID container := int_wrap (restarted + 1)]> (watched st)) in
  let willRestart := State_Restarting inspected in
  let eType := if Contains (replaced st) (ID container)
               then ContainerEventRecreated else ContainerEventExit in
  let st := emit st (Listener {| Type_ := eType; Event_Name := name;
                                 Event_ID := ID container; Event_Service := service;
                                 ExitCode := State_ExitCode inspected;
                                 Restarting := willRestart |}) in
  let st :=
    if willRestart then st
    else
      let st := set_watched st (delete (ID container) (watched st)) in
      set_expected st (Remove (expected st) (ID container)) in
  finish st.

Definition on_start (st : state) (container : Container) (timestamp : Z)
  : state * option error :=
  let '(st, mustAttach) :=
    match watched st !! ID container with
    | Some count => (st, bool_decide (0 < count)%Z)
    | None =>
        let st := set_watched st (<[ID container := 0%Z]> (watched st)) in
        (set_expected st (expected st ++ [ID container]), true)
    end in
  if mustAttach then
    let st := emit st (OnStart container timestamp) in
    match onStart container timestamp with
    | Some err => (st, Some err)
    | None => finish st
    end
  else finish st.

Definition on_create (st : state) (inspected : ContainerJSON) (container : Container)
    (timestamp : Z) : state * option error :=
  match Labels container !! ContainerReplaceLabel with
  | Some id =>
      let st := set_replaced st (replaced st ++ [id]) in
      let st := emit st (OnRecreate container timestamp) in
      match onRecreate container timestamp with
      | Some err => (st, Some err)
      | None =>
          let st := if StringContains (expected st) id
                    then set_expected st (expected st ++ [inspected_ID inspected])
                    else st in
          let st := set_watched st (<[ID container := 1%Z]> (watched st)) in
          let st := if Contains (expected st) id
                    then set_expected st (expected st ++ [ID container])
                    else st in
          finish st
      end
  | None => finish st
  end.

(** The [Consumer] closure. *)
Definition consumer (st : state) (event : Event) (answer : inspection)
  : state * option error :=
  match answer with
  | NotFound _ =>
      let st := set_watched st (delete (Event_Container event) (watched st)) in
      (set_expected st (Remove (expected st) (Event_Container event)), None)
  | InspectError err => (st, Some err)
  | Inspected inspected =>
      let container := container_of inspected in
      let name := getContainerNameWithoutProject container in
      let service := label (Labels container) ServiceLabel in
      if String.eqb (Event_Status event) "stop" then on_stop st container name service
      else if String.eqb (Event_Status event) "die"
        then on_die st inspected container name service
      else if String.eqb (Event_Status event) "start"
        then on_start st container (Timestamp event)
      else if String.eqb (Event_Status event) "create"
        then on_create st inspected container (Timestamp event)
      else finish st
  end.

(** Modelled from the spec: [Events] is a method of another file of
    the package, not among the sources.  The specification has it as a
    synchronous subscription that calls the consumer once per event and
    stops when the consumer returns an error or the context is
    cancelled.  It is run here on the events a stream brings up to some
    moment: [None] when the subscription is still waiting for the next
    event after them, [Some err] when it has returned [err]. *)
Definition contextCanceled : error := OtherError "context canceled".

Fixpoint Events (st : state) (stream : list stream_item) : state * option (option error) :=
  if cancelled st then (st, Some (Some contextCanceled))
  else
    match stream with
    | [] => (st, None)
    | Cancel :: _ => (set_cancelled st, Some (Some contextCanceled))
    | Deliver event answer :: rest =>
        match consumer st event answer with
        | (st, Some err) => (st, Some (Some err))
        | (st, None) => Events st rest
        end
    end.

(* the loop that seeds expected and watched *)
Fixpoint seed (required : list string) (containers : list Container) (st : state) : state :=
  match containers with
  | [] => st
  | c :: rest =>
      let st := if Contains required (label (Labels c) ServiceLabel)
                then set_expected st (expected st ++ [ID c]) else st in
      seed required rest (set_watched st (<[ID c := 0%Z]> (watched st)))
  end.

(** The state when the subscription starts. *)
Definition subscribed (projectName : string) (services required : list string)
    (containers : list Container) : state :=
  let required := if decide (length required = 0) then services else required in
  let st := {| expected := []; watched := ∅; replaced := [];
               cancelled := false; journal := [] |} in
  emit (seed required containers st) (Subscribe projectName services).

(** [watchContainers] on the events that have come so far: the
    journal of effects, and [Some err] when the call has returned
    [err], [None] when it is still in [Events]. *)
Definition watchContainers (projectName : string) (services required : list string)
    (containers : list Container) (stream : list stream_item)
  : state * option (option error) :=
  if decide (length containers = 0) then
    ({| expected := []; watched := ∅; replaced := [];
        cancelled := false; journal := [] |}, Some None)
  else
    match Events (subscribed projectName services required containers) stream with
    | (st, None) => (st, None)
    | (st, Some err) =>
        (* errors.Is(ctx.Err(), context.Canceled) *)
        if cancelled st then (st, Some None) else (st, Some err)
    end.
End watcher.

End Watcher.

(** ** The recreation scenario *)

Module Scenario.
Import Watcher.

Definition service_label : string := "com.docker.compose.service".
Definition replace_label : string := "com.docker.compose.replace".

Definition c1 : ContainerJSON :=
  {| inspected_ID := "c1"; inspected_Name := "/proj-a-1";
     Config_Labels := {[ service_label := "a" ]};
     State_Restarting := false; State_ExitCode := 0 |}.

Definition c2 : ContainerJSON :=
  {| inspected_ID := "c2"; inspected_Name := "/proj-a-1";
     Config_Labels := <[ replace_label := "c1" ]> {[ service_label := "a" ]};
     State_Restarting := false; State_ExitCode := 0 |}.

Definition initial : list Container := [container_of c1].

Definition happened (t : Z) (status : string) (i : ContainerJSON) : stream_item :=
  Deliver {| Timestamp := t; Event_Container := inspected_ID i; Event_Status := status |}
          (Inspected i).

Definition recreation : list stream_item :=
  [happened 1 "create" c2; happened 2 "stop" c1; happened 3 "start" c2].

(* the callbacks succeed; the name shown is the first of [Names] *)
Definition succeeds (c : Container) (t : Z) : option error := None.
Definition shown (c : Container) : string := default "" (head (Names c)).

Definition watch (required : list string) (containers : list Container)
    (stream : list stream_item) : state * option (option error) :=
  watchContainers service_label replace_label shown succeeds succeeds
    "proj" ["a"] required containers stream.
End Scenario.

(** * The traversal ([graphTraversal.visit])

    [visit] runs one coordinator goroutine and one goroutine per visitor
    in an [errgroup.Group] and waits for them.  The embedding is a
    transition system: a state holds the variables the goroutines share
    and where each goroutine is in its code, and a step is one action of
    one goroutine.  The actions are those the code makes atomic: a call
    under the graph lock, [consume] under [t.mu], a rendezvous on the
    unbuffered [nodeCh], a call of [eg.Go], the return of a goroutine.
    Every interleaving of the goroutines is a sequence of steps.

    A [*Vertex] is its key, so [node.Key] is [node].  The visitor is not
    part of the state: it may return any value at any call, which covers
    every [visitorFn]. *)

Module Traversal.

(** The fields of [graphTraversal] but [mu], [seen] (in the state) and
    [visitorFn]. *)
Record graphTraversal : Type := mkTraversal {
  extremityNodesFn : Graph → list string;
  adjacentNodesFn : Graph → string → outcome (list string);
  filterAdjacentByStatusFn : Graph → string → ServiceStatus → outcome (list string);
  targetServiceStatus : ServiceStatus;
  adjacentServiceStatusToSkip : ServiceStatus;
  maxConcurrency : Z;
}.

Definition upDirectionTraversal : graphTraversal :=
  {| extremityNodesFn := Leaves;
     adjacentNodesFn := GetParents;
     filterAdjacentByStatusFn := FilterChildren;
     adjacentServiceStatusToSkip := ServiceStopped;
     targetServiceStatus := ServiceStarted;
     maxConcurrency := 0 |}.

Definition downDirectionTraversal : graphTraversal :=
  {| extremityNodesFn := Roots;
     adjacentNodesFn := GetChildren;
     filterAdjacentByStatusFn := FilterParents;
     adjacentServiceStatusToSkip := ServiceStarted;
     targetServiceStatus := ServiceStopped;
     maxConcurrency := 0 |}.

(** An option of [InDependencyOrder] that sets [maxConcurrency]. *)
Definition WithMaxConcurrency (n : Z) (t : graphTraversal) : graphTraversal :=
  {| extremityNodesFn := extremityNodesFn t;
     adjacentNodesFn := adjacentNodesFn t;
     filterAdjacentByStatusFn := filterAdjacentByStatusFn t;
     adjacentServiceStatusToSkip := adjacentServiceStatusToSkip t;
     targetServiceStatus := targetServiceStatus t;
     maxConcurrency := n |}.

(** Where a goroutine is in [run]. *)
Inductive run_pc : Type :=
| RunNext (nodes : list string)                  (* at the head of the loop, [nodes] left *)
| RunConsume (node : string) (rest : list string) (* the filter was empty; before [t.consume] *)
| RunGo (node : string) (rest : list string).     (* [consume] was true; before [eg.Go] *)

(** The goroutine that called [visit]. *)
Inductive main_pc : Type :=
| MainRun (pc : run_pc)          (* in [t.run(ctx, g, eg, nodes, nodeCh)] *)
| MainWait                       (* in [eg.Wait()] *)
| MainReturned (err : option error).

(** The coordinator, the first goroutine of the group. *)
Inductive coord_pc : Type :=
| CoordRecv                      (* [for node := range nodeCh] *)
| CoordGot (node : string)       (* received [node], [expect] decremented *)
| CoordRun (pc : run_pc)         (* in [t.run(ctx, g, eg, t.adjacentNodesFn(node), nodeCh)] *)
| CoordDone.

(** A goroutine started by [run]. *)
Inductive worker_pc : Type :=
| WStart                         (* started; before [t.visitorFn(ctx, node.Service)] *)
| WVisiting                      (* in the visitor *)
| WVisited (err : option error)  (* the visitor returned [err] *)
| WSend (err : option error)     (* before [nodeCh <- node] *)
| WSent (err : option error).    (* before [return err] *)

Record state : Type := mkState {
  graph : Graph;
  seen : list string;            (* the keys of [t.seen] *)
  expect : Z;
  closed : bool;                 (* [nodeCh] is closed *)
  main : main_pc;
  coord : coord_pc;
  workers : list (string * worker_pc);
  eg_err : option error;         (* the first error of the group *)
  ctx_cancelled : bool;          (* the context made by [errgroup.WithContext] *)
  panicked : bool;
}.

Definition with_graph (s : state) (g : Graph) : state :=
  {| graph := g; seen := seen s; expect := expect s; closed := closed s;
     main := main s; coord := coord s; workers := workers s; eg_err := eg_err s;
     ctx_cancelled := ctx_cancelled s; panicked := panicked s |}.

Definition with_seen (s : state) (l : list string) : state :=
  {| graph := graph s; seen := l; expect := expect s; closed := closed s;
     main := main s; coord := coord s; workers := workers s; eg_err := eg_err s;
     ctx_cancelled := ctx_cancelled s; panicked := panicked s |}.

Definition with_main (s : state) (pc : main_pc) : state :=
  {| graph := graph s; seen := seen s; expect := expect s; closed := closed s;
     main := pc; coord := coord s; workers := workers s; eg_err := eg_err s;
     ctx_cancelled := ctx_cancelled s; panicked := panicked s |}.

Definition with_coord (s : state) (pc : coord_pc) : state :=
  {| graph := graph s; seen := seen s; expect := expect s; closed := closed s;
     main := main s; coord := pc; workers := workers s; eg_err := eg_err s;
     ctx_cancelled := ctx_cancelled s; panicked := panicked s |}.

Definition with_workers (s : state) (ws : list (string * worker_pc)) : state :=
  {| graph := graph s; seen := seen s; expect := expect s; closed := closed s;
     main := main s; coord := coord s; workers := ws; eg_err := eg_err s;
     ctx_cancelled := ctx_cancelled s; panicked := panicked s |}.

Definition with_expect (s : state) (n : Z) : state :=
  {| graph := graph s; seen := seen s; expect := n; closed := closed s;
     main := main s; coord := coord s; workers := workers s; eg_err := eg_err s;
     ctx_cancelled := ctx_cancelled s; panicked := panicked s |}.

Definition with_closed (s : state) : state :=
  {| graph := graph s; seen := seen s; expect := expect s; closed := true;
     main := main s; coord := coord s; workers := workers s; eg_err := eg_err s;
     ctx_cancelled := ctx_cancelled s; panicked := panicked s |}.

Definition with_cancelled (s : state) : state :=
  {| graph := graph s; seen := seen s; expect := expect s; closed := closed s;
     main := main s; coord := coord s; workers := workers s; eg_err := eg_err s;
     ctx_cancelled := true; panicked := panicked s |}.

Definition with_panicked (s : state) : state :=
  {| graph := graph s; seen := seen s; expect := expect s; closed := closed s;
     main := main s; coord := coord s; workers := workers s; eg_err := eg_err s;
     ctx_cancelled := ctx_cancelled s; panicked := true |}.

(** The return of a goroutine of the group with [err]: the first
    non-nil error is kept and cancels the context. *)
Definition group_done (s : state) (err : option error) : state :=
  match err, eg_err s with
  | Some e, None =>
      {| graph := graph s; seen := seen s; expect := expect s; closed := closed s;
         main := main s; coord := coord s; workers := workers s; eg_err := Some e;
         ctx_cancelled := true; panicked := panicked s |}
  | _, _ => s
  end.

(** What an observer sees of a step. *)
Inductive event : Type :=
| EvCheck (node : string) (ready : bool)        (* the readiness check of [run] *)
| EvConsume (node : string) (fresh : bool)      (* [t.consume(node.Key)] *)
| EvGo (node : string)                          (* [eg.Go] started a goroutine for [node] *)
| EvInvoke (node : string)                      (* the visitor is called for [node] *)
| EvVisited (node : string) (err : option error) (* the visitor returned [err] *)
| EvUpdate (node : string)                      (* [graph.UpdateStatus(node.Key, target)] *)
| EvReceive (node : string)                     (* the coordinator received [node] *)
| EvFinish (node : string) (err : option error) (* the goroutine of [node] returned [err] *)
| EvReturn (err : option error)                 (* [visit] returned [err] *)
| EvCancel                                      (* the caller cancelled the context *)
| EvPanic
| EvInternal.

(** The limit of the group: [eg.SetLimit(t.maxConcurrency + 1)] when
    [t.maxConcurrency > 0]; a negative limit is no limit. *)
Definition limit (t : graphTraversal) : option Z :=
  if decide (0 < maxConcurrency t)%Z then
    let n := int_wrap (maxConcurrency t + 1) in
    if decide (n < 0)%Z then None else Some n
  else None.

(** The goroutines of the group that have not returned. *)
Definition active (s : state) : Z :=
  ((match coord s with CoordDone => 0 | _ => 1 end) + Z.of_nat (length (workers s)))%Z.

(* [eg.Go] does not block *)
Definition slot_free (t : graphTraversal) (s : state) : Prop :=
  match limit t with
  | None => True
  | Some n => (active s < n)%Z
  end.

Section steps.
Variable t : graphTraversal.

(** One action of a goroutine that is in [run]; the state it leaves
    and where it is then. *)
Inductive run_step : state → run_pc → event → state → run_pc → Prop :=
| run_not_ready s node rest res :
    filterAdjacentByStatusFn t (graph s) node (adjacentServiceStatusToSkip t) = Ret res →
    res ≠ [] →
    run_step s (RunNext (node :: rest)) (EvCheck node false) s (RunNext rest)
| run_ready s node rest :
    filterAdjacentByStatusFn t (graph s) node (adjacentServiceStatusToSkip t) = Ret [] →
    run_step s (RunNext (node :: rest)) (EvCheck node true) s (RunConsume node rest)
| run_check_panic s node rest :
    filterAdjacentByStatusFn t (graph s) node (adjacentServiceStatusToSkip t) = Panic →
    run_step s (RunNext (node :: rest)) EvPanic (with_panicked s) (RunNext rest)
| run_consume_seen s node rest :
    node ∈ seen s →
    run_step s (RunConsume node rest) (EvConsume node false) s (RunNext rest)
| run_consume_fresh s node rest :
    node ∉ seen s →
    run_step s (RunConsume node rest) (EvConsume node true)
      (with_seen s (seen s ++ [node])) (RunGo node rest)
| run_go s node rest :
    slot_free t s →
    run_step s (RunGo node rest) (EvGo node)
      (with_workers s (workers s ++ [(node, WStart)])) (RunNext rest).

Inductive step : state → event → state → Prop :=
(* the caller of [visit] *)
| step_main_run s pc ev s' pc' :
    main s = MainRun pc → run_step s pc ev s' pc' →
    step s ev (with_main s' (MainRun pc'))
| step_main_wait s :
    main s = MainRun (RunNext []) →
    step s EvInternal (with_main s MainWait)
| step_return s :
    main s = MainWait → coord s = CoordDone → workers s = [] →
    step s (EvReturn (eg_err s)) (with_main (with_cancelled s) (MainReturned (eg_err s)))
(* the coordinator *)
| step_receive s ws1 node err ws2 :
    coord s = CoordRecv → closed s = false →
    workers s = ws1 ++ (node, WSend err) :: ws2 →
    step s (EvReceive node)
      (with_coord (with_expect (with_workers s (ws1 ++ (node, WSent err) :: ws2))
                     (expect s - 1)) (CoordGot node))
| step_close s node :
    coord s = CoordGot node → expect s = 0%Z →
    step s EvInternal (with_coord (with_closed s) CoordDone)
| step_expand s node adjacent nodes :
    coord s = CoordGot node → expect s ≠ 0%Z →
    adjacentNodesFn t (graph s) node = Ret adjacent → nodes ≡ₚ adjacent →
    step s EvInternal (with_coord s (CoordRun (RunNext nodes)))
| step_expand_panic s node :
    coord s = CoordGot node → expect s ≠ 0%Z →
    adjacentNodesFn t (graph s) node = Panic →
    step s EvPanic (with_panicked s)
| step_coord_run s pc ev s' pc' :
    coord s = CoordRun pc → run_step s pc ev s' pc' →
    step s ev (with_coord s' (CoordRun pc'))
| step_coord_loop s :
    coord s = CoordRun (RunNext []) →
    step s EvInternal (with_coord s CoordRecv)
| step_range_end s :
    coord s = CoordRecv → closed s = true →
    step s EvInternal (with_coord s CoordDone)
(* the goroutine of a node *)
| step_invoke s ws1 node ws2 :
    workers s = ws1 ++ (node, WStart) :: ws2 →
    step s (EvInvoke node) (with_workers s (ws1 ++ (node, WVisiting) :: ws2))
| step_visited s ws1 node ws2 err :
    workers s = ws1 ++ (node, WVisiting) :: ws2 →
    step s (EvVisited node err) (with_workers s (ws1 ++ (node, WVisited err) :: ws2))
| step_update s ws1 node ws2 g' :
    workers s = ws1 ++ (node, WVisited None) :: ws2 →
    UpdateStatus (graph s) node (targetServiceStatus t) = Ret g' →
    step s (EvUpdate node)
      (with_workers (with_graph s g') (ws1 ++ (node, WSend None) :: ws2))
| step_update_panic s ws1 node ws2 :
    workers s = ws1 ++ (node, WVisited None) :: ws2 →
    UpdateStatus (graph s) node (targetServiceStatus t) = Panic →
    step s EvPanic (with_panicked s)
| step_no_update s ws1 node ws2 e :
    workers s = ws1 ++ (node, WVisited (Some e)) :: ws2 →
    step s EvInternal (with_workers s (ws1 ++ (node, WSend (Some e)) :: ws2))
| step_send_closed s ws1 node err ws2 :
    closed s = true →
    workers s = ws1 ++ (node, WSend err) :: ws2 →
    step s EvPanic (with_panicked s)
| step_finish s ws1 node err ws2 :
    workers s = ws1 ++ (node, WSent err) :: ws2 →
    step s (EvFinish node err) (group_done (with_workers s (ws1 ++ ws2)) err)
(* the caller's context *)
| step_cancel s :
    step s EvCancel (with_cancelled s).

(** [visit] up to the start of [t.run(ctx, g, eg, nodes, nodeCh)]: with
    no vertex it has returned nil; otherwise the coordinator is started
    and the extremities are at hand, in the order [range] gave them. *)
Inductive initial (g : Graph) : state → Prop :=
| initial_empty :
    length (Vertices g) = 0 →
    initial g {| graph := g; seen := []; expect := 0; closed := false;
                 main := MainReturned None; coord := CoordDone; workers := [];
                 eg_err := None; ctx_cancelled := false; panicked := false |}
| initial_run nodes :
    length (Vertices g) ≠ 0 →
    nodes ≡ₚ extremityNodesFn t g →
    initial g {| graph := g; seen := []; expect := Z.of_nat (length (Vertices g));
                 closed := false;
                 main := MainRun (RunNext nodes); coord := CoordRecv; workers := [];
                 eg_err := None; ctx_cancelled := false; panicked := false |}.

(** The executions of [visit] on [g]: the events so far, oldest first,
    and the state reached. *)
Inductive reachable (g : Graph) : list event → state → Prop :=
| reachable_initial s : initial g s → reachable g [] s
| reachable_step tr s ev s' :
    reachable g tr s → step s ev s' → reachable g (tr ++ [ev]) s'.
End steps.

(** What an execution shows of each node. *)
Definition invoked (tr : list event) : list string :=
  omap (λ ev, match ev with EvInvoke node => Some node | _ => None end) tr.

Definition received (tr : list event) : list string :=
  omap (λ ev, match ev with EvReceive node => Some node | _ => None end) tr.

Definition finished (tr : list event) : list string :=
  omap (λ ev, match ev with EvFinish node _ => Some node | _ => None end) tr.

Definition updated (tr : list event) : list string :=
  omap (λ ev, match ev with EvUpdate node => Some node | _ => None end) tr.

Definition visited_with (tr : list event) : list (string * option error) :=
  omap (λ ev, match ev with EvVisited node err => Some (node, err) | _ => None end) tr.

(** The neighbours a node waits for: its children on the way up, its
    parents on the way down. *)
Inductive direction : Type := Up | Down.

Definition traversal (d : direction) : graphTraversal :=
  match d with Up => upDirectionTraversal | Down => downDirectionTraversal end.

Definition gating (d : direction) (g : Graph) (node : string) : list string :=
  match vertex_at g node with
  | Some v => match d with Up => Children v | Down => Parents v end
  | None => []
  end.

End Traversal.

(** ** Notions the properties of the traversal are stated with *)

Module TraversalNotions.
Import Traversal.

Definition run_nodes (pc : run_pc) : list string :=
  match pc with
  | RunNext nodes => nodes
  | RunConsume node rest => node :: rest
  | RunGo node rest => node :: rest
  end.

Definition main_nodes (pc : main_pc) : list string :=
  match pc with MainRun pc => run_nodes pc | _ => [] end.

Definition coord_nodes (pc : coord_pc) : list string :=
  match pc with
  | CoordGot node => [node]
  | CoordRun pc => run_nodes pc
  | _ => []
  end.

(* the node a goroutine in [run] has consumed and not yet started *)
Definition run_pending (pc : run_pc) : list string :=
  match pc with RunGo node _ => [node] | _ => [] end.

Definition main_pending (pc : main_pc) : list string :=
  match pc with MainRun pc => run_pending pc | _ => [] end.

Definition coord_pending (pc : coord_pc) : list string :=
  match pc with CoordRun pc => run_pending pc | _ => [] end.

(* the node a goroutine in [run] has found ready and not yet consumed *)
Definition run_checked (pc : run_pc) : list string :=
  match pc with RunConsume node _ => [node] | _ => [] end.

Definition main_checked (pc : main_pc) : list string :=
  match pc with MainRun pc => run_checked pc | _ => [] end.

Definition coord_checked (pc : coord_pc) : list string :=
  match pc with CoordRun pc => run_checked pc | _ => [] end.

(** The nodes that were consumed and whose goroutine has not returned. *)
Definition holders (s : state) : list string :=
  main_pending (main s) ++ coord_pending (coord s) ++ (workers s).*1.

(* the nodes of the goroutines that are at a place where [P] holds *)
Definition nodes_where (P : worker_pc → bool) (ws : list (string * worker_pc))
  : list string :=
  omap (λ w, if P w.2 then Some w.1 else None) ws.

Definition started (pc : worker_pc) : bool :=
  match pc with WStart => false | _ => true end.

Definition sent (pc : worker_pc) : bool :=
  match pc with WSent _ => true | _ => false end.

(* what the visitor of a goroutine returned *)
Definition result_of (pc : worker_pc) : option (option error) :=
  match pc with
  | WVisited err | WSend err | WSent err => Some err
  | _ => None
  end.

Definition returned (pc : worker_pc) : bool :=
  match pc with WVisited _ | WSend _ | WSent _ => true | _ => false end.

(* the goroutine is past the update of the status *)
Definition past_update (pc : worker_pc) : bool :=
  match pc with WSend _ | WSent _ => true | _ => false end.

(** The traversals of [InDependencyOrder] and
    [InReverseDependencyOrder], with any [maxConcurrency]. *)
Definition directed (d : direction) (n : Z) : graphTraversal :=
  WithMaxConcurrency n (traversal d).

(** The neighbours a completed node releases: its parents on the way
    up, its children on the way down. *)
Definition released (d : direction) (g : Graph) (node : string) : list string :=
  match vertex_at g node with
  | Some v => match d with Up => Parents v | Down => Children v end
  | None => []
  end.

(** The invariants of an execution on the graph [g0]. *)
Record shape_inv (g0 : Graph) (s : state) : Prop := {
  shape_wf : graph_wf (graph s);
  shape_keys : keys (graph s) = keys g0;
  shape_edges : ∀ k v, vertex_at (graph s) k = Some v →
      ∃ v0, vertex_at g0 k = Some v0 ∧ Children v = Children v0 ∧ Parents v = Parents v0;
  shape_main : main_nodes (main s) ⊆ keys g0;
  shape_coord : coord_nodes (coord s) ⊆ keys g0;
  shape_workers : (workers s).*1 ⊆ keys g0;
  shape_seen : seen s ⊆ keys g0;
}.

Record token_inv (g0 : Graph) (tr : list event) (s : state) : Prop := {
  tok_nodup : NoDup (seen s);
  tok_seen : seen s ≡ₚ holders s ++ finished tr;
  tok_invoked : invoked tr ≡ₚ nodes_where started (workers s) ++ finished tr;
  tok_received : received tr ≡ₚ nodes_where sent (workers s) ++ finished tr;
  tok_expect :
    expect s = (Z.of_nat (length (Vertices g0)) - Z.of_nat (length (received tr)))%Z;
  tok_closed : closed s = true → coord s = CoordDone;
  tok_done : coord s = CoordDone → length (received tr) = length (Vertices g0);
  tok_returned : ∀ err, main s = MainReturned err →
      coord s = CoordDone ∧ workers s = [] ∧ err = eg_err s;
  tok_panicked : panicked s = false;
}.

(** What the visitors returned and what became of the statuses. *)
Record result_inv (t : graphTraversal) (g0 : Graph) (tr : list event) (s : state)
  : Prop := {
  res_visited : (visited_with tr).*1 ≡ₚ nodes_where returned (workers s) ++ finished tr;
  res_worker : ∀ node pc err, (node, pc) ∈ workers s → result_of pc = Some err →
      (node, err) ∈ visited_with tr;
  res_past : ∀ node pc, (node, pc) ∈ workers s → past_update pc = true →
      result_of pc = Some None → node ∈ updated tr;
  res_finished : ∀ node, EvFinish node None ∈ tr → node ∈ updated tr;
  res_failed : ∀ node e, EvFinish node (Some e) ∈ tr → eg_err s ≠ None;
  res_updated : ∀ node, node ∈ updated tr →
      status_at (graph s) node = Some (targetServiceStatus t)
      ∧ (node, None) ∈ visited_with tr;
  res_status : ∀ node, status_at (graph s) node = status_at g0 node ∨ node ∈ updated tr;
  res_cancel : eg_err s ≠ None → ctx_cancelled s = true;
}.

(** A node that was found ready: the check is in the execution, and
    before it each neighbour the node waits for had its status updated,
    unless it had the target status from the start. *)
Definition checked_ready (d : direction) (g0 : Graph) (tr : list event) (node : string)
  : Prop :=
  ∃ tr1 tr2, tr = tr1 ++ EvCheck node true :: tr2
    ∧ ∀ c, c ∈ gating d g0 node →
        c ∈ updated tr1 ∨ status_at g0 c = Some (targetServiceStatus (traversal d)).

Record ready_inv (d : direction) (g0 : Graph) (tr : list event) (s : state) : Prop := {
  ready_seen : ∀ node, node ∈ seen s → checked_ready d g0 tr node;
  ready_main : ∀ node, node ∈ main_checked (main s) → checked_ready d g0 tr node;
  ready_coord : ∀ node, node ∈ coord_checked (coord s) → checked_ready d g0 tr node;
}.
End TraversalNotions.

(** ** Executions by schedule

    The transition system as a function: a schedule names the goroutine
    that moves next (and, for a goroutine in the visitor, what the
    visitor returns).  [exec] makes the step of that goroutine when it
    has one; every step it makes is a step of the transition system
    ([exec_step] below), so schedules give executions by computation. *)

Module Schedule.
Import Traversal.

Inductive choice : Type :=
| Main                                    (* the caller of [visit] *)
| Coord                                   (* the coordinator *)
| Worker (i : nat) (err : option error)   (* the [i]-th goroutine; its visitor returns [err] *)
| Caller.                                 (* the caller cancels the context *)

Definition slot_freeb (t : graphTraversal) (s : state) : bool :=
  match limit t with
  | None => true
  | Some n => bool_decide (active s < n)%Z
  end.

Definition exec_run (t : graphTraversal) (s : state) (pc : run_pc)
  : option (event * state * run_pc) :=
  match pc with
  | RunNext [] => None
  | RunNext (node :: rest) =>
      match filterAdjacentByStatusFn t (graph s) node (adjacentServiceStatusToSkip t) with
      | Ret [] => Some (EvCheck node true, s, RunConsume node rest)
      | Ret (_ :: _) => Some (EvCheck node false, s, RunNext rest)
      | Panic => Some (EvPanic, with_panicked s, RunNext rest)
      | OutOfFuel => None
      end
  | RunConsume node rest =>
      if bool_decide (node ∈ seen s)
      then Some (EvConsume node false, s, RunNext rest)
      else Some (EvConsume node true, with_seen s (seen s ++ [node]), RunGo node rest)
  | RunGo node rest =>
      if slot_freeb t s
      then Some (EvGo node, with_workers s (workers s ++ [(node, WStart)]), RunNext rest)
      else None
  end.

Definition exec_worker (t : graphTraversal) (s : state) (i : nat) (err : option error)
  : option (event * state) :=
  let ws1 := take i (workers s) in
  let ws2 := drop (S i) (workers s) in
  match workers s !! i with
  | None => None
  | Some (node, WStart) =>
      Some (EvInvoke node, with_workers s (ws1 ++ (node, WVisiting) :: ws2))
  | Some (node, WVisiting) =>
      Some (EvVisited node err, with_workers s (ws1 ++ (node, WVisited err) :: ws2))
  | Some (node, WVisited None) =>
      match UpdateStatus (graph s) node (targetServiceStatus t) with
      | Ret g' => Some (EvUpdate node,
                        with_workers (with_graph s g') (ws1 ++ (node, WSend None) :: ws2))
      | Panic => Some (EvPanic, with_panicked s)
      | OutOfFuel => None
      end
  | Some (node, WVisited (Some e)) =>
      Some (EvInternal, with_workers s (ws1 ++ (node, WSend (Some e)) :: ws2))
  | Some (node, WSend r) =>
      if closed s then Some (EvPanic, with_panicked s)
      else match coord s with
           | CoordRecv =>
               Some (EvReceive node,
                     with_coord (with_expect (with_workers s (ws1 ++ (node, WSent r) :: ws2))
                                   (expect s - 1)) (CoordGot node))
           | _ => None
           end
  | Some (node, WSent r) =>
      Some (EvFinish node r, group_done (with_workers s (ws1 ++ ws2)) r)
  end.

Definition exec (t : graphTraversal) (s : state) (c : choice) : option (event * state) :=
  match c with
  | Main =>
      match main s with
      | MainRun (RunNext []) => Some (EvInternal, with_main s MainWait)
      | MainRun pc =>
          match exec_run t s pc with
          | Some (ev, s', pc') => Some (ev, with_main s' (MainRun pc'))
          | None => None
          end
      | MainWait =>
          match coord s, workers s with
          | CoordDone, [] =>
              Some (EvReturn (eg_err s),
                    with_main (with_cancelled s) (MainReturned (eg_err s)))
          | _, _ => None
          end
      | MainReturned _ => None
      end
  | Coord =>
      match coord s with
      | CoordRecv => if closed s then Some (EvInternal, with_coord s CoordDone) else None
      | CoordGot node =>
          if decide (expect s = 0%Z) then Some (EvInternal, with_coord (with_closed s) CoordDone)
          else match adjacentNodesFn t (graph s) node with
               | Ret adjacent => Some (EvInternal, with_coord s (CoordRun (RunNext adjacent)))
               | Panic => Some (EvPanic, with_panicked s)
               | OutOfFuel => None
               end
      | CoordRun (RunNext []) => Some (EvInternal, with_coord s CoordRecv)
      | CoordRun pc =>
          match exec_run t s pc with
          | Some (ev, s', pc') => Some (ev, with_coord s' (CoordRun pc'))
          | None => None
          end
      | CoordDone => None
      end
  | Worker i err => exec_worker t s i err
  | Caller => Some (EvCancel, with_cancelled s)
  end.

(** The events and the state after a schedule; [None] when a goroutine
    named by the schedule cannot move. *)
Fixpoint run (t : graphTraversal) (s : state) (schedule : list choice)
  : option (list event * state) :=
  match schedule with
  | [] => Some ([], s)
  | c :: rest =>
      match exec t s c with
      | Some (ev, s') =>
          match run t s' rest with
          | Some (tr, s'') => Some (ev :: tr, s'')
          | None => None
          end
      | None => None
      end
  end.

(** [visit] at the start of [t.run(ctx, g, eg, nodes, nodeCh)], with
    the extremities in the order of the model. *)
Definition start (t : graphTraversal) (g : Graph) : state :=
  if decide (length (Vertices g) = 0) then
    {| graph := g; seen := []; expect := 0; closed := false;
       main := MainReturned None; coord := CoordDone; workers := [];
       eg_err := None; ctx_cancelled := false; panicked := false |}
  else
    {| graph := g; seen := []; expect := Z.of_nat (length (Vertices g));
       closed := false;
       main := MainRun (RunNext (extremityNodesFn t g)); coord := CoordRecv; workers := [];
       eg_err := None; ctx_cancelled := false; panicked := false |}.

(** No goroutine can move (the caller may still cancel the context). *)
Definition stuck (t : graphTraversal) (s : state) : Prop :=
  ∀ ev s', step t s ev s' → ev = EvCancel.

(** Schedules on the diamond.  The goroutine of a node does all it can
    in a row: it calls the visitor, the visitor returns, the status is
    updated after a nil, the node is sent and the goroutine returns. *)
Definition whole (i : nat) (err : option error) : list choice :=
  replicate 5 (Worker i err).

(* main offers D; the coordinator offers B and C after D, A after each *)
Definition diamond_success : list choice :=
  [Main; Main; Main; Main]                     (* D: ready, consumed, started; wait *)
  ++ whole 0 None                              (* D *)
  ++ [Coord; Coord; Coord; Coord; Coord; Coord; Coord; Coord]
                                               (* expand D: B and C started; receive *)
  ++ whole 0 None                              (* B *)
  ++ [Coord; Coord; Coord]                     (* expand B: A not ready; receive *)
  ++ whole 0 None                              (* C *)
  ++ [Coord; Coord; Coord; Coord; Coord]       (* expand C: A started; receive *)
  ++ whole 0 None                              (* A *)
  ++ [Coord; Main].                            (* close; return *)

Definition X : error := OtherError "X".

(* as above, but the visitor of C returns X *)
Definition diamond_failure : list choice :=
  [Main; Main; Main; Main]
  ++ whole 0 None
  ++ [Coord; Coord; Coord; Coord; Coord; Coord; Coord; Coord]
  ++ whole 0 None
  ++ [Coord; Coord; Coord]
  ++ whole 0 (Some X)                          (* C fails *)
  ++ [Coord; Coord; Coord].                    (* expand C: A not ready; receive *)

(* up to the start of the goroutine of B *)
Definition diamond_before_B : list choice :=
  [Main; Main; Main; Main]
  ++ whole 0 None
  ++ [Coord; Coord; Coord; Coord; Coord; Coord; Coord; Coord].

Definition diamond_graph : Graph := built diamond ServiceStopped.

(** The events and the state after a schedule on the diamond, going
    up; the empty execution if some goroutine of the schedule cannot
    move. *)
Definition diamond_after (schedule : list choice) : list event * state :=
  default ([], start upDirectionTraversal diamond_graph)
    (run upDirectionTraversal (start upDirectionTraversal diamond_graph) schedule).
End Schedule.

(** * Further notions: the graph *)

(** [pedge g b a] when [a] is a parent of [b]. *)
Definition pedge (g : Graph) (b a : string) : Prop :=
  ∃ v, vertex_at g b = Some v ∧ a ∈ Parents v.

(** The graph with every edge reversed. *)
Definition reverse_vertex (v : Vertex) : Vertex :=
  {| Key := Key v; Service := Service v; Status := Status v;
     Children := Parents v; Parents := Children v |}.

Definition reverse_graph (g : Graph) : Graph :=
  {| Vertices := prod_map id reverse_vertex <$> Vertices g |}.

(** Children and parents mirror each other. *)
Definition consistent (g : Graph) : Prop := ∀ a b, gedge g a b ↔ pedge g b a.

(** What [AddVertex] and [AddEdge] keep of a graph whose vertices were
    all made with the service name as key and the status [st]. *)
Record built_inv (st : ServiceStatus) (g : Graph) : Prop := {
  bi_wf : graph_wf g;
  bi_fields : ∀ k v, vertex_at g k = Some v → Service v = k ∧ Status v = st;
  bi_nodup : ∀ k v, vertex_at g k = Some v → NoDup (Children v) ∧ NoDup (Parents v);
  bi_consistent : consistent g;
}.

(** * Further notions: the traversals *)

Module Ordering.
Import Traversal TraversalNotions Schedule.

Definition visiting (pc : worker_pc) : bool :=
  match pc with WVisiting => true | _ => false end.

(** The errors the goroutines of the nodes returned, oldest first. *)
Definition failures (tr : list event) : list error :=
  omap (λ ev, match ev with EvFinish _ (Some e) => Some e | _ => None end) tr.

(** [InDependencyOrder] and [InReverseDependencyOrder] up to the call
    of [t.visit(ctx, graph)]: the error they return without a visit, or
    the traversal and the graph that [visit] is called with. *)
Inductive prepared : Type :=
| ReturnError (err : error)
| CallVisit (t : graphTraversal) (g : Graph).

Definition InDependencyOrder (services : list ServiceConfig)
    (options : list (graphTraversal → graphTraversal)) : outcome prepared :=
  match NewGraph services ServiceStopped with
  | Ret (_, Some err) => Ret (ReturnError err)
  | Ret (Some graph, None) =>
      Ret (CallVisit (foldl (λ t option, option t) upDirectionTraversal options) graph)
  | Ret (None, None) => Panic   (* [visit] reads [g.Vertices] of a nil graph *)
  | Panic => Panic
  | OutOfFuel => OutOfFuel
  end.

Definition InReverseDependencyOrder (services : list ServiceConfig) : outcome prepared :=
  match NewGraph services ServiceStarted with
  | Ret (_, Some err) => Ret (ReturnError err)
  | Ret (Some graph, None) => Ret (CallVisit downDirectionTraversal graph)
  | Ret (None, None) => Panic
  | Panic => Panic
  | OutOfFuel => OutOfFuel
  end.

(** The status [NewGraph] is called with for a direction. *)
Definition initial_status (d : direction) : ServiceStatus :=
  match d with Up => ServiceStopped | Down => ServiceStarted end.

(* the diamond, with the visitor of A returning X after D, B and C *)
Definition diamond_root_failure : list choice :=
  [Main; Main; Main; Main]
  ++ whole 0 None
  ++ [Coord; Coord; Coord; Coord; Coord; Coord; Coord; Coord]
  ++ whole 0 None
  ++ [Coord; Coord; Coord]
  ++ whole 0 None
  ++ [Coord; Coord; Coord; Coord; Coord]
  ++ whole 0 (Some X)
  ++ [Coord; Main].

(** The events and the state after a schedule of [visit] on [g]; the
    empty execution if some goroutine of the schedule cannot move. *)
Definition execution (t : graphTraversal) (g : Graph) (schedule : list choice)
  : list event * state :=
  default ([], start t g) (run t (start t g) schedule).

Definition started_diamond : Graph := built diamond ServiceStarted.

(** The executions from a state on. *)
Inductive steps (t : graphTraversal) : state → list event → state → Prop :=
| steps_done s : steps t s [] s
| steps_more s tr s1 ev s2 :
    steps t s tr s1 → step t s1 ev s2 → steps t s (tr ++ [ev]) s2.

(* up to the start of the goroutine of C, with B started *)
Definition diamond_before_C : list choice :=
  [Main; Main; Main; Main]
  ++ whole 0 None
  ++ [Coord; Coord; Coord; Coord; Coord; Coord].

(** No goroutine is started, received or returns, and [visit] does not
    return. *)
Definition quiet (ev : event) : bool :=
  match ev with
  | EvGo _ | EvReceive _ | EvFinish _ _ | EvReturn _ => false
  | _ => true
  end.

(** The nodes the coordinator has still to offer: those the node it
    received releases, before and while it runs over them. *)
Definition offered (d : direction) (g : Graph) (pc : coord_pc) : list string :=
  match pc with
  | CoordGot node => released d g node
  | CoordRun pc => run_nodes pc
  | _ => []
  end.

(** No visitor has returned an error. *)
Definition succeeded (tr : list event) : Prop :=
  ∀ node e, (node, Some e) ∉ visited_with tr.

(** What keeps a traversal going: the coordinator waits for a node only
    while some are missing, and a vertex that was not consumed is still
    to be offered, by the caller or by the coordinator, or waits for a
    neighbour that was not received. *)
Record live_inv (d : direction) (g0 : Graph) (tr : list event) (s : state) : Prop := {
  live_expect : expect s = 0%Z → coord s = CoordDone ∨ ∃ node, coord s = CoordGot node;
  live_offer : ∀ u, u ∈ keys g0 → u ∉ seen s →
      u ∈ main_nodes (main s) ∨ u ∈ offered d g0 (coord s)
      ∨ ∃ c, c ∈ gating d g0 u ∧ c ∉ received tr;
}.

(** A step of a goroutine that is not the return of an error by a
    visitor (the cancellation of the context by the caller is no step of
    a goroutine). *)
Definition advances (ev : event) : Prop :=
  ev ≠ EvCancel ∧ ∀ node e, ev ≠ EvVisited node (Some e).

(** A measure of what a traversal has left to do: the steps each
    goroutine has before it, counting for a node still to be started
    the steps of its goroutine, and for each node the coordinator still
    expects the steps of a round of the coordinator. *)
Definition run_measure (pc : run_pc) : nat :=
  match pc with
  | RunNext nodes => 8 * length nodes
  | RunConsume _ rest => 8 * length rest + 7
  | RunGo _ rest => 8 * length rest + 6
  end.

Definition main_measure (pc : main_pc) : nat :=
  match pc with
  | MainRun pc => run_measure pc + 2
  | MainWait => 1
  | MainReturned _ => 0
  end.

Definition coord_measure (d : direction) (g : Graph) (pc : coord_pc) : nat :=
  match pc with
  | CoordRecv => 1
  | CoordGot node => 8 * length (released d g node) + 3
  | CoordRun pc => run_measure pc + 2
  | CoordDone => 0
  end.

Definition worker_measure (pc : worker_pc) : nat :=
  match pc with
  | WStart => 5
  | WVisiting => 4
  | WVisited _ => 3
  | WSend _ => 2
  | WSent _ => 1
  end.

(* the steps of a round of the coordinator, at most *)
Definition round (d : direction) (g : Graph) : nat :=
  8 * max_list_with (λ k, length (released d g k)) (keys g) + 4.

Definition measure (d : direction) (g : Graph) (s : state) : nat :=
  main_measure (main s) + coord_measure d g (coord s)
  + sum_list_with (λ w, worker_measure w.2) (workers s)
  + Z.to_nat (expect s) * round d g.

(** The steps of goroutines in an execution: all events but the
    cancellations by the caller. *)
Definition is_cancel (ev : event) : bool :=
  match ev with EvCancel => true | _ => false end.

Definition moves (tr : list event) : nat :=
  length (filter (λ ev, is_cancel ev = false) tr).

(** A bound on the steps of a traversal of [g]. *)
Definition bound (d : direction) (g : Graph) : nat :=
  8 * length (Vertices g) + 3 + length (Vertices g) * round d g.

(** The events and the state after a schedule from the state [s] on. *)
Definition continuation (t : graphTraversal) (s : state) (schedule : list choice)
  : list event * state :=
  default ([], s) (run t s schedule).
End Ordering.

(** * Further notions: the watcher *)

Module WatchNotions.
Import Watcher.

(** How one call of the consumer that returns nil leaves the state,
    with the entries [js] it added to the journal: it has not touched
    the context, or it has found [expected] empty and called [stop()]
    last. *)
Definition ends_well (st st' : state) (js : list effect) : Prop :=
  (cancelled st' = cancelled st ∧ (Stop ∉ js))
  ∨ (cancelled st' = true ∧ expected st' = []
     ∧ ∃ js', js = js' ++ [Stop] ∧ (Stop ∉ js')).

(** Where an error the consumer returns comes from: the inspection, or
    the callback it called last. *)
Definition ends_badly (onStart onRecreate : Container → Z → option error)
    (st st' : state) (js : list effect) (answer : inspection) (err : error) : Prop :=
  cancelled st' = cancelled st ∧ (Stop ∉ js)
  ∧ (answer = InspectError err
     ∨ (∃ c t, last js = Some (OnStart c t) ∧ onStart c t = Some err)
     ∨ (∃ c t, last js = Some (OnRecreate c t) ∧ onRecreate c t = Some err)).

(** The errors of the inspections of a stream and of the callbacks a
    journal shows. *)
Definition error_source (onStart onRecreate : Container → Z → option error)
    (stream : list stream_item) (js : list effect) (err : error) : Prop :=
  (∃ event, Deliver event (InspectError err) ∈ stream)
  ∨ (∃ c t, OnStart c t ∈ js ∧ onStart c t = Some err)
  ∨ (∃ c t, OnRecreate c t ∈ js ∧ onRecreate c t = Some err).

(** How the subscription stands after the events of a stream, with the
    entries [js] added to the journal: still waiting, returned with an
    error of the consumer, or ended by the cancellation of the context,
    which [stop()] or the caller did. *)
Definition subscription_ends (onStart onRecreate : Container → Z → option error)
    (stream : list stream_item) (st' : state) (js : list effect)
    (r : option (option error)) : Prop :=
  match r with
  | None =>
      cancelled st' = false ∧ (Stop ∉ js) ∧ (Cancel ∉ stream)
      ∧ ∀ event err, Deliver event (InspectError err) ∉ stream
  | Some None => False
  | Some (Some err) =>
      (cancelled st' = false ∧ (Stop ∉ js)
       ∧ error_source onStart onRecreate stream js err)
      ∨ (cancelled st' = true ∧ err = contextCanceled
         ∧ ((expected st' = [] ∧ ∃ js', js = js' ++ [Stop] ∧ (Stop ∉ js'))
            ∨ (Cancel ∈ stream ∧ (Stop ∉ js))))
  end.

(** The event the listener is given for a [die] of a replaced container. *)
Definition recreated_on_die (getContainerNameWithoutProject : Container → string)
    (ServiceLabel : string) (inspected : ContainerJSON) : ContainerEvent :=
  {| Type_ := ContainerEventRecreated;
     Event_Name := getContainerNameWithoutProject (container_of inspected);
     Event_ID := inspected_ID inspected;
     Event_Service := label (Config_Labels inspected) ServiceLabel;
     ExitCode := State_ExitCode inspected;
     Restarting := State_Restarting inspected |}.

(* c1 is gone before it could be inspected *)
Definition vanished : stream_item :=
  Deliver {| Timestamp := 1; Event_Container := "c1"; Event_Status := "destroy" |}
          (NotFound (OtherError "No such container: c1")).

(* c1 dies and is restarted by the engine *)
Definition c1_restarting : ContainerJSON :=
  {| inspected_ID := "c1"; inspected_Name := "/proj-a-1";
     Config_Labels := {[ Scenario.service_label := "a" ]};
     State_Restarting := true; State_ExitCode := 1 |}.
End WatchNotions.

(** * The conditions [start] waits for ([getDependencyCondition]) *)

Module Waiting.

(** [types.ServiceConfig], as far as [getDependencyCondition] reads it:
    the name, and [DependsOn], a map from the name of a dependency to
    its [ServiceDependency], of which [Condition] is read; the map is in
    the order [range] gives it. *)
Record ServiceConfig : Type := mkService {
  Name : string;
  DependsOn : list (string * string);
}.

Section conditions.
(** The two conditions are constants of [compose-go] and of another
    file of the package. *)
Variable ServiceConditionCompletedSuccessfully ServiceConditionRunningOrHealthy : string.

(* for dependencyService, dependencyConfig := range services.DependsOn *)
Fixpoint depends_loop (dependsOn : list (string * string)) (name : string) : bool :=
  match dependsOn with
  | [] => false
  | (dependencyService, condition) :: rest =>
      if String.eqb dependencyService name
         && String.eqb condition ServiceConditionCompletedSuccessfully
      then true
      else depends_loop rest name
  end.

(* for _, services := range project.Services *)
Fixpoint services_loop (services : list ServiceConfig) (name : string) : bool :=
  match services with
  | [] => false
  | s :: rest => if depends_loop (DependsOn s) name then true else services_loop rest name
  end.

Definition getDependencyCondition (service : ServiceConfig) (services : list ServiceConfig)
  : string :=
  if services_loop services (Name service)
  then ServiceConditionCompletedSuccessfully
  else ServiceConditionRunningOrHealthy.

(** The map [depends] that [start] builds when [options.Wait] is set:
    the condition to wait for, for each service of the project. *)
Definition wait_conditions (services : list ServiceConfig) : list (string * string) :=
  foldl (λ depends s, GoMap.set depends (Name s) (getDependencyCondition s services))
        [] services.
End conditions.

(** Some service of the project depends on [name] with [condition]. *)
Definition depended_on (services : list ServiceConfig) (name condition : string) : Prop :=
  ∃ s, s ∈ services ∧ (name, condition) ∈ DependsOn s.

(* a web service that needs a database and a migration that runs once *)
Definition project : list ServiceConfig :=
  [ {| Name := "web";
       DependsOn := [("db", "service_healthy");
                     ("migrate", "service_completed_successfully")] |};
    {| Name := "migrate"; DependsOn := [("db", "service_started")] |};
    {| Name := "db"; DependsOn := [] |} ].
End Waiting.
(** * Properties *)

(** ** Slices and maps *)

Lemma StringContains_elem_of (l : list string) (x : string) :
  StringContains l x = true ↔ x ∈ l.
Proof.
  induction l as [|y l IH]; simpl.
  - split; [discriminate | intros H; inversion H].
  - destruct (String.eqb_spec x y) as [->|Hne].
    + split; [intros _; left | done].
    + rewrite IH. split; [by right | ].
      intros [?|?]%elem_of_cons; [congruence | done].
Qed.

Lemma StringContains_false (l : list string) (x : string) :
  StringContains l x = false ↔ x ∉ l.
Proof.
  rewrite <- StringContains_elem_of. destruct (StringContains l x); naive_solver.
Qed.

Lemma Remove_filter (l : list string) (x : string) :
  Remove l x = filter (λ y, y ≠ x) l.
Proof.
  induction l as [|y l IH]; [done|]. simpl.
  destruct (String.eqb_spec y x) as [->|Hne].
  - rewrite filter_cons_False by naive_solver. done.
  - rewrite filter_cons_True by done. by rewrite IH.
Qed.

Lemma elem_of_Remove (l : list string) (x y : string) :
  y ∈ Remove l x ↔ y ∈ l ∧ y ≠ x.
Proof. rewrite Remove_filter, list_elem_of_filter. naive_solver. Qed.

Lemma remove_fresh (l : list string) (x : string) :
  x ∉ l → remove (l ++ [x]) x = l.
Proof.
  intros Hx. unfold remove. rewrite filter_app.
  rewrite filter_cons_False, filter_nil, app_nil_r by naive_solver.
  induction l as [|y l IH]; [done|].
  apply not_elem_of_cons in Hx as [? ?].
  rewrite filter_cons_True by done. f_equal. by apply IH.
Qed.

Module GoMapFacts.
Import GoMap.
Section facts.
Context {V : Type}.
Implicit Types (m : list (string * V)) (k : string) (v : V).

Lemma get_Some_elem m k v : get m k = Some v → (k, v) ∈ m.
Proof.
  induction m as [|[k' v'] m IH]; simpl; [done|].
  destruct (String.eqb_spec k k') as [->|Hne].
  - intros [= ->]. left.
  - intros H. right. by apply IH.
Qed.

Lemma get_is_Some m k : is_Some (get m k) ↔ k ∈ keys m.
Proof.
  unfold keys. induction m as [|[k' v'] m IH]; simpl.
  - split; [by intros [? ?] | intros H; inversion H].
  - destruct (String.eqb_spec k k') as [->|Hne].
    + split; [intros _; left | eauto].
    + rewrite IH. rewrite elem_of_cons. naive_solver.
Qed.

Lemma get_None m k : get m k = None ↔ k ∉ keys m.
Proof. rewrite <- get_is_Some, eq_None_not_Some. done. Qed.

Lemma elem_get m k v : NoDup (keys m) → (k, v) ∈ m → get m k = Some v.
Proof.
  unfold keys. induction m as [|[k' v'] m IH]; simpl.
  - intros _ H. inversion H.
  - intros [Hk' Hnd]%NoDup_cons [Heq|Hin]%elem_of_cons.
    + injection Heq as -> ->. by rewrite String.eqb_refl.
    + destruct (String.eqb_spec k k') as [->|Hne]; [|by apply IH].
      exfalso. apply Hk'. apply list_elem_of_fmap. by exists (k', v).
Qed.

Lemma keys_alter f m k : keys (alter f m k) = keys m.
Proof.
  unfold keys. induction m as [|[k' v'] m IH]; simpl; [done|].
  destruct (String.eqb k k'); csimpl; [done|]. by f_equal.
Qed.

Lemma get_alter f m k k' :
  get (alter f m k) k' = if decide (k = k') then f <$> get m k' else get m k'.
Proof.
  induction m as [|[k0 v0] m IH]; simpl.
  - by case_decide.
  - destruct (String.eqb_spec k k0) as [->|Hne]; simpl.
    + destruct (String.eqb_spec k' k0) as [->|Hne'].
      * by rewrite decide_True.
      * by rewrite decide_False.
    + destruct (String.eqb_spec k' k0) as [->|Hne'].
      * by rewrite decide_False.
      * apply IH.
Qed.

Lemma keys_set_elem m k v k' : k' ∈ keys (set m k v) ↔ k' = k ∨ k' ∈ keys m.
Proof.
  unfold keys. induction m as [|[k0 v0] m IH]; simpl.
  - rewrite elem_of_cons. naive_solver.
  - destruct (String.eqb_spec k k0) as [->|Hne]; simpl.
    + rewrite !elem_of_cons. naive_solver.
    + rewrite !elem_of_cons, IH. naive_solver.
Qed.

Lemma keys_set_NoDup m k v : NoDup (keys m) → NoDup (keys (set m k v)).
Proof.
  unfold keys. induction m as [|[k0 v0] m IH]; simpl.
  - intros _. apply NoDup_singleton.
  - intros [Hk0 Hnd]%NoDup_cons.
    destruct (String.eqb_spec k k0) as [->|Hne]; simpl.
    + by apply NoDup_cons.
    + apply NoDup_cons. split; [|by apply IH].
      intros Hin. apply (keys_set_elem m k v k0) in Hin. naive_solver.
Qed.

Lemma get_set m k v k' :
  get (set m k v) k' = if decide (k = k') then Some v else get m k'.
Proof.
  induction m as [|[k0 v0] m IH]; simpl.
  - destruct (String.eqb_spec k' k) as [->|Hne].
    + by rewrite decide_True.
    + by rewrite decide_False.
  - destruct (String.eqb_spec k k0) as [->|Hne]; simpl.
    + destruct (String.eqb_spec k' k0) as [->|Hne'].
      * by rewrite decide_True.
      * by rewrite decide_False.
    + destruct (String.eqb_spec k' k0) as [->|Hne'].
      * by rewrite decide_False.
      * apply IH.
Qed.
End facts.
End GoMapFacts.

(** ** Well-formed graphs *)

Lemma elem_of_key_add (m : list string) (k x : string) :
  x ∈ key_add m k ↔ x ∈ m ∨ x = k.
Proof.
  unfold key_add. destruct (StringContains m k) eqn:E.
  - apply StringContains_elem_of in E. naive_solver.
  - rewrite elem_of_app, list_elem_of_singleton. done.
Qed.

Lemma vertex_at_is_Some (g : Graph) (k : string) : is_Some (vertex_at g k) ↔ k ∈ keys g.
Proof. apply GoMapFacts.get_is_Some. Qed.

Lemma vertex_at_None (g : Graph) (k : string) : vertex_at g k = None ↔ k ∉ keys g.
Proof. apply GoMapFacts.get_None. Qed.

Lemma graph_wf_empty : graph_wf {| Vertices := [] |}.
Proof. split; [apply NoDup_nil_2 | done..]. Qed.

Lemma keys_AddVertex (g : Graph) (key service : string) (st : ServiceStatus) (k : string) :
  k ∈ keys (AddVertex g key service st) ↔ k = key ∨ k ∈ keys g.
Proof. apply GoMapFacts.keys_set_elem. Qed.

Lemma vertex_at_AddVertex (g : Graph) (key service : string) (st : ServiceStatus) (k : string) :
  vertex_at (AddVertex g key service st) k =
  if decide (key = k) then Some (NewVertex key service st) else vertex_at g k.
Proof. apply GoMapFacts.get_set. Qed.

Lemma AddVertex_wf (g : Graph) (key service : string) (st : ServiceStatus) :
  graph_wf g → graph_wf (AddVertex g key service st).
Proof.
  intros [Hnd Hk Hc Hp]. split.
  - by apply GoMapFacts.keys_set_NoDup.
  - intros k v. rewrite vertex_at_AddVertex. case_decide; [|by apply Hk].
    by intros [= <-].
  - intros k v. rewrite vertex_at_AddVertex. case_decide.
    + intros [= <-] x Hx. inversion Hx.
    + intros Hv x Hx. apply keys_AddVertex. right. by eapply Hc.
  - intros k v. rewrite vertex_at_AddVertex. case_decide.
    + intros [= <-] x Hx. inversion Hx.
    + intros Hv x Hx. apply keys_AddVertex. right. by eapply Hp.
Qed.

Lemma keys_AddEdge (g : Graph) (source destination : string) :
  keys (AddEdge g source destination).1 = keys g.
Proof.
  unfold AddEdge, keys.
  destruct (GoMap.get (Vertices g) source) as [sv|]; [|done].
  destruct (GoMap.get (Vertices g) destination) as [dv|]; [|done].
  destruct (StringContains (Children sv) destination); [done|]. simpl.
  by rewrite !GoMapFacts.keys_alter.
Qed.

(** The vertex stored under [k] after [AddEdge g source destination]. *)
Lemma vertex_at_AddEdge (g : Graph) (source destination k : string) (sv dv : Vertex) :
  vertex_at g source = Some sv → vertex_at g destination = Some dv →
  StringContains (Children sv) destination = false →
  vertex_at (AddEdge g source destination).1 k =
    (if decide (destination = k) then add_parent source else id) <$>
    ((if decide (source = k) then add_child destination else id) <$> vertex_at g k).
Proof.
  unfold vertex_at, AddEdge. intros -> -> ->. simpl.
  rewrite !GoMapFacts.get_alter.
  repeat case_decide; by destruct (GoMap.get (Vertices g) k).
Qed.

Lemma AddEdge_unknown_destination (g : Graph) (source destination : string) :
  source ∈ keys g → destination ∉ keys g →
  AddEdge g source destination = (g, Some (CouldNotFind destination)).
Proof.
  intros [sv Hs]%vertex_at_is_Some Hd%vertex_at_None.
  unfold AddEdge, vertex_at in *. by rewrite Hs, Hd.
Qed.

Lemma AddEdge_unknown_source (g : Graph) (source destination : string) :
  source ∉ keys g →
  AddEdge g source destination = (g, Some (CouldNotFind source)).
Proof.
  intros Hs%vertex_at_None. unfold AddEdge, vertex_at in *. by rewrite Hs.
Qed.

Lemma AddEdge_wf (g : Graph) (source destination : string) :
  graph_wf g → graph_wf (AddEdge g source destination).1.
Proof.
  intros Hwf.
  destruct (vertex_at g source) as [sv|] eqn:Hs; cycle 1.
  { unfold AddEdge, vertex_at in *. by rewrite Hs. }
  destruct (vertex_at g destination) as [dv|] eqn:Hd; cycle 1.
  { unfold AddEdge, vertex_at in *. by rewrite Hs, Hd. }
  destruct (StringContains (Children sv) destination) eqn:Hc.
  { unfold AddEdge, vertex_at in *. by rewrite Hs, Hd, Hc. }
  assert (Hsk : source ∈ keys g) by (apply vertex_at_is_Some; eauto).
  assert (Hdk : destination ∈ keys g) by (apply vertex_at_is_Some; eauto).
  destruct Hwf as [Hnd Hk Hch Hp]. split.
  - by rewrite keys_AddEdge.
  - intros k v. rewrite (vertex_at_AddEdge _ _ _ _ _ _ Hs Hd Hc).
    destruct (vertex_at g k) as [v0|] eqn:Hv0; [|done]. simpl.
    intros [= <-]. specialize (Hk _ _ Hv0). by repeat case_decide.
  - intros k v. rewrite (vertex_at_AddEdge _ _ _ _ _ _ Hs Hd Hc), keys_AddEdge.
    destruct (vertex_at g k) as [v0|] eqn:Hv0; [|done]. simpl.
    intros [= <-] x. specialize (Hch _ _ Hv0).
    repeat case_decide; simpl; rewrite ?elem_of_key_add; naive_solver.
  - intros k v. rewrite (vertex_at_AddEdge _ _ _ _ _ _ Hs Hd Hc), keys_AddEdge.
    destruct (vertex_at g k) as [v0|] eqn:Hv0; [|done]. simpl.
    intros [= <-] x. specialize (Hp _ _ Hv0).
    repeat case_decide; simpl; rewrite ?elem_of_key_add; naive_solver.
Qed.

Lemma keys_UpdateStatus (g g' : Graph) (key : string) (status : ServiceStatus) :
  UpdateStatus g key status = Ret g' → keys g' = keys g.
Proof.
  unfold UpdateStatus. destruct (GoMap.get (Vertices g) key); [|done].
  intros [= <-]. apply GoMapFacts.keys_alter.
Qed.

Lemma vertex_at_UpdateStatus (g g' : Graph) (key : string) (status : ServiceStatus) (k : string) :
  UpdateStatus g key status = Ret g' →
  vertex_at g' k = (if decide (key = k) then set_status status else id) <$> vertex_at g k.
Proof.
  unfold UpdateStatus, vertex_at. destruct (GoMap.get (Vertices g) key); [|done].
  intros [= <-]. simpl. rewrite GoMapFacts.get_alter.
  case_decide; [done|]. by destruct (GoMap.get (Vertices g) k).
Qed.

Lemma UpdateStatus_wf (g g' : Graph) (key : string) (status : ServiceStatus) :
  graph_wf g → UpdateStatus g key status = Ret g' → graph_wf g'.
Proof.
  intros [Hnd Hk Hch Hp] Hup. split.
  - by rewrite (keys_UpdateStatus _ _ _ _ Hup).
  - intros k v. rewrite (vertex_at_UpdateStatus _ _ _ _ _ Hup).
    destruct (vertex_at g k) as [v0|] eqn:Hv0; [|done]. simpl.
    intros [= <-]. specialize (Hk _ _ Hv0). by case_decide.
  - intros k v. rewrite (vertex_at_UpdateStatus _ _ _ _ _ Hup), (keys_UpdateStatus _ _ _ _ Hup).
    destruct (vertex_at g k) as [v0|] eqn:Hv0; [|done]. simpl.
    intros [= <-]. specialize (Hch _ _ Hv0). by case_decide.
  - intros k v. rewrite (vertex_at_UpdateStatus _ _ _ _ _ Hup), (keys_UpdateStatus _ _ _ _ Hup).
    destruct (vertex_at g k) as [v0|] eqn:Hv0; [|done]. simpl.
    intros [= <-]. specialize (Hp _ _ Hv0). by case_decide.
Qed.


Lemma subset_b_sound (l k : list string) : subset_b l k = true → l ⊆ k.
Proof.
  unfold subset_b. rewrite forallb_forall. intros H x Hx.
  apply StringContains_elem_of, H. by apply list_elem_of_In.
Qed.

Lemma graph_wfb_sound (g : Graph) : graph_wfb g = true → graph_wf g.
Proof.
  unfold graph_wfb. intros [Hnd Hall]%andb_prop.
  apply bool_decide_eq_true in Hnd. rewrite forallb_forall in Hall.
  assert (Hv : ∀ k v, vertex_at g k = Some v →
            Key v = k ∧ Children v ⊆ keys g ∧ Parents v ⊆ keys g).
  { intros k v Hkv. apply GoMapFacts.get_Some_elem, list_elem_of_In, Hall in Hkv.
    simpl in Hkv. apply andb_prop in Hkv as [[Hk Hc]%andb_prop Hp].
    apply String.eqb_eq in Hk. eauto using subset_b_sound. }
  split; [done|..]; intros k v Hkv; by apply Hv in Hkv as (? & ? & ?).
Qed.

(** ** The status operations *)


Lemma filter_status_Ret (g : Graph) (status : ServiceStatus) (adjacent : list string) :
  adjacent ⊆ keys g →
  filter_status g status adjacent =
    Ret (filter (λ a, status_at g a = Some status) adjacent).
Proof.
  induction adjacent as [|a rest IH]; [done|]. intros Hsub. simpl.
  assert (Ha : a ∈ keys g) by (apply Hsub; left).
  apply vertex_at_is_Some in Ha as [v Hv].
  unfold vertex_at in Hv. rewrite Hv, IH by (intros x Hx; apply Hsub; by right).
  unfold status_eqb, status_at, vertex_at. f_equal.
  case_bool_decide as Hst.
  - rewrite filter_cons_True; [done|]. rewrite Hv. simpl. by f_equal.
  - rewrite filter_cons_False; [done|]. rewrite Hv. simpl. naive_solver.
Qed.

Lemma FilterChildren_Ret (g : Graph) (key : string) (status : ServiceStatus) (v : Vertex) :
  graph_wf g → vertex_at g key = Some v →
  FilterChildren g key status =
    Ret (filter (λ a, status_at g a = Some status) (Children v)).
Proof.
  intros Hwf Hv. unfold FilterChildren. unfold vertex_at in Hv. rewrite Hv.
  apply filter_status_Ret. by eapply wf_children.
Qed.

Lemma FilterParents_Ret (g : Graph) (key : string) (status : ServiceStatus) (v : Vertex) :
  graph_wf g → vertex_at g key = Some v →
  FilterParents g key status =
    Ret (filter (λ a, status_at g a = Some status) (Parents v)).
Proof.
  intros Hwf Hv. unfold FilterParents. unfold vertex_at in Hv. rewrite Hv.
  apply filter_status_Ret. by eapply wf_parents.
Qed.

(** C8. [UpdateStatus], [FilterChildren] and [FilterParents] dereference
    the vertex found under the key without a presence check: on a graph
    made by the constructors they return for every key of
    [Graph.Vertices], and they panic on a nil vertex for every other
    key. *)
Theorem status_operations_partial (g : Graph) (key : string) (status : ServiceStatus) :
  graph_wf g →
  (key ∈ keys g →
     (∃ g', UpdateStatus g key status = Ret g')
     ∧ (∃ res, FilterChildren g key status = Ret res)
     ∧ (∃ res, FilterParents g key status = Ret res))
  ∧ (key ∉ keys g →
     UpdateStatus g key status = Panic
     ∧ FilterChildren g key status = Panic
     ∧ FilterParents g key status = Panic).
Proof.
  intros Hwf. split.
  - intros [v Hv]%vertex_at_is_Some. split_and!.
    + unfold UpdateStatus. unfold vertex_at in Hv. rewrite Hv. eauto.
    + rewrite (FilterChildren_Ret _ _ _ _ Hwf Hv). eauto.
    + rewrite (FilterParents_Ret _ _ _ _ Hwf Hv). eauto.
  - intros Hv%vertex_at_None. unfold vertex_at in Hv.
    unfold UpdateStatus, FilterChildren, FilterParents. by rewrite Hv.
Qed.

(** ** Construction: vertices and edges *)


Lemma keys_add_vertices (services : list ServiceConfig) (st : ServiceStatus) (g : Graph) (k : string) :
  k ∈ keys (add_vertices services st g) ↔ k ∈ keys g ∨ k ∈ names services.
Proof.
  unfold add_vertices, names. revert g.
  induction services as [|s services IH]; intros g; simpl.
  - rewrite elem_of_nil. naive_solver.
  - rewrite IH, keys_AddVertex. csimpl. rewrite elem_of_cons. naive_solver.
Qed.

Lemma add_vertices_wf (services : list ServiceConfig) (st : ServiceStatus) (g : Graph) :
  graph_wf g → graph_wf (add_vertices services st g).
Proof.
  unfold add_vertices. revert g.
  induction services as [|s services IH]; intros g Hwf; simpl; [done|].
  by apply IH, AddVertex_wf.
Qed.

Lemma add_vertices_names (services services' : list ServiceConfig) (st : ServiceStatus) (g : Graph) :
  names services = names services' →
  add_vertices services st g = add_vertices services' st g.
Proof.
  unfold add_vertices, names. revert services' g.
  induction services as [|s services IH]; intros [|s' services'] g; csimpl; try done.
  intros [= Hs Hrest]. rewrite Hs. by apply IH.
Qed.

Lemma names_known_only (services : list ServiceConfig) :
  names (known_only services) = names services.
Proof.
  unfold names, known_only. rewrite <- list_fmap_compose. by apply list_fmap_ext.
Qed.

Lemma keys_add_edges_of (s : ServiceConfig) (g : Graph) :
  keys (add_edges_of s g) = keys g.
Proof.
  unfold add_edges_of. generalize (GetDependencies s) as deps. intros deps. revert g.
  induction deps as [|d deps IH]; intros g; simpl; [done|].
  by rewrite IH, keys_AddEdge.
Qed.

Lemma keys_add_edges (services : list ServiceConfig) (g : Graph) :
  keys (add_edges services g) = keys g.
Proof.
  unfold add_edges. revert g.
  induction services as [|s services IH]; intros g; simpl; [done|].
  by rewrite IH, keys_add_edges_of.
Qed.

Lemma add_edges_of_wf (s : ServiceConfig) (g : Graph) :
  graph_wf g → graph_wf (add_edges_of s g).
Proof.
  unfold add_edges_of. generalize (GetDependencies s) as deps. intros deps. revert g.
  induction deps as [|d deps IH]; intros g Hwf; simpl; [done|].
  by apply IH, AddEdge_wf.
Qed.

Lemma add_edges_wf (services : list ServiceConfig) (g : Graph) :
  graph_wf g → graph_wf (add_edges services g).
Proof.
  unfold add_edges. revert g.
  induction services as [|s services IH]; intros g Hwf; simpl; [done|].
  by apply IH, add_edges_of_wf.
Qed.

(** An edge to a name that is not a vertex leaves the graph as it is:
    the loop over the dependencies may as well skip it. *)
Lemma add_edges_of_known (known : list string) (name : string) (deps : list string) (g : Graph) :
  (∀ k, k ∈ keys g ↔ k ∈ known) →
  foldl (λ g d, (AddEdge g name d).1) g deps =
  foldl (λ g d, (AddEdge g name d).1) g (filter (λ d, d ∈ known) deps).
Proof.
  revert g. induction deps as [|d deps IH]; intros g Hkeys; [done|].
  destruct (decide (d ∈ known)) as [Hd|Hd].
  - rewrite filter_cons_True by done. simpl. apply IH.
    intros k. by rewrite keys_AddEdge.
  - rewrite filter_cons_False by done. simpl.
    assert (Hsame : (AddEdge g name d).1 = g).
    { destruct (decide (name ∈ keys g)) as [Hn|Hn].
      - rewrite AddEdge_unknown_destination; [done..|]. by rewrite Hkeys.
      - by rewrite AddEdge_unknown_source. }
    rewrite Hsame. by apply IH.
Qed.

Lemma add_edges_known (known : list string) (services : list ServiceConfig) (g : Graph) :
  (∀ k, k ∈ keys g ↔ k ∈ known) →
  add_edges services g =
  add_edges ((λ s, {| Name := Name s;
                      GetDependencies := filter (λ d, d ∈ known) (GetDependencies s) |})
             <$> services) g.
Proof.
  unfold add_edges. revert g.
  induction services as [|s services IH]; intros g Hkeys; [done|]. csimpl.
  assert (Hs : add_edges_of s g =
               add_edges_of {| Name := Name s;
                 GetDependencies := filter (λ d, d ∈ known) (GetDependencies s) |} g).
  { unfold add_edges_of. simpl. by apply add_edges_of_known. }
  rewrite <- Hs. apply IH. intros k. by rewrite keys_add_edges_of.
Qed.

Lemma NewGraph_known_only (services : list ServiceConfig) (st : ServiceStatus) :
  NewGraph services st = NewGraph (known_only services) st.
Proof.
  unfold NewGraph.
  rewrite <- (add_vertices_names services (known_only services))
    by (by rewrite names_known_only).
  rewrite (add_edges_known (names services) services); [done|].
  intros k. rewrite keys_add_vertices. simpl. rewrite elem_of_nil. naive_solver.
Qed.

(** ** Walks and cycles *)


Lemma walk_snoc R (p : list string) (x y : string) :
  walk R p → last p = Some x → R x y → walk R (p ++ [y]).
Proof.
  induction 1 as [z|z z' p Hzz' Hw IH]; simpl.
  - intros [= ->] HR. constructor; [done | constructor].
  - intros Hlast HR. constructor; [done|]. by apply IH.
Qed.

Lemma walk_app_r R (p q : list string) : q ≠ [] → walk R (p ++ q) → walk R q.
Proof.
  intros Hq. induction p as [|x p IH]; [done|]. simpl. intros Hw.
  apply IH. inversion Hw as [z Hz|z z' p' Hzz' Hw' Hz]; subst.
  - by destruct p, q.
  - done.
Qed.

Lemma walk_impl (R R' : string → string → Prop) (p : list string) :
  (∀ x y, R x y → R' x y) → walk R p → walk R' p.
Proof. intros HR. induction 1; constructor; auto. Qed.

Lemma walk_tc R (x y : string) (p : list string) :
  walk R (x :: p ++ [y]) → tc R x y.
Proof.
  revert x. induction p as [|z p IH]; intros x; simpl.
  - inversion 1; subst. by apply tc_once.
  - inversion 1; subst. eapply tc_l; [done|]. by apply IH.
Qed.

Lemma sn_tc_irrefl R (x : string) : sn R x → ¬ tc R x x.
Proof.
  induction 1 as [x _ IH]. intros Htc.
  assert (∃ y, R x y ∧ rtc R y x) as (y & Hxy & Hyx).
  { inversion Htc; subst; [by eexists | eauto using tc_rtc]. }
  apply (IH y Hxy). eapply tc_rtc_l; [done|]. by apply tc_once.
Qed.

Lemma cycle_tc R (p : list string) :
  cycle R p → ∃ x, x ∈ p ∧ tc R x x.
Proof.
  intros (Hw & Hlen & Hhl).
  destruct p as [|x p]; [simpl in Hlen; lia|].
  destruct (last_Some (x :: p) x) as [[q Hq] _]; [by rewrite <- Hhl|].
  destruct q as [|x' q]; [destruct p; [simpl in Hlen; lia | done]|].
  injection Hq as <- ->. exists x. split; [left|]. by eapply walk_tc.
Qed.

Lemma closes_cycle R (p : list string) :
  walk R p → closes p → ∃ pre cyc, p = pre ++ cyc ∧ cycle R cyc.
Proof.
  intros Hw (pre & x & mid & ->). exists pre, (x :: mid ++ [x]). split; [done|].
  split_and!.
  - by eapply walk_app_r.
  - simpl. rewrite length_app. simpl. lia.
  - change (Some x = last ((x :: mid) ++ [x])). by rewrite last_snoc.
Qed.


(** ** [visit] and [HasCycles] *)

Section cycle_detection.
Variable g : Graph.
Hypothesis Hwf : graph_wf g.

(** No walk from [x] goes on for ever. *)
Local Abbreviation finite_below x := (sn (gedge g) x).


Lemma visit_children_spec (fuel : nat) (key : string) (path discovered finished children : list string) :
  (∀ k p d f, visit_pre g fuel k p d f →
     (visit fuel g k p d f = Ret (d, f ++ [k], None) ∧ finite_below k)
     ∨ cycle_reported g (visit fuel g k p d f)) →
  NoDup discovered → discovered ⊆ keys g →
  length (keys g) < fuel + length discovered →
  (∀ x, x ∈ finished → finite_below x) →
  walk (gedge g) path → last path = Some key → discovered ⊆ path →
  (∀ c, c ∈ children → gedge g key c) →
  (visit_children (visit fuel g) children path discovered finished = None
     ∧ ∀ c, c ∈ children → finite_below c)
  ∨ (∃ o, visit_children (visit fuel g) children path discovered finished = Some o
       ∧ cycle_reported g o).
Proof.
  intros IHfuel Hnd Hknown Hfuel Hfin Hwalk Hlast Hpath.
  induction children as [|c children IH]; intros Hedge; simpl.
  { left. split; [done|]. intros c Hc. inversion Hc. }
  assert (Hc : gedge g key c) by (apply Hedge; left).
  assert (Hwalk' : walk (gedge g) (path ++ [c])) by by eapply walk_snoc.
  specialize (IH ltac:(intros; apply Hedge; by right)).
  destruct (StringContains discovered c) eqn:Hdisc.
  { right. eexists. split; [done|]. eexists. split_and!; [done..|].
    apply StringContains_elem_of, Hpath, list_elem_of_split in Hdisc
      as (pre & mid & ->).
    exists pre, c, mid. by rewrite <- app_assoc. }
  apply StringContains_false in Hdisc.
  destruct (StringContains finished c) eqn:Hfinc; simpl.
  { destruct IH as [[Hnone Hrest]|Hsome]; [left|by right].
    split; [done|]. intros c' [->|?]%elem_of_cons; [|by apply Hrest].
    by apply Hfin, StringContains_elem_of. }
  destruct (IHfuel c (path ++ [c]) discovered finished) as [[-> Hbelow]|Hcyc].
  - destruct Hc as (v & Hv & Hcv). split; try done.
    + by eapply wf_children.
    + apply last_snoc.
    + intros x Hx. apply elem_of_app. left. by apply Hpath.
  - destruct IH as [[Hnone Hrest]|Hsome]; [left|by right].
    split; [done|]. by intros c' [->|?]%elem_of_cons; [|apply Hrest].
  - right. destruct Hcyc as (p & -> & ?). eexists. split; [done|].
    by exists p.
Qed.

Lemma visit_spec (fuel : nat) (key : string) (path discovered finished : list string) :
  visit_pre g fuel key path discovered finished →
  (visit fuel g key path discovered finished = Ret (discovered, finished ++ [key], None)
     ∧ finite_below key)
  ∨ cycle_reported g (visit fuel g key path discovered finished).
Proof.
  revert key path discovered finished.
  induction fuel as [|fuel IH]; intros key path discovered finished Hpre.
  { destruct Hpre. exfalso.
    assert (length discovered ≤ length (keys g))%nat; [|simpl in *; lia].
    by apply submseteq_length, NoDup_submseteq. }
  destruct Hpre as [Hkey Hnd Hknown Hfresh Hfuel Hfin Hwalk Hlast Hpath].
  apply vertex_at_is_Some in Hkey as Hv. destruct Hv as [v Hv].
  simpl. unfold vertex_at in Hv. rewrite Hv.
  destruct (visit_children_spec fuel key path (discovered ++ [key]) finished
              (Children v)) as [[-> Hbelow]|(o & -> & Hcyc)]; try done.
  - apply NoDup_app. split_and!; [done| |apply NoDup_singleton].
    intros x Hx ->%list_elem_of_singleton. done.
  - intros x [?| ->%list_elem_of_singleton]%elem_of_app; [by apply Hknown|done].
  - rewrite length_app. simpl. lia.
  - intros x [?| ->%list_elem_of_singleton]%elem_of_app; [by apply Hpath|].
    by apply last_Some_elem_of.
  - intros c Hc. by exists v.
  - left. rewrite remove_fresh by done. split; [done|].
    constructor. intros c (v' & Hv' & Hc). unfold vertex_at in Hv'.
    rewrite Hv in Hv'. injection Hv' as <-. by apply Hbelow.
  - by right.
Qed.

Lemma has_cycles_loop_spec (fuel : nat) (vertices : list (string * Vertex)) (finished : list string) :
  (length (keys g) < fuel)%nat →
  vertices ⊆ Vertices g →
  (∀ x, x ∈ finished → finite_below x) →
  (has_cycles_loop fuel g vertices [] finished = Ret (false, None)
     ∧ ∀ kv, kv ∈ vertices → finite_below kv.1)
  ∨ (∃ p, has_cycles_loop fuel g vertices [] finished = Ret (true, Some (CycleFound p))
       ∧ walk (gedge g) p ∧ closes p).
Proof.
  intros Hfuel. revert finished.
  induction vertices as [|[k v] vertices IH]; intros finished Hsub Hfin; simpl.
  { left. split; [done|]. intros kv Hkv. inversion Hkv. }
  assert (Hkv : vertex_at g k = Some v).
  { apply GoMapFacts.elem_get; [apply Hwf|]. apply Hsub. left. }
  assert (Hk : Key v = k) by by eapply wf_key.
  assert (Hrest : vertices ⊆ Vertices g) by (intros x Hx; apply Hsub; by right).
  rewrite Hk.
  destruct (StringContains finished k) eqn:Hfink; simpl.
  { destruct (IH finished Hrest Hfin) as [[-> Hall]|Hcyc]; [left|by right].
    split; [done|]. intros kv [->|?]%elem_of_cons; [|by apply Hall].
    by apply Hfin, StringContains_elem_of. }
  destruct (visit_spec fuel k [k] [] finished) as [[-> Hbelow]|(p & -> & Hcyc)].
  - split; try done.
    + apply vertex_at_is_Some. eauto.
    + apply NoDup_nil_2.
    + intros x Hx. inversion Hx.
    + intros Hx. inversion Hx.
    + simpl. lia.
    + constructor.
    + intros x Hx. inversion Hx.
  - destruct (IH (finished ++ [k]) Hrest) as [[-> Hall]|Hcyc]; [|left|by right].
    + intros x [?| ->%list_elem_of_singleton]%elem_of_app; [by apply Hfin|done].
    + split; [done|]. by intros kv [->|?]%elem_of_cons; [|apply Hall].
  - right. by exists p.
Qed.

(** [HasCycles] always returns; when it answers [false] no walk in
    the graph goes on for ever, and when it answers [true] the error
    names a walk whose last key occurs earlier in it. *)
Lemma HasCycles_spec :
  (HasCycles g = Ret (false, None) ∧ ∀ k, k ∈ keys g → finite_below k)
  ∨ (∃ p, HasCycles g = Ret (true, Some (CycleFound p))
       ∧ walk (gedge g) p ∧ closes p).
Proof.
  unfold HasCycles.
  destruct (has_cycles_loop_spec (S (length (Vertices g))) (Vertices g) [])
    as [[-> Hall]|Hcyc]; [| done | | left | by right].
  - unfold keys, GoMap.keys. rewrite length_fmap. lia.
  - intros x Hx. inversion Hx.
  - split; [done|]. intros k [[k' v] [-> Hkv]]%list_elem_of_fmap. by apply Hall.
Qed.

Lemma HasCycles_false_acyclic :
  HasCycles g = Ret (false, None) → ∀ p, ¬ cycle (gedge g) p.
Proof.
  intros Hfalse p Hp.
  destruct HasCycles_spec as [[_ Hall]|(q & Hq & _)]; [|congruence].
  destruct (cycle_tc _ _ Hp) as (x & Hx & Htc).
  apply (sn_tc_irrefl (gedge g) x); [|done].
  apply Hall. assert (∃ y, gedge g x y) as (y & v & Hv & _).
  { inversion Htc; subst; eauto. }
  apply vertex_at_is_Some. eauto.
Qed.
End cycle_detection.

(** ** The edges of the constructed graph *)


Lemma gedge_AddEdge (g : Graph) (source destination a b : string) :
  gedge (AddEdge g source destination).1 a b ↔
  gedge g a b ∨ (a = source ∧ b = destination ∧ source ∈ keys g ∧ destination ∈ keys g).
Proof.
  destruct (vertex_at g source) as [sv|] eqn:Hs; cycle 1.
  { apply vertex_at_None in Hs as Hs'. rewrite AddEdge_unknown_source by done.
    simpl. naive_solver. }
  assert (Hsk : source ∈ keys g) by (apply vertex_at_is_Some; eauto).
  destruct (vertex_at g destination) as [dv|] eqn:Hd; cycle 1.
  { apply vertex_at_None in Hd as Hd'. rewrite AddEdge_unknown_destination by done.
    simpl. naive_solver. }
  assert (Hdk : destination ∈ keys g) by (apply vertex_at_is_Some; eauto).
  destruct (StringContains (Children sv) destination) eqn:Hc.
  { assert (Hsame : AddEdge g source destination = (g, None)).
    { unfold AddEdge, vertex_at in *. by rewrite Hs, Hd, Hc. }
    rewrite Hsame. simpl. split; [by left|]. intros [?|(-> & -> & _)]; [done|].
    exists sv. split; [done|]. by apply StringContains_elem_of. }
  unfold gedge. rewrite (vertex_at_AddEdge _ _ _ _ _ _ Hs Hd Hc). split.
  - intros (v & Hv & Hb). destruct (vertex_at g a) as [v0|] eqn:Hv0; [|done].
    simpl in Hv. injection Hv as <-.
    assert (Hb' : b ∈ Children ((if decide (source = a) then add_child destination else id) v0)).
    { by destruct (decide (destination = a)). }
    destruct (decide (source = a)) as [->|Hne]; simpl in Hb'.
    + apply elem_of_key_add in Hb' as [?| ->]; [left; eauto | by right].
    + left. eauto.
  - intros [(v & Hv & Hb)|(-> & -> & _)].
    + rewrite Hv. simpl. eexists. split; [done|].
      repeat case_decide; simpl; rewrite ?elem_of_key_add; auto.
    + rewrite Hs. simpl. eexists. split; [done|].
      destruct (decide (source = source)); [|done].
      case_decide; simpl; rewrite ?elem_of_key_add; auto.
Qed.

Lemma gedge_add_edges_of (s : ServiceConfig) (g : Graph) (a b : string) :
  gedge (add_edges_of s g) a b ↔
  gedge g a b ∨ (a = Name s ∧ b ∈ GetDependencies s ∧ a ∈ keys g ∧ b ∈ keys g).
Proof.
  unfold add_edges_of. generalize (GetDependencies s) as deps. intros deps. revert g.
  induction deps as [|d deps IH]; intros g; simpl.
  - rewrite elem_of_nil. naive_solver.
  - rewrite IH, gedge_AddEdge, keys_AddEdge, elem_of_cons. naive_solver.
Qed.

Lemma gedge_add_edges (services : list ServiceConfig) (g : Graph) (a b : string) :
  gedge (add_edges services g) a b ↔
  gedge g a b ∨ (dep_edge services a b ∧ a ∈ keys g ∧ b ∈ keys g).
Proof.
  unfold add_edges, dep_edge. revert g.
  induction services as [|s services IH]; intros g; simpl.
  - setoid_rewrite elem_of_nil. naive_solver.
  - rewrite IH, gedge_add_edges_of, keys_add_edges_of.
    setoid_rewrite elem_of_cons. naive_solver.
Qed.

Lemma add_vertices_no_edge (services : list ServiceConfig) (st : ServiceStatus) (g : Graph) :
  (∀ a b, ¬ gedge g a b) → ∀ a b, ¬ gedge (add_vertices services st g) a b.
Proof.
  unfold add_vertices. revert g.
  induction services as [|s services IH]; intros g Hg; simpl; [done|].
  apply IH. intros a b (v & Hv & Hb). rewrite vertex_at_AddVertex in Hv.
  case_decide.
  - injection Hv as <-. inversion Hb.
  - apply (Hg a b). by exists v.
Qed.

Lemma keys_built (services : list ServiceConfig) (st : ServiceStatus) (k : string) :
  k ∈ keys (built services st) ↔ k ∈ names services.
Proof.
  unfold built. rewrite keys_add_edges, keys_add_vertices. simpl.
  rewrite elem_of_nil. naive_solver.
Qed.

Lemma gedge_built (services : list ServiceConfig) (st : ServiceStatus) (a b : string) :
  gedge (built services st) a b ↔ dep_edge services a b ∧ b ∈ names services.
Proof.
  unfold built. rewrite gedge_add_edges, !keys_add_vertices. simpl.
  rewrite !elem_of_nil. split.
  - intros [Hg|?]; [|naive_solver].
    exfalso. eapply add_vertices_no_edge; [|done]. by intros ?? (? & ? & ?).
  - intros [Hd Hb]. right. split_and!; [done| |by right].
    right. destruct Hd as (s & Hs & <- & _). by apply list_elem_of_fmap_2.
Qed.

Lemma built_wf (services : list ServiceConfig) (st : ServiceStatus) :
  graph_wf (built services st).
Proof. apply add_edges_wf, add_vertices_wf, graph_wf_empty. Qed.

(** [NewGraph] returns the graph, or no graph and a cycle error; it
    neither panics nor exhausts the recursion bound. *)
Lemma NewGraph_total (services : list ServiceConfig) (st : ServiceStatus) :
  (NewGraph services st = Ret (Some (built services st), None)
     ∧ ∀ p, ¬ cycle (gedge (built services st)) p)
  ∨ (∃ p, NewGraph services st = Ret (None, Some (CycleFound p))
       ∧ walk (gedge (built services st)) p ∧ closes p).
Proof.
  unfold NewGraph. fold (built services st).
  destruct (HasCycles_spec _ (built_wf services st)) as [[Hf Hall]|(p & Hp & ?)].
  - left. split; [by rewrite Hf|]. by apply HasCycles_false_acyclic, Hf; apply built_wf.
  - right. exists p. by rewrite Hp.
Qed.

Lemma walk_successor R (p : list string) (x : string) :
  walk R p → x ∈ p → (∃ y, R x y) ∨ last p = Some x.
Proof.
  induction 1 as [z|z z' p Hzz' Hw IH].
  - intros ->%list_elem_of_singleton. by right.
  - intros [->|Hx]%elem_of_cons; [by eauto|].
    destruct (IH Hx) as [?|Hl]; [by left|]. by right.
Qed.

Lemma cycle_successor R (p : list string) (x : string) :
  cycle R p → x ∈ p → ∃ y, R x y.
Proof.
  intros (Hw & Hlen & Hhl) Hx.
  destruct (walk_successor _ _ _ Hw Hx) as [?|Hl]; [done|].
  rewrite <- Hhl in Hl. inversion Hw; subst; simpl in *; [lia|].
  injection Hl as <-. eauto.
Qed.

Lemma walk_impl_elem (R R' : string → string → Prop) (p : list string) :
  (∀ x y, x ∈ p → y ∈ p → R x y → R' x y) → walk R p → walk R' p.
Proof.
  intros HR Hw. induction Hw as [z|z z' p Hzz' Hw IH]; constructor.
  - apply HR; [left | right; left | done].
  - apply IH. intros x y Hx Hy. apply HR; by right.
Qed.

(** ** Unknown dependencies (C1) *)

(** C1, as stated, fails: service [A] declares the dependency [Z], no
    service is named [Z], and [NewGraph] returns the graph with the
    single vertex [A] and a nil error. *)
Lemma NewGraph_unknown_dependency_accepted :
  unknown_dependency [svc "A" ["Z"]]
  ∧ NewGraph [svc "A" ["Z"]] ServiceStopped
    = Ret (Some {| Vertices := [("A", NewVertex "A" "A" ServiceStopped)] |}, None)
  ∧ ¬ ∃ e, NewGraph [svc "A" ["Z"]] ServiceStopped = Ret (None, Some e).
Proof.
  split_and!.
  - exists (svc "A" ["Z"]), "Z". split_and!; [left | left |].
    by intros [= ]%list_elem_of_singleton.
  - reflexivity.
  - by intros [e [= ]].
Qed.

(** C1, amended.  For a dependency that names no service, [AddEdge]
    returns the error [could not find <name>] and leaves the graph as it
    is; [NewGraph] drops that error, so the construction goes on as if
    the dependency had not been declared: its result is that for the
    list without such dependencies, which is a graph without the edge or
    a cycle error. *)
Theorem NewGraph_unknown_dependency_dropped
    (services : list ServiceConfig) (st : ServiceStatus) (s : ServiceConfig) (name : string) :
  s ∈ services → name ∈ GetDependencies s → name ∉ names services →
  (∀ g, (∀ k, k ∈ keys g ↔ k ∈ names services) →
     AddEdge g (Name s) name = (g, Some (CouldNotFind name)))
  ∧ Error (CouldNotFind name) = "could not find " +:+ name
  ∧ NewGraph services st = NewGraph (known_only services) st
  ∧ ((∃ g, NewGraph services st = Ret (Some g, None) ∧ ¬ gedge g (Name s) name)
     ∨ (∃ p, NewGraph services st = Ret (None, Some (CycleFound p)))).
Proof.
  intros Hs Hname Hunknown. split_and!.
  - intros g Hkeys. apply AddEdge_unknown_destination.
    + apply Hkeys. by apply list_elem_of_fmap_2.
    + by rewrite Hkeys.
  - done.
  - apply NewGraph_known_only.
  - destruct (NewGraph_total services st) as [[Hg _]|(p & Hp & _)].
    + left. eexists. split; [done|]. by intros [_ ?]%gedge_built.
    + right. by exists p.
Qed.

Lemma NewGraph_unknown_dependency_dropped_witness :
  let services := [svc "A" ["Z"]] in
  (∀ g, (∀ k, k ∈ keys g ↔ k ∈ names services) →
     AddEdge g "A" "Z" = (g, Some (CouldNotFind "Z")))
  ∧ Error (CouldNotFind "Z") = "could not find Z"
  ∧ NewGraph services ServiceStopped = NewGraph (known_only services) ServiceStopped
  ∧ ((∃ g, NewGraph services ServiceStopped = Ret (Some g, None) ∧ ¬ gedge g "A" "Z")
     ∨ (∃ p, NewGraph services ServiceStopped = Ret (None, Some (CycleFound p)))).
Proof.
  intros services.
  apply (NewGraph_unknown_dependency_dropped services ServiceStopped (svc "A" ["Z"]) "Z").
  - left.
  - left.
  - by intros [= ]%list_elem_of_singleton.
Defined.

(** ** Cycles (C3) *)

(** C3, as stated, fails: [R] depends on [A], [A] on [B] and [B] on
    [A]; when the vertices are enumerated from [R] the error names the
    walk [R -> A -> B -> A], whose first and last keys differ. *)
Lemma NewGraph_cycle_path_not_closed :
  cycle (dep_edge lasso) ["A"; "B"; "A"]
  ∧ NewGraph lasso ServiceStopped = Ret (None, Some (CycleFound ["R"; "A"; "B"; "A"]))
  ∧ Error (CycleFound ["R"; "A"; "B"; "A"]) = "cycle found: R -> A -> B -> A"
  ∧ ¬ ∃ path, NewGraph lasso ServiceStopped = Ret (None, Some (CycleFound path))
              ∧ head path = last path.
Proof.
  split_and!.
  - split_and!; [|simpl; lia|done].
    constructor; [|constructor; [|constructor]].
    + exists (svc "A" ["B"]). split_and!; [right; left | done | left].
    + exists (svc "B" ["A"]). split_and!; [right; right; left | done | left].
  - reflexivity.
  - reflexivity.
  - intros (path & Hpath & Hclosed). injection Hpath as <-. discriminate Hclosed.
Qed.

(** C3, amended.  For every input whose dependencies contain a directed
    cycle, [NewGraph] returns no graph and the error
    [cycle found: k0 -> k1 -> ... -> kn]; consecutive keys of the
    sequence are declared dependencies; the sequence starts at the
    vertex the search started from and ends with a cycle: it is a prefix
    followed by a closed walk of the dependencies. *)
Theorem NewGraph_cycle_reported (services : list ServiceConfig) (st : ServiceStatus) :
  (∃ p, cycle (dep_edge services) p) →
  ∃ path,
    NewGraph services st = Ret (None, Some (CycleFound path))
    ∧ Error (CycleFound path) = "cycle found: " +:+ String.concat " -> " path
    ∧ walk (dep_edge services) path
    ∧ ∃ pre cyc, path = pre ++ cyc ∧ cycle (dep_edge services) cyc.
Proof.
  intros [p Hp].
  assert (Hto : ∀ a b, gedge (built services st) a b → dep_edge services a b).
  { by intros a b [? _]%gedge_built. }
  destruct (NewGraph_total services st) as [[_ Hnone]|(path & Hpath & Hw & Hcl)].
  - exfalso. apply (Hnone p). destruct Hp as (Hw & Hlen & Hhl).
    split_and!; [|done..].
    apply (walk_impl_elem (dep_edge services)); [|done].
    intros x y _ Hy Hxy. apply gedge_built. split; [done|].
    destruct (cycle_successor (dep_edge services) p y) as (z & s & Hs & <- & _); [done..|].
    by apply list_elem_of_fmap_2.
  - exists path. split_and!; [done..| |].
    + by eapply walk_impl.
    + destruct (closes_cycle _ _ Hw Hcl) as (pre & cyc & -> & Hcw & Hlen & Hhl).
      exists pre, cyc. split; [done|]. split_and!; [|done..]. by eapply walk_impl.
Qed.

Lemma NewGraph_cycle_reported_witness :
  ∃ path,
    NewGraph lasso ServiceStopped = Ret (None, Some (CycleFound path))
    ∧ Error (CycleFound path) = "cycle found: " +:+ String.concat " -> " path
    ∧ walk (dep_edge lasso) path
    ∧ ∃ pre cyc, path = pre ++ cyc ∧ cycle (dep_edge lasso) cyc.
Proof.
  apply (NewGraph_cycle_reported lasso ServiceStopped).
  exists ["A"; "B"; "A"]. split_and!; [|simpl; lia|reflexivity].
  constructor; [|constructor; [|constructor]].
  - exists (svc "A" ["B"]). split_and!; [right; left | reflexivity | left].
  - exists (svc "B" ["A"]). split_and!; [right; right; left | reflexivity | left].
Defined.

(** ** The status operations on a given graph (C8) *)

Lemma status_operations_partial_witness :
  let g := built diamond ServiceStopped in
  ("A" ∈ keys g →
     (∃ g', UpdateStatus g "A" ServiceStarted = Ret g')
     ∧ (∃ res, FilterChildren g "A" ServiceStarted = Ret res)
     ∧ (∃ res, FilterParents g "A" ServiceStarted = Ret res))
  ∧ ("A" ∉ keys g →
     UpdateStatus g "A" ServiceStarted = Panic
     ∧ FilterChildren g "A" ServiceStarted = Panic
     ∧ FilterParents g "A" ServiceStarted = Panic).
Proof.
  intros g. apply (status_operations_partial g "A" ServiceStarted).
  apply graph_wfb_sound. vm_compute. reflexivity.
Defined.


(** * The watcher *)

Module WatcherFacts.
Import Watcher.

Section facts.
Variable ServiceLabel ContainerReplaceLabel : string.
Variable getContainerNameWithoutProject : Container → string.
Variable onStart onRecreate : Container → Z → option error.

Local Abbreviation consumer :=
  (consumer ServiceLabel ContainerReplaceLabel getContainerNameWithoutProject
     onStart onRecreate).
Local Abbreviation watchContainers :=
  (watchContainers ServiceLabel ContainerReplaceLabel getContainerNameWithoutProject
     onStart onRecreate).

Lemma seed_expected (required : list string) (containers : list Container) (st : state) :
  expected (seed ServiceLabel required containers st)
  = expected st
    ++ (ID <$> filter (λ c, label (Labels c) ServiceLabel ∈ required) containers).
Proof.
  revert st. induction containers as [|c containers IH]; intros st; simpl.
  - by rewrite app_nil_r.
  - rewrite IH. unfold Contains.
    destruct (StringContains required (label (Labels c) ServiceLabel)) eqn:Hc.
    + apply StringContains_elem_of in Hc. rewrite filter_cons_True by done.
      simpl. by rewrite <- app_assoc.
    + apply StringContains_false in Hc. by rewrite filter_cons_False by done.
Qed.

Lemma seed_journal (required : list string) (containers : list Container) (st : state) :
  journal (seed ServiceLabel required containers st) = journal st.
Proof.
  revert st. induction containers as [|c containers IH]; intros st; simpl; [done|].
  rewrite IH. by destruct (Contains _ _).
Qed.

Lemma seed_cancelled (required : list string) (containers : list Container) (st : state) :
  cancelled (seed ServiceLabel required containers st) = cancelled st.
Proof.
  revert st. induction containers as [|c containers IH]; intros st; simpl; [done|].
  rewrite IH. by destruct (Contains _ _).
Qed.

(** C9. With an empty snapshot of containers [watchContainers] returns
    nil at once: the journal is empty, so there was no subscription to
    the events and no call of the listener, of [onStart] or of
    [onRecreate], whatever [required], [services] and the events are. *)
Theorem watchContainers_empty_snapshot
    (projectName : string) (services required : list string)
    (containers : list Container) (stream : list stream_item) :
  length containers = 0 →
  (watchContainers projectName services required containers stream).2 = Some None
  ∧ journal (watchContainers projectName services required containers stream).1 = [].
Proof.
  intros Hlen. unfold Watcher.watchContainers.
  destruct (decide (length containers = 0)) as [_|Hne]; [|done].
  by split.
Qed.

(** C10. With an empty [required] the services to wait for are all of
    [services]: when the subscription starts, [expected] holds the IDs of
    the containers of the snapshot whose service label is in [services],
    in the order of the snapshot; it is not empty as soon as there is
    such a container. *)
Theorem watchContainers_required_defaults
    (projectName : string) (services required : list string) (containers : list Container) :
  length required = 0 →
  expected (subscribed ServiceLabel projectName services required containers)
  = ID <$> filter (λ c, label (Labels c) ServiceLabel ∈ services) containers
  ∧ (containers ≠ [] →
     watchContainers projectName services required containers []
     = (subscribed ServiceLabel projectName services required containers, None))
  ∧ ((∃ c, c ∈ containers ∧ label (Labels c) ServiceLabel ∈ services) →
     expected (subscribed ServiceLabel projectName services required containers) ≠ []).
Proof.
  intros Hlen.
  assert (Hexp : expected (subscribed ServiceLabel projectName services required containers)
                 = ID <$> filter (λ c, label (Labels c) ServiceLabel ∈ services) containers).
  { unfold subscribed. rewrite decide_True by done. simpl. by rewrite seed_expected. }
  split_and!; [done| |].
  - intros Hne. unfold Watcher.watchContainers.
    destruct (decide (length containers = 0)) as [H0|_].
    { by destruct containers. }
    assert (Hc : cancelled (subscribed ServiceLabel projectName services required containers)
                 = false).
    { unfold subscribed. simpl. by rewrite seed_cancelled. }
    cbn [Events]. by rewrite Hc.
  - intros (c & Hc & Hs). rewrite Hexp. intros Hnil%fmap_nil_inv.
    assert (Hin : c ∈ filter (λ c, label (Labels c) ServiceLabel ∈ services) containers)
      by by apply list_elem_of_filter.
    rewrite Hnil in Hin. inversion Hin.
Qed.

Lemma finish_fields (st : state) :
  expected (finish st).1 = expected st
  ∧ watched (finish st).1 = watched st
  ∧ replaced (finish st).1 = replaced st
  ∧ (finish st).2 = None
  ∧ journal (finish st).1
    = journal st ++ (if decide (length (expected st) = 0) then [Stop] else []).
Proof.
  unfold finish. case_decide; simpl; by rewrite ?app_nil_r.
Qed.

End facts.
End WatcherFacts.

Module RecreationFacts.
Import Watcher Scenario.

Lemma watchContainers_empty_snapshot_witness :
  (watch ["a"] [] recreation).2 = Some None
  ∧ journal (watch ["a"] [] recreation).1 = [].
Proof.
  apply (WatcherFacts.watchContainers_empty_snapshot
           service_label replace_label shown succeeds succeeds "proj" ["a"] ["a"] [] recreation).
  reflexivity.
Defined.

Lemma watchContainers_required_defaults_witness :
  expected (subscribed service_label "proj" ["a"] [] initial)
  = ID <$> filter (λ c, label (Labels c) service_label ∈ ["a"]) initial
  ∧ (initial ≠ [] →
     watch [] initial [] = (subscribed service_label "proj" ["a"] [] initial, None))
  ∧ ((∃ c, c ∈ initial ∧ label (Labels c) service_label ∈ ["a"]) →
     expected (subscribed service_label "proj" ["a"] [] initial) ≠ []).
Proof.
  apply (WatcherFacts.watchContainers_required_defaults
           service_label replace_label shown succeeds succeeds "proj" ["a"] [] initial).
  reflexivity.
Defined.



End RecreationFacts.

(** * The traversal *)

Module TraversalFacts.
Import Traversal TraversalNotions.

Lemma submseteq_NoDup (l k : list string) : l ⊆+ k → NoDup k → NoDup l.
Proof.
  intros [k' Hk]%submseteq_Permutation. rewrite Hk.
  by intros (? & _ & _)%NoDup_app.
Qed.

Lemma NoDup_fst_unique {B : Type} (l : list (string * B)) (x : string) (y1 y2 : B) :
  NoDup l.*1 → (x, y1) ∈ l → (x, y2) ∈ l → y1 = y2.
Proof.
  induction l as [|[x' y'] l IH]; csimpl.
  - intros _ H. inversion H.
  - intros [Hx' Hnd]%NoDup_cons [H1|H1]%elem_of_cons [H2|H2]%elem_of_cons.
    + congruence.
    + injection H1 as -> ->. exfalso. apply Hx'.
      apply list_elem_of_fmap. by exists (x', y2).
    + injection H2 as -> ->. exfalso. apply Hx'.
      apply list_elem_of_fmap. by exists (x', y1).
    + by apply IH.
Qed.

Lemma filter_none (P : string → Prop) `{∀ x, Decision (P x)} (l : list string) :
  (∀ x, x ∈ l → ¬ P x) → filter P l = [].
Proof.
  induction l as [|x l IH]; [done|]. intros Hl.
  rewrite filter_cons_False by (apply Hl; left). apply IH.
  intros y Hy. apply Hl. by right.
Qed.

Lemma Leaves_keys (g : Graph) : Leaves g ⊆ keys g.
Proof.
  unfold Leaves, keys, GoMap.keys. intros k [kv [-> Hkv]]%list_elem_of_fmap.
  apply list_elem_of_filter in Hkv as [_ Hkv]. by apply list_elem_of_fmap_2.
Qed.

Lemma Roots_keys (g : Graph) : Roots g ⊆ keys g.
Proof.
  unfold Roots, keys, GoMap.keys. intros k [kv [-> Hkv]]%list_elem_of_fmap.
  apply list_elem_of_filter in Hkv as [_ Hkv]. by apply list_elem_of_fmap_2.
Qed.

Section invariants.
Variable d : direction.
Variable n : Z.
Variable g0 : Graph.
Hypothesis Hwf0 : graph_wf g0.

Local Abbreviation t := (directed d n).

Lemma extremities_keys : extremityNodesFn t g0 ⊆ keys g0.
Proof. destruct d; [apply Leaves_keys | apply Roots_keys]. Qed.

Lemma adjacent_released (g : Graph) (node : string) :
  adjacentNodesFn t g node
  = match vertex_at g node with Some _ => Ret (released d g node) | None => Panic end.
Proof.
  unfold released, vertex_at.
  destruct d; simpl; unfold GetParents, GetChildren;
    by destruct (GoMap.get (Vertices g) node).
Qed.

Lemma released_keys (g : Graph) (node : string) :
  graph_wf g → released d g node ⊆ keys g.
Proof.
  intros Hwf. unfold released. destruct (vertex_at g node) as [v|] eqn:Hv.
  - destruct d; [by eapply wf_parents | by eapply wf_children].
  - intros x Hx. inversion Hx.
Qed.

Lemma shape_initial (s : state) : initial t g0 s → shape_inv g0 s.
Proof.
  destruct 1 as [Hlen|nodes Hlen Hperm]; split; simpl;
    try done; eauto; try apply list_subseteq_nil.
  intros x Hx. rewrite Hperm in Hx. by apply extremities_keys.
Qed.

(** *** The shape of the graph and the nodes at hand *)

Lemma shape_run (s : state) (pc : run_pc) (ev : event) (s' : state) (pc' : run_pc) :
  run_step t s pc ev s' pc' → shape_inv g0 s → run_nodes pc ⊆ keys g0 →
  graph s' = graph s ∧ main s' = main s ∧ coord s' = coord s
  ∧ (workers s').*1 ⊆ keys g0 ∧ seen s' ⊆ keys g0 ∧ run_nodes pc' ⊆ keys g0.
Proof.
  intros Hstep [Hwf Hkeys Hedges Hmain Hcoord Hworkers Hseen] Hpc.
  destruct Hstep; simpl in *; split_and!; try done; set_solver.
Qed.

Lemma shape_step (s : state) (ev : event) (s' : state) :
  step t s ev s' → shape_inv g0 s → shape_inv g0 s'.
Proof.
  intros Hstep Hinv.
  destruct Hstep as
    [s pc ev s' pc' Hmain Hrun | s Hmain | s Hmain Hcoord Hws
    | s ws1 node err ws2 Hcoord Hclosed Hws | s node Hcoord Hexp
    | s node adjacent nodes Hcoord Hexp Hadj Hperm | s node Hcoord Hexp Hadj
    | s pc ev s' pc' Hcoord Hrun | s Hcoord | s Hcoord Hclosed
    | s ws1 node ws2 Hws | s ws1 node ws2 err Hws | s ws1 node ws2 g' Hws Hup
    | s ws1 node ws2 Hws Hup | s ws1 node ws2 e Hws | s ws1 node err ws2 Hclosed Hws
    | s ws1 node err ws2 Hws | s].
  - destruct (shape_run _ _ _ _ _ Hrun Hinv) as (Hg & Hm & Hc & Hw & Hs & Hpc).
    { destruct Hinv as [_ _ _ Hm _ _ _]. by rewrite Hmain in Hm. }
    destruct Hinv. split; simpl; rewrite ?Hg, ?Hc; done.
  - destruct Hinv. split; simpl; try done. apply list_subseteq_nil.
  - destruct Hinv. split; simpl; try done. apply list_subseteq_nil.
  - destruct Hinv as [? ? ? ? ? Hw ?]. split; simpl; try done.
    + rewrite Hws in Hw. rewrite fmap_app in Hw. simpl in Hw. set_solver.
    + rewrite Hws in Hw. rewrite fmap_app in *. simpl in *. set_solver.
  - destruct Hinv. split; simpl; try done. apply list_subseteq_nil.
  - destruct Hinv as [Hwf Hkeys ? ? Hc ? ?]. split; simpl; try done.
    rewrite Hperm. rewrite adjacent_released in Hadj.
    destruct (vertex_at (graph s) node); [|done]. injection Hadj as <-.
    rewrite <- Hkeys. by apply released_keys.
  - by destruct Hinv.
  - destruct (shape_run _ _ _ _ _ Hrun Hinv) as (Hg & Hm & Hc & Hw & Hs & Hpc).
    { destruct Hinv as [_ _ _ _ Hc _ _]. by rewrite Hcoord in Hc. }
    destruct Hinv. split; simpl; rewrite ?Hg, ?Hm; done.
  - destruct Hinv. split; simpl; try done. apply list_subseteq_nil.
  - destruct Hinv. split; simpl; try done. apply list_subseteq_nil.
  - destruct Hinv as [? ? ? ? ? Hw ?]. split; simpl; try done.
    rewrite Hws in Hw. rewrite fmap_app in *. simpl in *. set_solver.
  - destruct Hinv as [? ? ? ? ? Hw ?]. split; simpl; try done.
    rewrite Hws in Hw. rewrite fmap_app in *. simpl in *. set_solver.
  - destruct Hinv as [Hwf Hkeys Hedges ? ? Hw ?]. split; simpl; try done.
    + by eapply UpdateStatus_wf.
    + by rewrite (keys_UpdateStatus _ _ _ _ Hup).
    + intros k v. rewrite (vertex_at_UpdateStatus _ _ _ _ _ Hup).
      destruct (vertex_at (graph s) k) as [v1|] eqn:Hv1; [|done]. simpl.
      intros [= <-]. destruct (Hedges _ _ Hv1) as (v0 & ? & ? & ?).
      exists v0. by case_decide.
    + rewrite Hws in Hw. rewrite fmap_app in *. simpl in *. set_solver.
  - by destruct Hinv.
  - destruct Hinv as [? ? ? ? ? Hw ?]. split; simpl; try done.
    rewrite Hws in Hw. rewrite fmap_app in *. simpl in *. set_solver.
  - by destruct Hinv.
  - destruct Hinv as [? ? ? ? ? Hw ?].
    assert (Hw' : (ws1 ++ ws2).*1 ⊆ keys g0).
    { rewrite Hws in Hw. rewrite !fmap_app in *. simpl in *. set_solver. }
    unfold group_done. simpl.
    destruct err, (eg_err s); split; simpl; done.
  - by destruct Hinv.
Qed.

Lemma shape_reachable (tr : list event) (s : state) :
  reachable t g0 tr s → shape_inv g0 s.
Proof.
  induction 1; [by apply shape_initial | by eapply shape_step].
Qed.

(** *** Every consumed node is held once *)

Lemma invoked_snoc (tr : list event) (ev : event) :
  invoked (tr ++ [ev]) = invoked tr ++ invoked [ev].
Proof. apply omap_app. Qed.

Lemma received_snoc (tr : list event) (ev : event) :
  received (tr ++ [ev]) = received tr ++ received [ev].
Proof. apply omap_app. Qed.

Lemma finished_snoc (tr : list event) (ev : event) :
  finished (tr ++ [ev]) = finished tr ++ finished [ev].
Proof. apply omap_app. Qed.

Lemma updated_snoc (tr : list event) (ev : event) :
  updated (tr ++ [ev]) = updated tr ++ updated [ev].
Proof. apply omap_app. Qed.

Lemma visited_with_snoc (tr : list event) (ev : event) :
  visited_with (tr ++ [ev]) = visited_with tr ++ visited_with [ev].
Proof. apply omap_app. Qed.

Lemma nodes_where_app (P : worker_pc → bool) (ws1 ws2 : list (string * worker_pc)) :
  nodes_where P (ws1 ++ ws2) = nodes_where P ws1 ++ nodes_where P ws2.
Proof. apply omap_app. Qed.

Lemma nodes_where_length (P : worker_pc → bool) (ws : list (string * worker_pc)) :
  (length (nodes_where P ws) ≤ length ws)%nat.
Proof.
  induction ws as [|[node pc] ws IH]; simpl; [done|].
  destruct (P pc); simpl; lia.
Qed.

Lemma nodes_where_all (P : worker_pc → bool) (ws : list (string * worker_pc)) :
  length (nodes_where P ws) = length ws → ∀ w, w ∈ ws → P w.2 = true.
Proof.
  induction ws as [|[node pc] ws IH]; simpl.
  - intros _ w Hw. inversion Hw.
  - pose proof (nodes_where_length P ws).
    destruct (P pc) eqn:HP; simpl; [|lia].
    intros Hlen w [->|Hw]%elem_of_cons; [done|]. apply IH; [lia|done].
Qed.

Lemma length_keys (g : Graph) : length (keys g) = length (Vertices g).
Proof. unfold keys, GoMap.keys. apply length_fmap. Qed.

(** When as many nodes were received as the graph has vertices, every
    vertex was consumed and the goroutine of each has sent its node. *)
Lemma all_received (tr : list event) (s : state) :
  shape_inv g0 s → token_inv g0 tr s →
  length (received tr) = length (Vertices g0) →
  seen s ≡ₚ keys g0
  ∧ main_pending (main s) = [] ∧ coord_pending (coord s) = []
  ∧ ∀ w, w ∈ workers s → sent w.2 = true.
Proof.
  intros Hshape Htok Hlen.
  destruct Htok as [Hnd Hseen Hinv Hrec _ _ _ _ _].
  assert (Hsub : seen s ⊆+ keys g0).
  { apply NoDup_submseteq; [done|]. apply (shape_seen _ _ Hshape). }
  pose proof (submseteq_length _ _ Hsub) as Hle.
  pose proof (nodes_where_length sent (workers s)) as Hsent.
  apply Permutation_length in Hseen as Hseen', Hrec as Hrec'.
  unfold holders in Hseen'. rewrite !length_app, length_fmap in Hseen'.
  rewrite length_app in Hrec'. rewrite length_keys in Hle.
  split_and!.
  - apply submseteq_length_Permutation; [done|]. rewrite length_keys. lia.
  - apply length_zero_iff_nil. lia.
  - apply length_zero_iff_nil. lia.
  - apply nodes_where_all. lia.
Qed.

Ltac snoc_simpl :=
  rewrite ?invoked_snoc, ?received_snoc, ?finished_snoc, ?updated_snoc,
    ?visited_with_snoc; simpl; rewrite ?app_nil_r.

Lemma token_initial (s : state) : initial t g0 s → token_inv g0 [] s.
Proof.
  destruct 1 as [Hlen|nodes Hlen Hperm]; split; simpl;
    try done; try apply NoDup_nil_2; try lia.
  by intros err [= <-].
Qed.

Lemma filter_gating (g : Graph) (node : string) (status : ServiceStatus) :
  graph_wf g → node ∈ keys g →
  filterAdjacentByStatusFn t g node status
  = Ret (filter (λ a, status_at g a = Some status) (gating d g node)).
Proof.
  intros Hwf [v Hv]%vertex_at_is_Some. unfold gating. rewrite Hv.
  destruct d; simpl; [by apply FilterChildren_Ret | by apply FilterParents_Ret].
Qed.

Lemma UpdateStatus_Ret (g : Graph) (node : string) (status : ServiceStatus) :
  node ∈ keys g → ∃ g', UpdateStatus g node status = Ret g'.
Proof.
  intros [v Hv]%vertex_at_is_Some. unfold UpdateStatus. unfold vertex_at in Hv.
  rewrite Hv. eauto.
Qed.

Ltac tok_perm H := try (rewrite H; solve_Permutation).

Ltac no_workers :=
  match goal with
  | H : ?ws1 ++ _ :: _ = [] |- _ => by destruct ws1
  | H : [] = ?ws1 ++ _ :: _ |- _ => by destruct ws1
  end.

Ltac tok_split Htok :=
  let Hnd := fresh "Hnd" in let Hseen := fresh "Hseen" in
  let Hinv := fresh "Hinv" in let Hrec := fresh "Hrec" in
  let Hex := fresh "Hex" in let Hcl := fresh "Hcl" in
  let Hdone := fresh "Hdone" in let Hret := fresh "Hret" in
  let Hpan := fresh "Hpan" in
  destruct Htok as [Hnd Hseen Hinv Hrec Hex Hcl Hdone Hret Hpan];
  match goal with s : state |- _ => destruct s end;
  unfold holders, group_done in *; simpl in *; subst; simpl in *;
  rewrite ?fmap_app, ?nodes_where_app in *; simpl in *;
  repeat match goal with
         | |- context [match ?e with Some _ => _ | None => _ end] => destruct e
         end;
  split; unfold holders; simpl; snoc_simpl;
  rewrite ?fmap_app, ?nodes_where_app; simpl;
  try done; tok_perm Hseen; tok_perm Hinv; tok_perm Hrec;
  try (rewrite ?length_app; simpl; lia);
  try (intros; simplify_eq; done);
  try (intros Hc; specialize (Hcl Hc); discriminate);
  try (specialize (Hcl eq_refl); discriminate);
  try (intros ? Hm; destruct (Hret _ Hm) as (? & ? & ?); simplify_eq;
       try done; no_workers).

Lemma token_run (s : state) (pc : run_pc) (ev : event) (s' : state) (pc' : run_pc) :
  run_step t s pc ev s' pc' → shape_inv g0 s → run_nodes pc ⊆ keys g0 →
  NoDup (seen s) → panicked s = false →
  NoDup (seen s')
  ∧ (∃ delta, seen s' = seen s ++ delta
       ∧ run_pending pc' ++ (workers s').*1 ≡ₚ delta ++ run_pending pc ++ (workers s).*1)
  ∧ nodes_where started (workers s') = nodes_where started (workers s)
  ∧ nodes_where sent (workers s') = nodes_where sent (workers s)
  ∧ invoked [ev] = [] ∧ received [ev] = [] ∧ finished [ev] = []
  ∧ expect s' = expect s ∧ closed s' = closed s ∧ main s' = main s
  ∧ coord s' = coord s ∧ eg_err s' = eg_err s ∧ panicked s' = false.
Proof.
  intros Hrun Hshape Hpc Hnd Hpan.
  destruct Hrun as [s node rest res Hf Hres|s node rest Hf|s node rest Hf
                   |s node rest Hin|s node rest Hin|s node rest Hfree].
  3: { exfalso. rewrite filter_gating in Hf; [done|apply Hshape|].
       rewrite (shape_keys _ _ Hshape). apply Hpc. left. }
  all: simpl in *; rewrite ?fmap_app, ?nodes_where_app; simpl; rewrite ?app_nil_r;
    split_and!; try done.
  - exists []. by rewrite app_nil_r.
  - exists []. by rewrite app_nil_r.
  - exists []. by rewrite app_nil_r.
  - apply NoDup_app. split_and!; [done| |apply NoDup_singleton].
    by intros x Hx ->%list_elem_of_singleton.
  - exists [node]. split; [done|]. solve_Permutation.
  - exists []. rewrite app_nil_r. split; [done|]. solve_Permutation.
Qed.

Lemma token_step (tr : list event) (s : state) (ev : event) (s' : state) :
  step t s ev s' → shape_inv g0 s → token_inv g0 tr s → token_inv g0 (tr ++ [ev]) s'.
Proof.
  intros Hstep Hshape Htok.
  destruct Hstep as
    [s pc ev s' pc' Hmain Hrun | s Hmain | s Hmain Hcoord Hws
    | s ws1 node err ws2 Hcoord Hclosed Hws | s node Hcoord Hexp
    | s node adjacent nodes Hcoord Hexp Hadj Hperm | s node Hcoord Hexp Hadj
    | s pc ev s' pc' Hcoord Hrun | s Hcoord | s Hcoord Hclosed
    | s ws1 node ws2 Hws | s ws1 node ws2 err Hws | s ws1 node ws2 g' Hws Hup
    | s ws1 node ws2 Hws Hup | s ws1 node ws2 e Hws | s ws1 node err ws2 Hclosed Hws
    | s ws1 node err ws2 Hws | s].
  - destruct Htok as [Hnd Hseen Hinv Hrec Hex Hcl Hdone Hret Hpan].
    assert (Hpc : run_nodes pc ⊆ keys g0).
    { pose proof (shape_main _ _ Hshape) as Hm. by rewrite Hmain in Hm. }
    destruct (token_run _ _ _ _ _ Hrun Hshape Hpc Hnd Hpan) as
      (Hnd' & (delta & Hseen' & Hperm) & Hst & Hse & Hi & Hr & Hf
       & Hex' & Hcl' & Hm' & Hc' & He' & Hp').
    unfold holders in Hseen. rewrite Hmain in Hseen. simpl in Hseen.
    split; unfold holders; simpl;
      rewrite ?invoked_snoc, ?received_snoc, ?finished_snoc,
        ?Hi, ?Hr, ?Hf, ?Hst, ?Hse, ?Hex', ?Hcl', ?Hc', ?app_nil_r; try done.
    + rewrite Hseen', Hseen.
      trans (coord_pending (coord s) ++ (run_pending pc' ++ (workers s').*1)
             ++ finished tr); [|solve_Permutation].
      rewrite Hperm. solve_Permutation.
  - tok_split Htok.
  - tok_split Htok.
  - tok_split Htok.
  - tok_split Htok.
  - tok_split Htok.
  - exfalso. rewrite adjacent_released in Hadj.
    pose proof (shape_coord _ _ Hshape) as Hc. rewrite Hcoord in Hc.
    assert (Hn : node ∈ keys (graph s)).
    { rewrite (shape_keys _ _ Hshape). apply Hc. left. }
    apply vertex_at_is_Some in Hn as [v Hv]. by rewrite Hv in Hadj.
  - destruct Htok as [Hnd Hseen Hinv Hrec Hex Hcl Hdone Hret Hpan].
    assert (Hpc : run_nodes pc ⊆ keys g0).
    { pose proof (shape_coord _ _ Hshape) as Hc. by rewrite Hcoord in Hc. }
    destruct (token_run _ _ _ _ _ Hrun Hshape Hpc Hnd Hpan) as
      (Hnd' & (delta & Hseen' & Hperm) & Hst & Hse & Hi & Hr & Hf
       & Hex' & Hcl' & Hm' & Hc' & He' & Hp').
    unfold holders in Hseen. rewrite Hcoord in Hseen. simpl in Hseen.
    split; unfold holders; simpl;
      rewrite ?invoked_snoc, ?received_snoc, ?finished_snoc,
        ?Hi, ?Hr, ?Hf, ?Hst, ?Hse, ?Hex', ?Hcl', ?Hm', ?app_nil_r; try done.
    + rewrite Hseen', Hseen.
      trans (main_pending (main s) ++ (run_pending pc' ++ (workers s').*1)
             ++ finished tr); [|solve_Permutation].
      rewrite Hperm. solve_Permutation.
    + intros Hc. specialize (Hcl Hc). congruence.
    + intros err Hm. destruct (Hret _ Hm) as (? & ? & ?). congruence.
  - tok_split Htok.
  - tok_split Htok.
  - tok_split Htok.
  - tok_split Htok.
  - tok_split Htok.
  - exfalso. destruct (UpdateStatus_Ret (graph s) node (targetServiceStatus t))
      as [g' Hg']; [|congruence].
    rewrite (shape_keys _ _ Hshape). apply (shape_workers _ _ Hshape).
    rewrite Hws, fmap_app. simpl. set_solver.
  - tok_split Htok.
  - exfalso.
    pose proof (tok_done _ _ _ Htok (tok_closed _ _ _ Htok Hclosed)) as Hlen.
    destruct (all_received _ _ Hshape Htok Hlen) as (_ & _ & _ & Hsent).
    specialize (Hsent (node, WSend err)). rewrite Hws in Hsent.
    simpl in Hsent. discriminate Hsent. set_solver.
  - tok_split Htok.
  - tok_split Htok.
Qed.

Lemma token_reachable (tr : list event) (s : state) :
  reachable t g0 tr s → token_inv g0 tr s.
Proof.
  induction 1 as [s Hinit|tr s ev s' Hreach IH Hstep].
  - by apply token_initial.
  - eapply token_step; [done| |done]. by eapply shape_reachable.
Qed.

(** *** Results and statuses *)

Lemma status_at_UpdateStatus (g g' : Graph) (node : string) (status : ServiceStatus)
    (k : string) :
  UpdateStatus g node status = Ret g' →
  status_at g' k = if decide (node = k) then Some status else status_at g k.
Proof.
  intros Hup. unfold status_at. rewrite (vertex_at_UpdateStatus _ _ _ _ _ Hup).
  case_decide as Hk; [subst k|by destruct (vertex_at g k)].
  unfold UpdateStatus in Hup. unfold vertex_at.
  by destruct (GoMap.get (Vertices g) node).
Qed.

Lemma result_initial (s : state) : initial t g0 s → result_inv t g0 [] s.
Proof.
  destruct 1 as [Hlen|nodes Hlen Hperm]; split; simpl;
    try done; try (intros; by left); set_solver.
Qed.

Ltac res_split Hres :=
  let Hv := fresh "Hv" in let Hw := fresh "Hw" in let Hp := fresh "Hp" in
  let Hf := fresh "Hf" in let Hfail := fresh "Hfail" in let Hu := fresh "Hu" in
  let Hst := fresh "Hst" in let Hc := fresh "Hc" in
  destruct Hres as [Hv Hw Hp Hf Hfail Hu Hst Hc];
  match goal with s : state |- _ => destruct s end;
  unfold group_done in *; simpl in *; subst; simpl in *;
  rewrite ?fmap_app, ?nodes_where_app in *; simpl in *;
  repeat match goal with
         | |- context [match ?e with Some _ => _ | None => _ end] => destruct e
         end;
  split; simpl; snoc_simpl; rewrite ?fmap_app, ?nodes_where_app; simpl;
  try done; tok_perm Hv;
  try (set_unfold; naive_solver).

Lemma result_step (tr : list event) (s : state) (ev : event) (s' : state) :
  step t s ev s' → shape_inv g0 s → token_inv g0 tr s → result_inv t g0 tr s →
  result_inv t g0 (tr ++ [ev]) s'.
Proof.
  intros Hstep Hshape Htok Hres.
  destruct Hstep as
    [s pc ev s' pc' Hmain Hrun | s Hmain | s Hmain Hcoord Hws
    | s ws1 node err ws2 Hcoord Hclosed Hws | s node Hcoord Hexp
    | s node adjacent nodes Hcoord Hexp Hadj Hperm | s node Hcoord Hexp Hadj
    | s pc ev s' pc' Hcoord Hrun | s Hcoord | s Hcoord Hclosed
    | s ws1 node ws2 Hws | s ws1 node ws2 err Hws | s ws1 node ws2 g' Hws Hup
    | s ws1 node ws2 Hws Hup | s ws1 node ws2 e Hws | s ws1 node err ws2 Hclosed Hws
    | s ws1 node err ws2 Hws | s].
  13: { (* the update of the status *)
    pose proof (λ k, status_at_UpdateStatus _ _ _ _ k Hup) as Hnew.
    destruct Hres as [Hv Hw Hp Hf Hfail Hu Hst Hc].
    destruct s; simpl in *; subst; simpl in *.
    rewrite ?fmap_app, ?nodes_where_app in *; simpl in *.
    split; simpl; snoc_simpl; rewrite ?fmap_app, ?nodes_where_app; simpl; try done.
    - set_unfold; naive_solver.
    - set_unfold; naive_solver.
    - set_unfold; naive_solver.
    - set_unfold; naive_solver.
    - intros node0 [Hin| ->%list_elem_of_singleton]%elem_of_app; rewrite Hnew.
      + destruct (Hu _ Hin) as [Hs Hvis]. split; [|done]. by case_decide.
      + rewrite decide_True by done. split; [done|].
        apply (Hw node (WVisited None)); [|done]. set_solver.
    - intros node0. rewrite Hnew. case_decide as Hk.
      + right. subst. set_solver.
      + destruct (Hst node0); [by left|right; set_solver]. }
  1: destruct Hrun.
  13: destruct Hrun.
  all: res_split Hres.
Qed.

Lemma result_reachable (tr : list event) (s : state) :
  reachable t g0 tr s → result_inv t g0 tr s.
Proof.
  induction 1 as [s Hinit|tr s ev s' Hreach IH Hstep].
  - by apply result_initial.
  - eapply result_step; [done| | |done].
    + by eapply shape_reachable.
    + by eapply token_reachable.
Qed.

(** *** Readiness *)

Lemma other_status (x : ServiceStatus) :
  x ≠ adjacentServiceStatusToSkip t → x = targetServiceStatus t.
Proof. by destruct d, x. Qed.

Lemma gating_shape (s : state) (node : string) :
  shape_inv g0 s → gating d (graph s) node = gating d g0 node.
Proof.
  intros Hshape. unfold gating.
  destruct (vertex_at (graph s) node) as [v|] eqn:Hv.
  - destruct (shape_edges _ _ Hshape _ _ Hv) as (v0 & -> & Hc & Hp).
    by destruct d.
  - apply vertex_at_None in Hv. rewrite (shape_keys _ _ Hshape) in Hv.
    apply vertex_at_None in Hv. by rewrite Hv.
Qed.

Lemma gating_keys (node : string) : gating d g0 node ⊆ keys g0.
Proof.
  unfold gating. destruct (vertex_at g0 node) as [v|] eqn:Hv.
  - destruct d; [by eapply wf_children | by eapply wf_parents].
  - apply list_subseteq_nil.
Qed.

Lemma checked_ready_snoc (tr : list event) (ev : event) (node : string) :
  checked_ready d g0 tr node → checked_ready d g0 (tr ++ [ev]) node.
Proof.
  intros (tr1 & tr2 & -> & Hg). exists tr1, (tr2 ++ [ev]).
  split; [|done]. by rewrite <- app_assoc.
Qed.

(** The check that finds a node ready. *)
Lemma check_ready (tr : list event) (s : state) (node : string) :
  shape_inv g0 s → result_inv t g0 tr s → node ∈ keys g0 →
  filterAdjacentByStatusFn t (graph s) node (adjacentServiceStatusToSkip t) = Ret [] →
  checked_ready d g0 (tr ++ [EvCheck node true]) node.
Proof.
  intros Hshape Hres Hnode Hf. exists tr, []. split; [done|].
  intros c Hc. rewrite filter_gating in Hf; [|apply Hshape|by rewrite (shape_keys _ _ Hshape)].
  injection Hf as Hf. rewrite gating_shape in Hf by done.
  assert (Hnot : status_at (graph s) c ≠ Some (adjacentServiceStatusToSkip t)).
  { intros Hs. assert (Hin : c ∈ @nil string); [|inversion Hin].
    rewrite <- Hf. by apply list_elem_of_filter. }
  assert (Hck : c ∈ keys (graph s)).
  { rewrite (shape_keys _ _ Hshape). by apply gating_keys in Hc. }
  apply vertex_at_is_Some in Hck as [v Hv].
  assert (Hsc : status_at (graph s) c = Some (targetServiceStatus t)).
  { unfold status_at in *. rewrite Hv in *. simpl in *. f_equal.
    apply other_status. intros Heq. apply Hnot. f_equal. exact Heq. }
  destruct (res_status _ _ _ _ Hres c) as [Heq|Hup]; [right|by left].
  by rewrite <- Heq.
Qed.

Lemma ready_initial (s : state) : initial t g0 s → ready_inv d g0 [] s.
Proof.
  destruct 1 as [Hlen|nodes Hlen Hperm]; split; simpl; intros node Hn; inversion Hn.
Qed.

Ltac ready_split Hready :=
  let Hs := fresh "Hs" in let Hm := fresh "Hm" in let Hc := fresh "Hc" in
  destruct Hready as [Hs Hm Hc];
  match goal with s : state |- _ => destruct s end;
  unfold group_done in *; simpl in *; subst; simpl in *;
  repeat match goal with
         | |- context [match ?e with Some _ => _ | None => _ end] => destruct e
         end;
  split; simpl; intros ? ?; try (apply checked_ready_snoc);
  try first [ by apply Hs | by apply Hm | by apply Hc
            | by match goal with H : _ ∈ [] |- _ => inversion H end ].

Lemma ready_step (tr : list event) (s : state) (ev : event) (s' : state) :
  step t s ev s' → shape_inv g0 s → result_inv t g0 tr s → ready_inv d g0 tr s →
  ready_inv d g0 (tr ++ [ev]) s'.
Proof.
  intros Hstep Hshape Hres Hready.
  destruct Hstep as
    [s pc ev s' pc' Hmain Hrun | s Hmain | s Hmain Hcoord Hws
    | s ws1 node err ws2 Hcoord Hclosed Hws | s node Hcoord Hexp
    | s node adjacent nodes Hcoord Hexp Hadj Hperm | s node Hcoord Hexp Hadj
    | s pc ev s' pc' Hcoord Hrun | s Hcoord | s Hcoord Hclosed
    | s ws1 node ws2 Hws | s ws1 node ws2 err Hws | s ws1 node ws2 g' Hws Hup
    | s ws1 node ws2 Hws Hup | s ws1 node ws2 e Hws | s ws1 node err ws2 Hclosed Hws
    | s ws1 node err ws2 Hws | s].
  1: destruct Hrun as [s node rest res Hf Hne|s node rest Hf|s node rest Hf
                      |s node rest Hin|s node rest Hin|s node rest Hfree].
  13: destruct Hrun as [s node rest res Hf Hne|s node rest Hf|s node rest Hf
                       |s node rest Hin|s node rest Hin|s node rest Hfree].
  2, 14: (* the node is found ready *)
    assert (Hnode : node ∈ keys g0) by
      (first [ pose proof (shape_main _ _ Hshape) as Hk; rewrite Hmain in Hk
             | pose proof (shape_coord _ _ Hshape) as Hk; rewrite Hcoord in Hk ];
       apply Hk; left);
    pose proof (check_ready _ _ _ Hshape Hres Hnode Hf) as Hnew;
    destruct Hready as [Hs Hm Hc]; split; simpl; intros node' Hn;
    try (apply list_elem_of_singleton in Hn as ->; exact Hnew);
    apply checked_ready_snoc; auto.
  4, 15: (* the node is consumed *)
    destruct Hready as [Hs Hm Hc]; split; simpl; intros node' Hn;
    apply checked_ready_snoc; auto;
    try (by inversion Hn);
    apply elem_of_app in Hn as [Hn| ->%list_elem_of_singleton]; [by apply Hs|];
    first [ apply Hm; rewrite Hmain | apply Hc; rewrite Hcoord ]; left.
  all: ready_split Hready.
Qed.

Lemma ready_reachable (tr : list event) (s : state) :
  reachable t g0 tr s → ready_inv d g0 tr s.
Proof.
  induction 1 as [s Hinit|tr s ev s' Hreach IH Hstep].
  - by apply ready_initial.
  - eapply ready_step; [done| | |done].
    + by eapply shape_reachable.
    + by eapply result_reachable.
Qed.

(** *** Consequences *)

Lemma nodes_where_submseteq (P : worker_pc → bool) (ws : list (string * worker_pc)) :
  nodes_where P ws ⊆+ ws.*1.
Proof.
  induction ws as [|[node pc] ws IH]; simpl; [done|].
  destruct (P pc); [by apply submseteq_skip | by apply submseteq_cons].
Qed.

Lemma held_submseteq (P : worker_pc → bool) (tr : list event) (s : state) :
  token_inv g0 tr s → nodes_where P (workers s) ++ finished tr ⊆+ seen s.
Proof.
  intros Htok. rewrite (tok_seen _ _ _ Htok). unfold holders.
  apply submseteq_app; [|done].
  etrans; [apply nodes_where_submseteq|].
  rewrite app_assoc. apply submseteq_inserts_l. done.
Qed.

Lemma invoked_seen (tr : list event) (s : state) :
  token_inv g0 tr s → invoked tr ⊆+ seen s.
Proof.
  intros Htok. rewrite (tok_invoked _ _ _ Htok). by apply held_submseteq.
Qed.

Lemma visited_NoDup (tr : list event) (s : state) :
  token_inv g0 tr s → result_inv t g0 tr s → NoDup (visited_with tr).*1.
Proof.
  intros Htok Hres. rewrite (res_visited _ _ _ _ Hres).
  eapply submseteq_NoDup; [|apply (tok_nodup _ _ _ Htok)].
  by apply held_submseteq.
Qed.

(** After [visit] has returned every vertex was consumed and the
    goroutine of each has returned. *)
Lemma returned_all (tr : list event) (s : state) (err : option error) :
  shape_inv g0 s → token_inv g0 tr s → main s = MainReturned err →
  seen s ≡ₚ keys g0 ∧ finished tr ≡ₚ keys g0 ∧ invoked tr ≡ₚ keys g0.
Proof.
  intros Hshape Htok Hmain.
  destruct (tok_returned _ _ _ Htok _ Hmain) as (Hcoord & Hws & _).
  pose proof (tok_done _ _ _ Htok Hcoord) as Hlen.
  destruct (all_received _ _ Hshape Htok Hlen) as (Hseen & _ & _ & _).
  pose proof (tok_seen _ _ _ Htok) as Hs. pose proof (tok_invoked _ _ _ Htok) as Hi.
  unfold holders in Hs. rewrite Hmain, Hcoord, Hws in Hs. rewrite Hws in Hi.
  simpl in Hs, Hi. split_and!; [done| |]; by rewrite <- Hseen, Hs.
Qed.

Lemma skip_not_target : adjacentServiceStatusToSkip t ≠ targetServiceStatus t.
Proof. by destruct d. Qed.

(** The neighbours a checked node waits for have the target status. *)
Lemma checked_ready_status (tr : list event) (s : state) (node c : string) :
  result_inv t g0 tr s → checked_ready d g0 tr node → c ∈ gating d g0 node →
  status_at (graph s) c = Some (targetServiceStatus t).
Proof.
  intros Hres (tr1 & tr2 & -> & Hg) Hc.
  destruct (Hg c Hc) as [Hup|Hinit].
  - apply (res_updated _ _ _ _ Hres). unfold updated in *.
    rewrite omap_app. apply elem_of_app. by left.
  - destruct (res_status _ _ _ _ Hres c) as [Heq|Hup].
    + by rewrite Heq.
    + by apply (res_updated _ _ _ _ Hres).
Qed.

(** A node one of whose awaited neighbours failed is never consumed. *)
Lemma gated_never_seen (tr : list event) (s : state) (w v : string) (e : error) :
  token_inv g0 tr s → result_inv t g0 tr s → ready_inv d g0 tr s →
  status_at g0 w = Some (adjacentServiceStatusToSkip t) →
  (w, Some e) ∈ visited_with tr → w ∈ gating d g0 v → v ∉ seen s.
Proof.
  intros Htok Hres Hready Hinit Hfail Hw Hv.
  destruct (ready_seen _ _ _ _ Hready _ Hv) as (tr1 & tr2 & Htr & Hg).
  destruct (Hg w Hw) as [Hup|Htarget].
  - assert (Hup' : w ∈ updated tr).
    { rewrite Htr. unfold updated in *. rewrite omap_app. apply elem_of_app. by left. }
    destruct (res_updated _ _ _ _ Hres _ Hup') as [_ Hok].
    pose proof (NoDup_fst_unique _ _ _ _ (visited_NoDup _ _ Htok Hres) Hok Hfail).
    done.
  - rewrite Hinit in Htarget. injection Htarget as Heq. by apply skip_not_target.
Qed.
End invariants.

(** *** Schedules give executions *)

Section schedules.
Import Schedule.
Variable t : graphTraversal.

Lemma slot_freeb_sound (s : state) : slot_freeb t s = true → slot_free t s.
Proof.
  unfold slot_freeb, slot_free. destruct (limit t); [|done].
  by intros ?%bool_decide_eq_true.
Qed.

Lemma exec_run_step (s : state) (pc : run_pc) (ev : event) (s' : state) (pc' : run_pc) :
  exec_run t s pc = Some (ev, s', pc') → run_step t s pc ev s' pc'.
Proof.
  unfold exec_run. destruct pc as [[|node rest]|node rest|node rest]; [done|..].
  - destruct (filterAdjacentByStatusFn t (graph s) node (adjacentServiceStatusToSkip t))
      as [[|x res]| |] eqn:Hf; intros [= <- <- <-].
    + by apply run_ready.
    + by eapply run_not_ready.
    + by apply run_check_panic.
  - case_bool_decide; intros [= <- <- <-].
    + by apply run_consume_seen.
    + by apply run_consume_fresh.
  - destruct (slot_freeb t s) eqn:Hfree; intros [= <- <- <-].
    by apply run_go, slot_freeb_sound.
Qed.

Lemma exec_step (s : state) (c : choice) (ev : event) (s' : state) :
  exec t s c = Some (ev, s') → step t s ev s'.
Proof.
  destruct c as [| |i err|]; simpl.
  - destruct (main s) as [pc| |err] eqn:Hmain; [| |done].
    + destruct (exec_run t s pc) as [[[ev1 s1] pc1]|] eqn:Hrun.
      * apply exec_run_step in Hrun.
        destruct pc as [[|node rest]|node rest|node rest]; [by inversion Hrun|..];
          intros [= <- <-]; by eapply step_main_run.
      * destruct pc as [[|node rest]|node rest|node rest]; [|done..].
        intros [= <- <-]. by apply step_main_wait.
    + destruct (coord s) eqn:Hcoord; try done.
      destruct (workers s) eqn:Hws; [|done].
      intros [= <- <-]. by apply step_return.
  - destruct (coord s) as [|node|pc|] eqn:Hcoord; [| | |done].
    + destruct (closed s) eqn:Hclosed; [|done].
      intros [= <- <-]. by apply step_range_end.
    + case_decide as Hexp.
      * intros [= <- <-]. by eapply step_close.
      * destruct (adjacentNodesFn t (graph s) node) as [adjacent| |] eqn:Hadj;
          intros [= <- <-].
        -- by eapply step_expand.
        -- by eapply step_expand_panic.
    + destruct (exec_run t s pc) as [[[ev1 s1] pc1]|] eqn:Hrun.
      * apply exec_run_step in Hrun.
        destruct pc as [[|node rest]|node rest|node rest]; [by inversion Hrun|..];
          intros [= <- <-]; by eapply step_coord_run.
      * destruct pc as [[|node rest]|node rest|node rest]; [|done..].
        intros [= <- <-]. by apply step_coord_loop.
  - unfold exec_worker.
    destruct (workers s !! i) as [[node pc]|] eqn:Hi; [|done].
    apply take_drop_middle in Hi. symmetry in Hi.
    destruct pc as [| |[e|]|r|r].
    + intros [= <- <-]. by apply step_invoke.
    + intros [= <- <-]. by apply step_visited.
    + intros [= <- <-]. by apply step_no_update.
    + destruct (UpdateStatus (graph s) node (targetServiceStatus t)) as [g'| |] eqn:Hup;
        intros [= <- <-].
      * by apply step_update.
      * by eapply step_update_panic.
    + destruct (closed s) eqn:Hclosed.
      * intros [= <- <-]. by eapply step_send_closed.
      * destruct (coord s) eqn:Hcoord; try done.
        intros [= <- <-]. by apply step_receive.
    + intros [= <- <-]. by apply step_finish.
  - intros [= <- <-]. apply step_cancel.
Qed.

Lemma start_initial (g : Graph) : initial t g (start t g).
Proof.
  unfold start. case_decide.
  - by apply initial_empty.
  - by apply initial_run.
Qed.

Lemma run_reachable (g : Graph) (schedule : list choice) (tr0 tr : list event)
    (s s' : state) :
  reachable t g tr0 s → run t s schedule = Some (tr, s') → reachable t g (tr0 ++ tr) s'.
Proof.
  revert tr0 tr s. induction schedule as [|c schedule IH]; intros tr0 tr s Hreach; simpl.
  - intros [= <- <-]. by rewrite app_nil_r.
  - destruct (exec t s c) as [[ev s1]|] eqn:Hexec; [|done].
    destruct (run t s1 schedule) as [[tr1 s2]|] eqn:Hrun; [|done].
    intros [= <- <-]. rewrite (cons_middle ev tr0 tr1), app_assoc.
    eapply IH; [|done]. eapply reachable_step; [done|]. by apply (exec_step _ c).
Qed.

Lemma schedule_reachable (g : Graph) (schedule : list choice) (tr : list event) (s : state) :
  run t (start t g) schedule = Some (tr, s) → reachable t g tr s.
Proof.
  intros Hrun. apply (run_reachable g schedule [] tr (start t g) s); [|done].
  apply reachable_initial, start_initial.
Qed.
End schedules.

(** *** The properties of the specification *)

(** C4. In every execution of a traversal, up or down and with any
    [maxConcurrency], no vertex has its visitor invoked twice, whatever
    the interleaving of the goroutines; and when [visit] has returned
    the visitor was invoked exactly once for each vertex of the graph. *)
Theorem visitor_invoked_once (d : direction) (n : Z) (g : Graph)
    (tr : list event) (s : state) :
  graph_wf g → reachable (directed d n) g tr s →
  NoDup (invoked tr)
  ∧ invoked tr ⊆ keys g
  ∧ ∀ err, main s = MainReturned err → invoked tr ≡ₚ keys g.
Proof.
  intros Hwf Hreach.
  pose proof (shape_reachable d n g Hwf _ _ Hreach) as Hshape.
  pose proof (token_reachable d n g Hwf _ _ Hreach) as Htok.
  pose proof (invoked_seen g _ _ Htok) as Hsub.
  split_and!.
  - eapply submseteq_NoDup; [done|]. apply (tok_nodup _ _ _ Htok).
  - intros x Hx. apply (shape_seen _ _ Hshape).
    by eapply elem_of_submseteq.
  - intros err Hmain. by eapply returned_all.
Qed.

(** C5. When the visitor of a node is invoked, the filter of its
    neighbours in the status to skip is empty: every child of the node
    is [Started] on the way up, every parent is [Stopped] on the way
    down; the readiness check of the node is earlier in the execution,
    and each of these neighbours had its status updated before that
    check (or had the target status from the start). *)
Theorem visitor_invoked_when_ready (d : direction) (n : Z) (g : Graph)
    (tr : list event) (s : state) (node : string) (s' : state) :
  graph_wf g → reachable (directed d n) g tr s →
  step (directed d n) s (EvInvoke node) s' →
  filterAdjacentByStatusFn (directed d n) (graph s) node
    (adjacentServiceStatusToSkip (directed d n)) = Ret []
  ∧ (∀ c, c ∈ gating d g node →
       status_at (graph s) c = Some (targetServiceStatus (directed d n)))
  ∧ (∀ v, vertex_at g node = Some v →
       match d with
       | Up => ∀ c, c ∈ Children v → status_at (graph s) c = Some ServiceStarted
       | Down => ∀ p, p ∈ Parents v → status_at (graph s) p = Some ServiceStopped
       end)
  ∧ checked_ready d g tr node.
Proof.
  intros Hwf Hreach Hstep.
  pose proof (shape_reachable d n g Hwf _ _ Hreach) as Hshape.
  pose proof (token_reachable d n g Hwf _ _ Hreach) as Htok.
  pose proof (result_reachable d n g Hwf _ _ Hreach) as Hres.
  pose proof (ready_reachable d n g Hwf _ _ Hreach) as Hready.
  assert (Hws : ∃ ws1 ws2, workers s = ws1 ++ (node, WStart) :: ws2).
  { inversion Hstep as
      [s0 pc ev s1 pc' Hmain Hrun| | | | | | |s0 pc ev s1 pc' Hcoord Hrun| |
      |s0 ws1 node0 ws2 Hws| | | | | | |]; subst; [by inversion Hrun..|eauto]. }
  destruct Hws as (ws1 & ws2 & Hws).
  assert (Hseen : node ∈ seen s).
  { rewrite (tok_seen _ _ _ Htok). unfold holders. rewrite Hws, fmap_app. simpl.
    set_solver. }
  assert (Hnode : node ∈ keys g) by by apply (shape_seen _ _ Hshape).
  pose proof (ready_seen _ _ _ _ Hready _ Hseen) as Hchecked.
  assert (Hstatus : ∀ c, c ∈ gating d g node →
            status_at (graph s) c = Some (targetServiceStatus (directed d n))).
  { intros c Hc. by eapply checked_ready_status. }
  split_and!; [|done| |done].
  - rewrite (filter_gating d n); [|apply Hshape|by rewrite (shape_keys _ _ Hshape)].
    f_equal. rewrite (gating_shape d g) by done.
    apply filter_none. intros c Hc Hskip.
    rewrite (Hstatus c Hc) in Hskip. injection Hskip as Heq.
    by apply (skip_not_target d n).
  - intros v Hv. unfold gating in Hstatus. rewrite Hv in Hstatus. by destruct d.
Qed.

(** C6. When a traversal has returned nil every vertex has the target
    status, [Started] on the way up and [Stopped] on the way down; on the
    graph without vertices [visit] has returned nil from the start and
    the visitor is never invoked. *)
Theorem traversal_success_reaches_target (d : direction) (n : Z) (g : Graph)
    (tr : list event) (s : state) :
  graph_wf g → reachable (directed d n) g tr s →
  (main s = MainReturned None →
     ∀ k, k ∈ keys g →
       status_at (graph s) k = Some (match d with Up => ServiceStarted
                                                | Down => ServiceStopped end))
  ∧ (length (Vertices g) = 0 →
     (∀ s0, initial (directed d n) g s0 → main s0 = MainReturned None)
     ∧ main s = MainReturned None ∧ invoked tr = []).
Proof.
  intros Hwf Hreach.
  pose proof (shape_reachable d n g Hwf _ _ Hreach) as Hshape.
  pose proof (token_reachable d n g Hwf _ _ Hreach) as Htok.
  pose proof (result_reachable d n g Hwf _ _ Hreach) as Hres.
  split.
  - intros Hmain k Hk.
    destruct (returned_all g _ _ _ Hshape Htok Hmain) as (_ & Hfin & _).
    destruct (tok_returned _ _ _ Htok _ Hmain) as (_ & _ & Herr).
    rewrite <- Hfin in Hk. unfold finished in Hk.
    apply list_elem_of_omap in Hk as (ev & Hev & Hk).
    destruct ev as [| | | | | | |node err| | | |]; try done. injection Hk as ->.
    destruct err as [e|].
    + exfalso. by apply (res_failed _ _ _ _ Hres _ _ Hev).
    + destruct (res_updated _ _ _ _ Hres k) as [Hst _].
      { by apply (res_finished _ _ _ _ Hres). }
      rewrite Hst. by destruct d.
  - intros Hlen.
    assert (Hkeys : keys g = []).
    { apply length_zero_iff_nil. by rewrite length_keys. }
    assert (Hinv : invoked tr = []).
    { pose proof (invoked_seen g _ _ Htok) as Hsub.
      pose proof (shape_seen _ _ Hshape) as Hseen. rewrite Hkeys in Hseen.
      destruct (invoked tr) as [|x l]; [done|]. exfalso.
      assert (Hx : x ∈ seen s) by (eapply elem_of_submseteq; [left|done]).
      apply Hseen in Hx. inversion Hx. }
    split_and!; [|clear Hshape Htok Hres Hinv|done].
    + by destruct 1.
    + induction Hreach as [s Hinit|tr s ev s' Hreach IH Hstep]; [by destruct Hinit|].
      pose proof (shape_reachable d n g Hwf _ _ Hreach) as Hshape.
      pose proof (token_reachable d n g Hwf _ _ Hreach) as Htok.
      destruct (tok_returned _ _ _ Htok _ IH) as (Hcoord & Hws & _).
      inversion Hstep as
        [s0 pc ev0 s1 pc' Hmain Hrun|s0 Hmain|s0 Hmain|s0 ws1 node0 err ws2 Hc
        |s0 node0 Hc|s0 node0 adj nodes Hc|s0 node0 Hc|s0 pc ev0 s1 pc' Hc Hrun
        |s0 Hc|s0 Hc|s0 ws1 node0 ws2 Hw|s0 ws1 node0 ws2 err Hw
        |s0 ws1 node0 ws2 g' Hw|s0 ws1 node0 ws2 Hw|s0 ws1 node0 ws2 e Hw
        |s0 ws1 node0 err ws2 Hcl Hw|s0 ws1 node0 err ws2 Hw|s0]; subst;
        try congruence;
        try (rewrite Hws in Hw; by destruct ws1).
      done.
Qed.

(** C2, on the code as it is.  Let the visitor of [w] return an error
    while [w] still has the status to skip, and let [v] wait for [w].
    Then the visitor of [v] is never invoked and the context is
    cancelled once the goroutine of [w] has returned; but the
    coordinator never counts down to zero, so [visit] does not return:
    no execution reaches a state where it has, with that error or with
    any other value. *)
Theorem gated_failure_never_returns (d : direction) (n : Z) (g : Graph)
    (tr : list event) (s : state) (w v : string) (e : error) :
  graph_wf g →
  status_at g w = Some (adjacentServiceStatusToSkip (directed d n)) →
  reachable (directed d n) g tr s →
  (w, Some e) ∈ visited_with tr → w ∈ gating d g v →
  (v ∉ invoked tr)
  ∧ (∀ err, main s ≠ MainReturned err)
  ∧ (EvFinish w (Some e) ∈ tr → ctx_cancelled s = true ∧ eg_err s ≠ None).
Proof.
  intros Hwf Hinit Hreach Hfail Hgate.
  pose proof (shape_reachable d n g Hwf _ _ Hreach) as Hshape.
  pose proof (token_reachable d n g Hwf _ _ Hreach) as Htok.
  pose proof (result_reachable d n g Hwf _ _ Hreach) as Hres.
  pose proof (ready_reachable d n g Hwf _ _ Hreach) as Hready.
  pose proof (gated_never_seen d n g _ _ _ _ _ Htok Hres Hready Hinit Hfail Hgate)
    as Hseen.
  assert (Hv : v ∈ keys g).
  { apply vertex_at_is_Some. unfold gating in Hgate.
    destruct (vertex_at g v); [done|inversion Hgate]. }
  split_and!.
  - intros Hin. apply Hseen. eapply elem_of_submseteq; [done|].
    by apply invoked_seen with (g0 := g).
  - intros err Hmain. apply Hseen.
    destruct (returned_all g _ _ _ Hshape Htok Hmain) as (Hall & _ & _).
    by rewrite Hall.
  - intros Hfin. pose proof (res_failed _ _ _ _ Hres _ _ Hfin) as Herr.
    split; [|done]. by apply (res_cancel _ _ _ _ Hres).
Qed.
End TraversalFacts.

(** *** The diamond *)

Module DiamondFacts.
Import Traversal TraversalNotions Schedule TraversalFacts.

Lemma diamond_graph_wf : graph_wf diamond_graph.
Proof. apply graph_wfb_sound. vm_compute. reflexivity. Qed.

Lemma diamond_reachable (schedule : list choice) (tr : list event) (s : state) :
  run upDirectionTraversal (start upDirectionTraversal diamond_graph) schedule
  = Some (tr, s) →
  reachable (directed Up 0) diamond_graph (diamond_after schedule).1
    (diamond_after schedule).2.
Proof.
  intros Hrun. unfold diamond_after. rewrite Hrun. simpl.
  by apply (schedule_reachable upDirectionTraversal diamond_graph schedule).
Qed.

Lemma visitor_invoked_once_witness :
  let after := diamond_after diamond_success in
  NoDup (invoked after.1)
  ∧ invoked after.1 ⊆ keys diamond_graph
  ∧ ∀ err, main after.2 = MainReturned err → invoked after.1 ≡ₚ keys diamond_graph.
Proof.
  intros after.
  apply (visitor_invoked_once Up 0 diamond_graph after.1 after.2).
  - apply graph_wfb_sound. vm_compute. reflexivity.
  - eapply diamond_reachable. vm_compute. reflexivity.
Defined.

Lemma visitor_invoked_when_ready_witness :
  let before := diamond_after diamond_before_B in
  let after := diamond_after (diamond_before_B ++ [Worker 0 None]) in
  filterAdjacentByStatusFn (directed Up 0) (graph before.2) "B" ServiceStopped = Ret []
  ∧ (∀ c, c ∈ gating Up diamond_graph "B" →
       status_at (graph before.2) c = Some ServiceStarted)
  ∧ (∀ v, vertex_at diamond_graph "B" = Some v →
       ∀ c, c ∈ Children v → status_at (graph before.2) c = Some ServiceStarted)
  ∧ checked_ready Up diamond_graph before.1 "B".
Proof.
  intros before after.
  apply (visitor_invoked_when_ready Up 0 diamond_graph before.1 before.2 "B" after.2).
  - apply graph_wfb_sound. vm_compute. reflexivity.
  - eapply diamond_reachable. vm_compute. reflexivity.
  - apply (exec_step _ _ (Worker 0 None)). vm_compute. reflexivity.
Defined.

Lemma traversal_success_reaches_target_witness :
  let after := diamond_after diamond_success in
  (main after.2 = MainReturned None →
     ∀ k, k ∈ keys diamond_graph → status_at (graph after.2) k = Some ServiceStarted)
  ∧ (length (Vertices diamond_graph) = 0 →
     (∀ s0, initial (directed Up 0) diamond_graph s0 → main s0 = MainReturned None)
     ∧ main after.2 = MainReturned None ∧ invoked after.1 = []).
Proof.
  intros after.
  apply (traversal_success_reaches_target Up 0 diamond_graph after.1 after.2).
  - apply graph_wfb_sound. vm_compute. reflexivity.
  - eapply diamond_reachable. vm_compute. reflexivity.
Defined.

(** The successful run of the diamond does return nil, with every
    visitor invoked, [D] first and [A] last. *)
Lemma diamond_success_returns :
  let after := diamond_after diamond_success in
  main after.2 = MainReturned None ∧ invoked after.1 = ["D"; "B"; "C"; "A"].
Proof. vm_compute. done. Qed.

Lemma gated_failure_never_returns_witness :
  let after := diamond_after diamond_failure in
  ("A" ∉ invoked after.1)
  ∧ (∀ err, main after.2 ≠ MainReturned err)
  ∧ (EvFinish "C" (Some X) ∈ after.1 →
     ctx_cancelled after.2 = true ∧ eg_err after.2 ≠ None).
Proof.
  intros after.
  apply (gated_failure_never_returns Up 0 diamond_graph after.1 after.2 "C" "A" X).
  - apply graph_wfb_sound. vm_compute. reflexivity.
  - vm_compute. reflexivity.
  - eapply diamond_reachable. vm_compute. reflexivity.
  - assert (Hv : visited_with after.1 = [("D", None); ("B", None); ("C", Some X)])
      by (vm_compute; reflexivity).
    rewrite Hv. right. right. left.
  - assert (Hg : gating Up diamond_graph "A" = ["B"; "C"]) by (vm_compute; reflexivity).
    rewrite Hg. right. left.
Defined.

(** In the diamond with the visitor of [C] returning [X]: after [D],
    [B] and [C] are done the caller is in [eg.Wait()], the coordinator
    waits on [nodeCh] with [expect = 1], no goroutine is left to send,
    the group holds [X] and the context is cancelled.  No goroutine can
    move: [visit] hangs instead of returning [X]. *)
Lemma diamond_failure_hangs :
  let after := diamond_after diamond_failure in
  reachable (directed Up 0) diamond_graph after.1 after.2
  ∧ ("C", Some X) ∈ visited_with after.1
  ∧ main after.2 = MainWait ∧ coord after.2 = CoordRecv ∧ workers after.2 = []
  ∧ expect after.2 = 1%Z ∧ eg_err after.2 = Some X ∧ ctx_cancelled after.2 = true
  ∧ invoked after.1 = ["D"; "B"; "C"]
  ∧ stuck (directed Up 0) after.2.
Proof.
  intros after.
  assert (Hmain : main after.2 = MainWait) by (vm_compute; reflexivity).
  assert (Hcoord : coord after.2 = CoordRecv) by (vm_compute; reflexivity).
  assert (Hws : workers after.2 = []) by (vm_compute; reflexivity).
  assert (Hclosed : closed after.2 = false) by (vm_compute; reflexivity).
  assert (Hv : visited_with after.1 = [("D", None); ("B", None); ("C", Some X)])
    by (vm_compute; reflexivity).
  split; [|split; [|split; [exact Hmain|split; [exact Hcoord|split; [exact Hws|]]]]].
  - eapply diamond_reachable. vm_compute. reflexivity.
  - rewrite Hv. right. right. left.
  - split; [vm_compute; reflexivity|]. split; [vm_compute; reflexivity|].
    split; [vm_compute; reflexivity|]. split; [vm_compute; reflexivity|].
    revert Hmain Hcoord Hws Hclosed. generalize (after.2). clear after Hv.
    intros s Hmain Hcoord Hws Hclosed ev s' Hstep.
    inversion Hstep as
      [s0 pc ev0 s1 pc' Hm Hrun|s0 Hm|s0 Hm|s0 ws1 node0 err ws2 Hc Hcl Hw
      |s0 node0 Hc|s0 node0 adj nodes Hc|s0 node0 Hc|s0 pc ev0 s1 pc' Hc Hrun
      |s0 Hc|s0 Hc Hcl|s0 ws1 node0 ws2 Hw|s0 ws1 node0 ws2 err Hw
      |s0 ws1 node0 ws2 g' Hw|s0 ws1 node0 ws2 Hw|s0 ws1 node0 ws2 e Hw
      |s0 ws1 node0 err ws2 Hcl Hw|s0 ws1 node0 err ws2 Hw|s0]; subst;
      try congruence;
      try (rewrite Hws in Hw; by destruct ws1).
Qed.
End DiamondFacts.

(** * Further properties of the graph *)

Module GraphFacts.

(** X1.  [AddEdge] twice is [AddEdge] once: the second call finds the edge
    (or the same missing vertex) and leaves the graph as the first made
    it. *)
Theorem AddEdge_idempotent (g : Graph) (source destination : string) :
  AddEdge (AddEdge g source destination).1 source destination
  = AddEdge g source destination.
Proof.
  destruct (vertex_at g source) as [sv|] eqn:Hs; cycle 1.
  { apply vertex_at_None in Hs. rewrite (AddEdge_unknown_source g) by done.
    simpl. by rewrite AddEdge_unknown_source. }
  assert (Hsk : source ∈ keys g) by (apply vertex_at_is_Some; eauto).
  destruct (vertex_at g destination) as [dv|] eqn:Hd; cycle 1.
  { apply vertex_at_None in Hd. rewrite (AddEdge_unknown_destination g) by done.
    simpl. by rewrite AddEdge_unknown_destination. }
  destruct (StringContains (Children sv) destination) eqn:Hc.
  { assert (Hsame : AddEdge g source destination = (g, None)).
    { unfold AddEdge, vertex_at in *. by rewrite Hs, Hd, Hc. }
    by rewrite Hsame. }
  pose proof (vertex_at_AddEdge g source destination source sv dv Hs Hd Hc) as Hs1.
  pose proof (vertex_at_AddEdge g source destination destination sv dv Hs Hd Hc) as Hd1.
  rewrite Hs in Hs1. rewrite Hd in Hd1. simpl in Hs1, Hd1.
  destruct (decide (source = source)); [|done].
  destruct (decide (destination = destination)); [|done].
  assert (Hnew : AddEdge g source destination
                 = ((AddEdge g source destination).1, None)).
  { unfold AddEdge, vertex_at in *. by rewrite Hs, Hd, Hc. }
  rewrite Hnew at 2.
  set (g1 := (AddEdge g source destination).1) in *.
  unfold AddEdge at 1. unfold vertex_at in Hs1, Hd1. rewrite Hs1, Hd1.
  assert (Hin : StringContains
            (Children ((if decide (destination = source) then add_parent source else id)
                         (add_child destination sv))) destination = true).
  { apply StringContains_elem_of.
    assert (destination ∈ key_add (Children sv) destination)
      by (apply elem_of_key_add; by right).
    by destruct (decide (destination = source)). }
  by rewrite Hin.
Qed.

(** X2.  The two filters split the neighbours of a vertex: each child is in
    the result for exactly one status. *)
Theorem FilterChildren_partition (g : Graph) (key : string) (v : Vertex) :
  graph_wf g → vertex_at g key = Some v →
  ∃ stopped started,
    FilterChildren g key ServiceStopped = Ret stopped
    ∧ FilterChildren g key ServiceStarted = Ret started
    ∧ stopped ++ started ≡ₚ Children v
    ∧ (∀ c, c ∈ stopped → status_at g c = Some ServiceStopped)
    ∧ (∀ c, c ∈ started → status_at g c = Some ServiceStarted).
Proof.
  intros Hwf Hv. eexists _, _.
  rewrite !(FilterChildren_Ret g key _ v Hwf Hv). split_and!; [done..| | |].
  - pose proof (wf_children g Hwf key v Hv) as Hsub.
    induction (Children v) as [|c cs IH]; [done|].
    assert (Hc : c ∈ keys g) by (apply Hsub; left).
    apply vertex_at_is_Some in Hc as [cv Hcv].
    specialize (IH ltac:(intros x Hx; apply Hsub; by right)).
    unfold status_at in *. rewrite !filter_cons. rewrite Hcv. simpl.
    destruct (Status cv); repeat case_decide; try congruence; simpl.
    + by rewrite IH.
    + rewrite <- Permutation_middle. by rewrite IH.
  - by intros c [? _]%list_elem_of_filter.
  - by intros c [? _]%list_elem_of_filter.
Qed.

Lemma FilterChildren_partition_witness :
  ∃ stopped started,
    FilterChildren (built diamond ServiceStopped) "A" ServiceStopped = Ret stopped
    ∧ FilterChildren (built diamond ServiceStopped) "A" ServiceStarted = Ret started
    ∧ stopped ++ started ≡ₚ ["B"; "C"]
    ∧ (∀ c, c ∈ stopped → status_at (built diamond ServiceStopped) c = Some ServiceStopped)
    ∧ (∀ c, c ∈ started → status_at (built diamond ServiceStopped) c = Some ServiceStarted).
Proof.
  apply (FilterChildren_partition (built diamond ServiceStopped) "A"
           {| Key := "A"; Service := "A"; Status := ServiceStopped;
              Children := ["B"; "C"]; Parents := [] |}).
  - apply graph_wfb_sound. vm_compute. reflexivity.
  - reflexivity.
Defined.

(** ** What [NewGraph] builds *)

Lemma AddEdge_cases (g : Graph) (s d : string) :
  (AddEdge g s d).1 = g
  ∨ ∃ sv dv, vertex_at g s = Some sv ∧ vertex_at g d = Some dv
       ∧ StringContains (Children sv) d = false.
Proof.
  unfold AddEdge, vertex_at.
  destruct (GoMap.get (Vertices g) s) as [sv|]; [|by left].
  destruct (GoMap.get (Vertices g) d) as [dv|]; [|by left].
  destruct (StringContains (Children sv) d) eqn:Hc; [by left|right; eauto].
Qed.

Lemma NoDup_key_add (m : list string) (k : string) : NoDup m → NoDup (key_add m k).
Proof.
  intros Hm. unfold key_add. destruct (StringContains m k) eqn:Hc; [done|].
  apply StringContains_false in Hc. apply NoDup_app. split_and!; [done| |apply NoDup_singleton].
  intros x Hx ->%list_elem_of_singleton. done.
Qed.

Lemma pedge_AddEdge_new (g : Graph) (s d : string) (sv dv : Vertex) (b a : string) :
  vertex_at g s = Some sv → vertex_at g d = Some dv →
  StringContains (Children sv) d = false →
  pedge (AddEdge g s d).1 b a ↔ pedge g b a ∨ (a = s ∧ b = d).
Proof.
  intros Hs Hd Hc. unfold pedge. rewrite (vertex_at_AddEdge g s d b sv dv Hs Hd Hc).
  destruct (decide (d = b)) as [<-|Hne].
  - rewrite Hd. simpl. split.
    + intros (v' & [= <-] & Hin). simpl in Hin. apply elem_of_key_add in Hin.
      destruct (decide (s = d)); simpl in Hin; naive_solver.
    + intros Hin. eexists. split; [done|]. simpl. apply elem_of_key_add.
      destruct (decide (s = d)); simpl; naive_solver.
  - destruct (vertex_at g b) as [v|]; simpl; [|naive_solver].
    destruct (decide (s = b)); simpl; naive_solver.
Qed.

Lemma AddEdge_built_inv (st : ServiceStatus) (g : Graph) (s d : string) :
  built_inv st g → built_inv st (AddEdge g s d).1.
Proof.
  intros Hg. destruct (AddEdge_cases g s d) as [->|(sv & dv & Hs & Hd & Hc)]; [done|].
  destruct Hg as [Hwf Hf Hnd Hcons].
  assert (Hv : ∀ k v', vertex_at (AddEdge g s d).1 k = Some v' →
            ∃ v, vertex_at g k = Some v ∧ Service v' = Service v ∧ Status v' = Status v
              ∧ (Children v' = Children v ∨ Children v' = key_add (Children v) d)
              ∧ (Parents v' = Parents v ∨ Parents v' = key_add (Parents v) s)).
  { intros k v'. rewrite (vertex_at_AddEdge g s d k sv dv Hs Hd Hc).
    destruct (vertex_at g k) as [v|]; simpl; [|done]. intros [= <-]. exists v.
    destruct (decide (d = k)), (decide (s = k)); simpl; naive_solver. }
  split.
  - by apply AddEdge_wf.
  - intros k v' (v & Hk & -> & -> & _)%Hv. by apply Hf.
  - intros k v' (v & Hk & _ & _ & Hch & Hpa)%Hv. destruct (Hnd k v Hk) as [Hc1 Hp1].
    split; [destruct Hch as [->| ->]|destruct Hpa as [->| ->]];
      by try apply NoDup_key_add.
  - intros a b. rewrite gedge_AddEdge, (pedge_AddEdge_new g s d sv dv b a Hs Hd Hc).
    rewrite (Hcons a b).
    assert (s ∈ keys g) by (apply vertex_at_is_Some; eauto).
    assert (d ∈ keys g) by (apply vertex_at_is_Some; eauto).
    naive_solver.
Qed.

Lemma add_edges_of_built_inv (st : ServiceStatus) (s : ServiceConfig) (g : Graph) :
  built_inv st g → built_inv st (add_edges_of s g).
Proof.
  unfold add_edges_of. generalize (GetDependencies s). intros deps. revert g.
  induction deps as [|d deps IH]; intros g Hg; [done|].
  simpl. apply IH. by apply AddEdge_built_inv.
Qed.

Lemma add_edges_built_inv (st : ServiceStatus) (services : list ServiceConfig) (g : Graph) :
  built_inv st g → built_inv st (add_edges services g).
Proof.
  unfold add_edges. revert g.
  induction services as [|s ss IH]; intros g Hg; [done|].
  simpl. apply IH. by apply add_edges_of_built_inv.
Qed.

Lemma add_vertices_fresh (services : list ServiceConfig) (st : ServiceStatus) (g : Graph) :
  (∀ k v, vertex_at g k = Some v → v = NewVertex k k st) →
  ∀ k v, vertex_at (add_vertices services st g) k = Some v → v = NewVertex k k st.
Proof.
  unfold add_vertices. revert g.
  induction services as [|s ss IH]; intros g Hg; [done|].
  simpl. apply IH. intros k v. rewrite vertex_at_AddVertex.
  case_decide; [naive_solver|apply Hg].
Qed.

Lemma built_built_inv (services : list ServiceConfig) (st : ServiceStatus) :
  built_inv st (built services st).
Proof.
  apply add_edges_built_inv.
  pose proof (add_vertices_fresh services st {| Vertices := [] |}) as Hfresh.
  specialize (Hfresh ltac:(done)).
  split.
  - apply add_vertices_wf, graph_wf_empty.
  - by intros k v ->%Hfresh.
  - intros k v ->%Hfresh. simpl. split; apply NoDup_nil_2.
  - intros a b. unfold gedge, pedge. split.
    + intros (v & Hv & Hin). apply Hfresh in Hv as ->. simpl in Hin. inversion Hin.
    + intros (v & Hv & Hin). apply Hfresh in Hv as ->. simpl in Hin. inversion Hin.
Qed.

(** X3.  The graph [NewGraph] returns has one vertex for each service name,
    with the name as key and as service and with the initial status; the
    children of a vertex are the dependencies its service declares among
    the services of the project, its parents are the services that
    declare it, and neither holds a key twice. *)
Theorem NewGraph_structure (services : list ServiceConfig) (st : ServiceStatus) (g : Graph) :
  NewGraph services st = Ret (Some g, None) →
  NoDup (keys g)
  ∧ (∀ k, k ∈ keys g ↔ k ∈ names services)
  ∧ ∀ k v, vertex_at g k = Some v →
      Key v = k ∧ Service v = k ∧ Status v = st
      ∧ NoDup (Children v) ∧ NoDup (Parents v)
      ∧ (∀ b, b ∈ Children v ↔ dep_edge services k b ∧ b ∈ names services)
      ∧ (∀ a, a ∈ Parents v ↔ dep_edge services a k).
Proof.
  intros Hnew.
  assert (g = built services st) as ->.
  { destruct (NewGraph_total services st) as [[Hb _]|(p & Hp & _)]; congruence. }
  destruct (built_built_inv services st) as [Hwf Hf Hnd Hcons].
  split; [apply Hwf|]. split; [apply keys_built|].
  intros k v Hv. destruct (Hf k v Hv) as [Hsv Hst]. destruct (Hnd _ v Hv) as [Hc Hp].
  split_and!; try done.
  - by apply (wf_key _ Hwf).
  - intros b. rewrite <- gedge_built. unfold gedge. rewrite Hv. naive_solver.
  - intros a. transitivity (pedge (built services st) k a).
    { unfold pedge. rewrite Hv. naive_solver. }
    rewrite <- (Hcons a k), gedge_built.
    assert (k ∈ names services)
      by (apply (keys_built services st), vertex_at_is_Some; eauto).
    naive_solver.
Qed.

Lemma NewGraph_structure_witness :
  NoDup (keys (built diamond ServiceStopped))
  ∧ (∀ k, k ∈ keys (built diamond ServiceStopped) ↔ k ∈ names diamond)
  ∧ ∀ k v, vertex_at (built diamond ServiceStopped) k = Some v →
      Key v = k ∧ Service v = k ∧ Status v = ServiceStopped
      ∧ NoDup (Children v) ∧ NoDup (Parents v)
      ∧ (∀ b, b ∈ Children v ↔ dep_edge diamond k b ∧ b ∈ names diamond)
      ∧ (∀ a, a ∈ Parents v ↔ dep_edge diamond a k).
Proof.
  apply (NewGraph_structure diamond ServiceStopped). vm_compute. reflexivity.
Defined.

(** ** Cycles *)

Lemma dep_cycle_gedge (services : list ServiceConfig) (st : ServiceStatus) (p : list string) :
  cycle (dep_edge services) p ↔ cycle (gedge (built services st)) p.
Proof.
  split; intros Hc; destruct Hc as (Hw & Hlen & Hhl).
  - split; [|done]. eapply walk_impl_elem; [|exact Hw].
    intros x y _ Hy Hxy. apply gedge_built. split; [done|].
    destruct (cycle_successor _ p y (conj Hw (conj Hlen Hhl)) Hy) as (z & s & Hs & <- & _).
    by apply list_elem_of_fmap_2.
  - split; [|done]. eapply walk_impl; [|exact Hw].
    by intros x y [? _]%gedge_built.
Qed.

(** X4.  [HasCycles] decides whether a graph made by the constructors has a
    cycle: it returns false with no error exactly when no closed walk
    exists, and true with a [cycle found] error, whose path is a walk of
    the graph that ends in a cycle, exactly when one exists. It never
    fails in another way. *)
Theorem HasCycles_decides (g : Graph) :
  graph_wf g →
  (HasCycles g = Ret (false, None) ↔ ∀ p, ¬ cycle (gedge g) p)
  ∧ ((∃ path pre cyc, HasCycles g = Ret (true, Some (CycleFound path))
        ∧ walk (gedge g) path ∧ path = pre ++ cyc ∧ cycle (gedge g) cyc)
     ↔ ∃ p, cycle (gedge g) p).
Proof.
  intros Hwf. destruct (HasCycles_spec g Hwf) as [[Hf Hsn]|(p & Hp & Hw & Hcl)].
  - pose proof (HasCycles_false_acyclic g Hwf Hf) as Hno. split; [done|].
    split; [|naive_solver]. intros (path & _ & _ & Hp & _). congruence.
  - destruct (closes_cycle _ p Hw Hcl) as (pre & cyc & Hpc & Hcyc). split.
    + split; [congruence|]. intros Hno. by destruct (Hno cyc).
    + split; [eauto|]. intros _. exists p, pre, cyc. done.
Qed.

Lemma HasCycles_decides_witness :
  (HasCycles (built lasso ServiceStopped) = Ret (false, None)
     ↔ ∀ p, ¬ cycle (gedge (built lasso ServiceStopped)) p)
  ∧ ((∃ path pre cyc,
        HasCycles (built lasso ServiceStopped) = Ret (true, Some (CycleFound path))
        ∧ walk (gedge (built lasso ServiceStopped)) path ∧ path = pre ++ cyc
        ∧ cycle (gedge (built lasso ServiceStopped)) cyc)
     ↔ ∃ p, cycle (gedge (built lasso ServiceStopped)) p).
Proof.
  apply (HasCycles_decides (built lasso ServiceStopped)).
  apply graph_wfb_sound. vm_compute. reflexivity.
Defined.

(** X5.  [NewGraph] returns a graph exactly when the declared dependencies
    have no cycle, for every initial status; otherwise it returns no
    graph and a [cycle found] error. *)
Theorem NewGraph_graph_iff_acyclic (services : list ServiceConfig) (st : ServiceStatus) :
  ((∃ g, NewGraph services st = Ret (Some g, None))
     ↔ ∀ p, ¬ cycle (dep_edge services) p)
  ∧ ((∃ path, NewGraph services st = Ret (None, Some (CycleFound path)))
     ↔ ∃ p, cycle (dep_edge services) p).
Proof.
  destruct (NewGraph_total services st) as [[Hb Hno]|(p & Hp & Hw & Hcl)].
  - assert (Hno' : ∀ p, ¬ cycle (dep_edge services) p).
    { intros p Hc%(dep_cycle_gedge services st). by apply (Hno p). }
    split; [naive_solver|]. split; [|naive_solver]. intros [path Hpath]. congruence.
  - destruct (closes_cycle _ p Hw Hcl) as (pre & cyc & Hpc & Hcyc).
    apply dep_cycle_gedge in Hcyc. split.
    + split; [intros [g Hg]; congruence|]. intros Hno. by destruct (Hno cyc).
    + split; eauto.
Qed.

(** ** Leaves and roots *)

Lemma elem_of_Leaves (g : Graph) (k : string) :
  graph_wf g → k ∈ Leaves g ↔ ∃ v, vertex_at g k = Some v ∧ Children v = [].
Proof.
  intros Hwf. unfold Leaves. rewrite list_elem_of_fmap. split.
  - intros ([k' v] & -> & [Hlen Hin]%list_elem_of_filter). simpl in *.
    exists v. split; [by apply GoMapFacts.elem_get; [apply Hwf|]|].
    by destruct (Children v).
  - intros (v & Hv & Hc). exists (k, v). split; [done|].
    apply list_elem_of_filter. simpl. rewrite Hc. split; [done|].
    by apply GoMapFacts.get_Some_elem.
Qed.

Lemma elem_of_Roots (g : Graph) (k : string) :
  graph_wf g → k ∈ Roots g ↔ ∃ v, vertex_at g k = Some v ∧ Parents v = [].
Proof.
  intros Hwf. unfold Roots. rewrite list_elem_of_fmap. split.
  - intros ([k' v] & -> & [Hlen Hin]%list_elem_of_filter). simpl in *.
    exists v. split; [by apply GoMapFacts.elem_get; [apply Hwf|]|].
    by destruct (Parents v).
  - intros (v & Hv & Hc). exists (k, v). split; [done|].
    apply list_elem_of_filter. simpl. rewrite Hc. split; [done|].
    by apply GoMapFacts.get_Some_elem.
Qed.

Lemma descend_to_leaf (g : Graph) (k : string) :
  graph_wf g → sn (gedge g) k → k ∈ keys g →
  ∃ l, l ∈ Leaves g ∧ rtc (gedge g) k l.
Proof.
  intros Hwf Hsn. induction Hsn as [k _ IH]. intros [v Hv]%vertex_at_is_Some.
  destruct (Children v) as [|c cs] eqn:Hc.
  - exists k. split; [apply elem_of_Leaves; eauto|done].
  - assert (Hkc : gedge g k c) by (exists v; rewrite Hc; split; [done|left]).
    destruct (IH c Hkc) as (l & Hl & Hcl).
    { apply (wf_children g Hwf k v Hv). rewrite Hc. left. }
    exists l. split; [done|]. by eapply rtc_l.
Qed.

Lemma ascend_to_root (g : Graph) (k : string) :
  graph_wf g → sn (pedge g) k → k ∈ keys g →
  ∃ r, r ∈ Roots g ∧ rtc (pedge g) k r.
Proof.
  intros Hwf Hsn. induction Hsn as [k _ IH]. intros [v Hv]%vertex_at_is_Some.
  destruct (Parents v) as [|c cs] eqn:Hc.
  - exists k. split; [apply elem_of_Roots; eauto|done].
  - assert (Hkc : pedge g k c) by (exists v; rewrite Hc; split; [done|left]).
    destruct (IH c Hkc) as (l & Hl & Hcl).
    { apply (wf_parents g Hwf k v Hv). rewrite Hc. left. }
    exists l. split; [done|]. by eapply rtc_l.
Qed.

Lemma get_reverse (m : list (string * Vertex)) (k : string) :
  GoMap.get (prod_map id reverse_vertex <$> m) k = reverse_vertex <$> GoMap.get m k.
Proof.
  induction m as [|[k' v] m IH]; [done|]. csimpl.
  by destruct (String.eqb k k').
Qed.

Lemma keys_reverse_graph (g : Graph) : keys (reverse_graph g) = keys g.
Proof.
  unfold keys, GoMap.keys, reverse_graph. simpl. rewrite <- list_fmap_compose.
  apply list_fmap_ext. by intros _ [? ?] _.
Qed.

Lemma vertex_at_reverse_graph (g : Graph) (k : string) :
  vertex_at (reverse_graph g) k = reverse_vertex <$> vertex_at g k.
Proof. apply get_reverse. Qed.

Lemma reverse_graph_wf (g : Graph) : graph_wf g → graph_wf (reverse_graph g).
Proof.
  intros [Hk Hkey Hch Hpa]. split.
  - by rewrite keys_reverse_graph.
  - intros k v'. rewrite vertex_at_reverse_graph.
    destruct (vertex_at g k) as [v|] eqn:Hv; [|done]. intros [= <-]. simpl. by apply Hkey.
  - intros k v'. rewrite vertex_at_reverse_graph, keys_reverse_graph.
    destruct (vertex_at g k) as [v|] eqn:Hv; [|done]. intros [= <-]. simpl. by eapply Hpa.
  - intros k v'. rewrite vertex_at_reverse_graph, keys_reverse_graph.
    destruct (vertex_at g k) as [v|] eqn:Hv; [|done]. intros [= <-]. simpl. by eapply Hch.
Qed.

Lemma gedge_reverse_graph (g : Graph) (a b : string) :
  gedge (reverse_graph g) a b ↔ pedge g a b.
Proof.
  unfold gedge, pedge. rewrite vertex_at_reverse_graph.
  destruct (vertex_at g a) as [v|]; simpl; [|naive_solver]. split.
  - intros (v' & [= <-] & Hin). eauto.
  - intros (v' & [= <-] & Hin). by exists (reverse_vertex v).
Qed.

Lemma walk_reverse R (p : list string) : walk R p → walk (flip R) (reverse p).
Proof.
  induction 1 as [x|x y p Hxy Hw IH]; [apply walk_one|].
  rewrite reverse_cons. eapply walk_snoc; [exact IH| |exact Hxy].
  by rewrite last_reverse.
Qed.

Lemma cycle_reverse R (p : list string) : cycle R p → cycle (flip R) (reverse p).
Proof.
  intros (Hw & Hlen & Hhl). split; [by apply walk_reverse|].
  rewrite length_reverse, head_reverse, last_reverse. done.
Qed.

Lemma sn_iff (R R' : string → string → Prop) (x : string) :
  (∀ a b, R a b ↔ R' a b) → sn R x → sn R' x.
Proof.
  intros HR Hsn. induction Hsn as [x _ IH]. constructor.
  intros y Hy. apply IH. unfold flip in *. by apply HR.
Qed.

Lemma acyclic_sn (g : Graph) (k : string) :
  graph_wf g → (∀ p, ¬ cycle (gedge g) p) → k ∈ keys g → sn (gedge g) k.
Proof.
  intros Hwf Hno Hk. destruct (HasCycles_spec g Hwf) as [[_ Hsn]|(p & _ & Hw & Hcl)].
  - by apply Hsn.
  - destruct (closes_cycle _ p Hw Hcl) as (pre & cyc & _ & Hcyc). by destruct (Hno cyc).
Qed.

Lemma acyclic_sn_parents (g : Graph) (k : string) :
  graph_wf g → consistent g → (∀ p, ¬ cycle (gedge g) p) → k ∈ keys g → sn (pedge g) k.
Proof.
  intros Hwf Hcons Hno Hk.
  apply (sn_iff (gedge (reverse_graph g))); [apply gedge_reverse_graph|].
  apply acyclic_sn; [by apply reverse_graph_wf| |by rewrite keys_reverse_graph].
  intros p Hp%cycle_reverse. apply (Hno (reverse p)).
  destruct Hp as (Hw & Hrest). split; [|done].
  eapply walk_impl; [|exact Hw]. intros x y Hxy. unfold flip in Hxy.
  apply Hcons. by apply gedge_reverse_graph.
Qed.

(** X6.  In a graph returned by [NewGraph], following children from any
    vertex ends in a leaf and following parents ends in a root: every
    service is above some leaf and below some root, so a project with a
    service has at least one leaf and one root. *)
Theorem NewGraph_extremities (services : list ServiceConfig) (st : ServiceStatus)
    (g : Graph) (k : string) :
  NewGraph services st = Ret (Some g, None) → k ∈ names services →
  (∃ l, l ∈ Leaves g ∧ rtc (gedge g) k l)
  ∧ (∃ r, r ∈ Roots g ∧ rtc (gedge g) r k).
Proof.
  intros Hnew Hk.
  destruct (NewGraph_total services st) as [[Hb Hno]|(p & Hp & _)]; [|congruence].
  assert (g = built services st) as -> by congruence.
  destruct (built_built_inv services st) as [Hwf _ _ Hcons].
  apply (keys_built services st) in Hk. split.
  - apply descend_to_leaf; [done| |done]. by apply acyclic_sn.
  - destruct (ascend_to_root _ k Hwf) as (r & Hr & Hkr); [|done|].
    { by apply acyclic_sn_parents. }
    exists r. split; [done|].
    clear -Hkr Hcons. induction Hkr as [|x y z Hxy _ IH]; [done|].
    eapply rtc_r; [exact IH|]. by apply Hcons.
Qed.

Lemma NewGraph_extremities_witness :
  (∃ l, l ∈ Leaves (built diamond ServiceStopped)
        ∧ rtc (gedge (built diamond ServiceStopped)) "B" l)
  ∧ (∃ r, r ∈ Roots (built diamond ServiceStopped)
          ∧ rtc (gedge (built diamond ServiceStopped)) r "B").
Proof.
  apply (NewGraph_extremities diamond ServiceStopped (built diamond ServiceStopped) "B").
  - vm_compute. reflexivity.
  - vm_compute. set_solver.
Defined.

(** ** Status updates *)

(** X7.  [UpdateStatus] changes the status of the one vertex and nothing
    else: the keys, their order, every other vertex, every child and
    parent set, and so the leaves and roots, stay as they were. *)
Theorem UpdateStatus_frame (g g' : Graph) (key : string) (status : ServiceStatus) :
  UpdateStatus g key status = Ret g' →
  keys g' = keys g
  ∧ status_at g' key = Some status
  ∧ (∀ k, k ≠ key → vertex_at g' k = vertex_at g k)
  ∧ (∀ k, Children <$> vertex_at g' k = Children <$> vertex_at g k)
  ∧ (∀ k, Parents <$> vertex_at g' k = Parents <$> vertex_at g k)
  ∧ Leaves g' = Leaves g ∧ Roots g' = Roots g.
Proof.
  intros Hup. pose proof (vertex_at_UpdateStatus g g' key status) as Hv.
  split_and!.
  - by eapply keys_UpdateStatus.
  - unfold status_at. rewrite (Hv key Hup). rewrite decide_True by done.
    unfold UpdateStatus in Hup. unfold vertex_at.
    by destruct (GoMap.get (Vertices g) key).
  - intros k Hk. rewrite (Hv k Hup). rewrite decide_False by done.
    by destruct (vertex_at g k).
  - intros k. rewrite (Hv k Hup). case_decide; by destruct (vertex_at g k).
  - intros k. rewrite (Hv k Hup). case_decide; by destruct (vertex_at g k).
  - unfold UpdateStatus in Hup.
    destruct (GoMap.get (Vertices g) key); [|done]. injection Hup as <-.
    unfold Leaves. simpl. clear. induction (Vertices g) as [|[k v] m IH]; [done|].
    simpl. destruct (String.eqb key k); rewrite !filter_cons; simpl;
      case_decide; csimpl; by rewrite ?IH.
  - unfold UpdateStatus in Hup.
    destruct (GoMap.get (Vertices g) key); [|done]. injection Hup as <-.
    unfold Roots. simpl. clear. induction (Vertices g) as [|[k v] m IH]; [done|].
    simpl. destruct (String.eqb key k); rewrite !filter_cons; simpl;
      case_decide; csimpl; by rewrite ?IH.
Qed.

Lemma UpdateStatus_frame_witness :
  let g := built diamond ServiceStopped in
  let g' := {| Vertices := GoMap.alter (set_status ServiceStarted) (Vertices g) "D" |} in
  keys g' = keys g
  ∧ status_at g' "D" = Some ServiceStarted
  ∧ (∀ k, k ≠ "D" → vertex_at g' k = vertex_at g k)
  ∧ (∀ k, Children <$> vertex_at g' k = Children <$> vertex_at g k)
  ∧ (∀ k, Parents <$> vertex_at g' k = Parents <$> vertex_at g k)
  ∧ Leaves g' = Leaves g ∧ Roots g' = Roots g.
Proof.
  intros g g'. apply (UpdateStatus_frame g g' "D" ServiceStarted).
  vm_compute. reflexivity.
Defined.
End GraphFacts.

(** * Further properties of the traversals *)

Module OrderingFacts.
Import Traversal TraversalNotions Schedule TraversalFacts Ordering.

(** ** Executions and their prefixes *)

Lemma reachable_split (t : graphTraversal) (g : Graph) (tr1 : list event) (ev : event)
    (tr2 : list event) (s : state) :
  reachable t g (tr1 ++ ev :: tr2) s →
  ∃ s1 s1', reachable t g tr1 s1 ∧ step t s1 ev s1' ∧ reachable t g (tr1 ++ [ev]) s1'.
Proof.
  revert s. induction tr2 as [|x tr2 IH] using rev_ind; intros s Hr.
  - inversion Hr as [? Hi Htr|tr s0 ev0 ? Hr0 Hstep Htr]; [by destruct tr1|].
    apply app_inj_tail in Htr as [-> ->]. eauto.
  - inversion Hr as [? Hi Htr|tr s0 ev0 ? Hr0 Hstep Htr]; [by destruct tr1|].
    rewrite app_comm_cons, app_assoc in Htr. apply app_inj_tail in Htr as [-> ->].
    by eapply IH.
Qed.

Lemma run_step_event (t : graphTraversal) (s : state) (pc : run_pc) (ev : event)
    (s' : state) (pc' : run_pc) :
  run_step t s pc ev s' pc' →
  match ev with
  | EvCheck _ _ | EvConsume _ _ | EvGo _ => panicked s' = panicked s
  | EvPanic => panicked s' = true
  | _ => False
  end.
Proof. by inversion 1. Qed.

Lemma step_invoke_inv (t : graphTraversal) (s : state) (node : string) (s' : state) :
  step t s (EvInvoke node) s' → ∃ ws1 ws2, workers s = ws1 ++ (node, WStart) :: ws2.
Proof.
  inversion 1; subst; eauto;
    match goal with H : run_step _ _ _ _ _ _ |- _ => by apply run_step_event in H end.
Qed.

Lemma step_finish_inv (t : graphTraversal) (s : state) (node : string)
    (err : option error) (s' : state) :
  step t s (EvFinish node err) s' → ∃ ws1 ws2, workers s = ws1 ++ (node, WSent err) :: ws2.
Proof.
  inversion 1; subst; eauto;
    match goal with H : run_step _ _ _ _ _ _ |- _ => by apply run_step_event in H end.
Qed.

Lemma step_panic_inv (t : graphTraversal) (s : state) (s' : state) :
  step t s EvPanic s' → panicked s' = true.
Proof.
  inversion 1; subst; try done.
  all: match goal with H : run_step _ _ _ _ _ _ |- _ => by apply run_step_event in H end.
Qed.

Section executions.
Variables (d : direction) (n : Z) (g0 : Graph).
Hypothesis Hwf0 : graph_wf g0.

Local Abbreviation t := (directed d n).

(** Before the visitor of [a] is called, the visitor of each neighbour
    [a] waits for has returned nil, unless that neighbour had the target
    status from the start. *)
Lemma invoke_after_gating (tr1 tr2 : list event) (s : state) (a c : string) :
  reachable t g0 (tr1 ++ EvInvoke a :: tr2) s →
  c ∈ gating d g0 a → status_at g0 c ≠ Some (targetServiceStatus t) →
  (c, None) ∈ visited_with tr1.
Proof.
  intros Hr Hc Hst.
  destruct (reachable_split _ _ _ _ _ _ Hr) as (s1 & s1' & Hr1 & Hstep & _).
  destruct (step_invoke_inv _ _ _ _ Hstep) as (ws1 & ws2 & Hws).
  pose proof (token_reachable d n g0 Hwf0 _ _ Hr1) as Htok.
  pose proof (result_reachable d n g0 Hwf0 _ _ Hr1) as Hres.
  pose proof (ready_reachable d n g0 Hwf0 _ _ Hr1) as Hready.
  assert (Ha : a ∈ seen s1).
  { rewrite (tok_seen _ _ _ Htok). unfold holders. rewrite Hws, fmap_app, fmap_cons.
    simpl. rewrite !elem_of_app, elem_of_cons. naive_solver. }
  destruct (ready_seen _ _ _ _ Hready _ Ha) as (tra & trb & Htr & Hg).
  destruct (Hg c Hc) as [Hup|Hinit]; [|done].
  apply (res_updated _ _ _ _ Hres). rewrite Htr. unfold updated in *.
  rewrite omap_app. apply elem_of_app. by left.
Qed.

(** The goroutine of a node returns what its visitor returned. *)
Lemma finish_visited (tr : list event) (s : state) (node : string) (err : option error) :
  reachable t g0 tr s → EvFinish node err ∈ tr → (node, err) ∈ visited_with tr.
Proof.
  intros Hr (tr1 & tr2 & ->)%list_elem_of_split.
  destruct (reachable_split _ _ _ _ _ _ Hr) as (s1 & s1' & Hr1 & Hstep & _).
  destruct (step_finish_inv _ _ _ _ _ Hstep) as (ws1 & ws2 & Hws).
  pose proof (result_reachable d n g0 Hwf0 _ _ Hr1) as Hres.
  unfold visited_with. rewrite omap_app. apply elem_of_app. left.
  apply (res_worker _ _ _ _ Hres node (WSent err)); [|done].
  rewrite Hws. apply elem_of_app. right. left.
Qed.

Lemma failures_snoc (tr : list event) (ev : event) :
  failures (tr ++ [ev]) = failures tr ++ failures [ev].
Proof. unfold failures. by rewrite omap_app. Qed.

Lemma elem_of_failures (tr : list event) (e : error) :
  e ∈ failures tr ↔ ∃ node, EvFinish node (Some e) ∈ tr.
Proof.
  unfold failures. rewrite list_elem_of_omap. split.
  - intros (ev & Hev & Hsome). destruct ev as [| | | | | | |node [e'|]| | | |]; try done.
    injection Hsome as ->. eauto.
  - intros (node & Hev). by exists (EvFinish node (Some e)).
Qed.

(** The group keeps the first error a goroutine returned. *)
Lemma first_error (tr : list event) (s : state) :
  reachable t g0 tr s → eg_err s = head (failures tr).
Proof.
  induction 1 as [s Hinit|tr s ev s' Hreach IH Hstep].
  - by destruct Hinit.
  - rewrite failures_snoc.
    destruct Hstep as
      [s pc ev s1 pc' Hm Hrun|s Hm|s Hm Hc Hw|s ws1 node err ws2 Hc Hcl Hw
      |s node Hc He|s node adj nodes Hc He Ha Hp|s node Hc He Ha
      |s pc ev s1 pc' Hc Hrun|s Hc|s Hc Hcl|s ws1 node ws2 Hw|s ws1 node ws2 err Hw
      |s ws1 node ws2 g' Hw Hu|s ws1 node ws2 Hw Hu|s ws1 node ws2 e Hw
      |s ws1 node err ws2 Hcl Hw|s ws1 node err ws2 Hw|s];
      try (destruct Hrun); simpl; rewrite ?app_nil_r; try done.
    destruct err as [e|]; simpl; rewrite ?app_nil_r; [|done].
    unfold group_done. simpl. rewrite IH.
    by destruct (failures tr).
Qed.

Lemma active_group_done (s : state) (err : option error) :
  active (group_done s err) = active s.
Proof. unfold group_done. by destruct err, (eg_err s). Qed.

(** The group never holds more goroutines than its limit. *)
Lemma within_limit (k : Z) (tr : list event) (s : state) :
  limit t = Some k → (1 ≤ k)%Z → reachable t g0 tr s → (active s ≤ k)%Z.
Proof.
  intros Hlim Hk. induction 1 as [s Hinit|tr s ev s' Hreach IH Hstep].
  - destruct Hinit; unfold active; simpl; lia.
  - destruct Hstep as
      [s pc ev s1 pc' Hm Hrun|s Hm|s Hm Hc Hw|s ws1 node err ws2 Hc Hcl Hw
      |s node Hc He|s node adj nodes Hc He Ha Hp|s node Hc He Ha
      |s pc ev s1 pc' Hc Hrun|s Hc|s Hc Hcl|s ws1 node ws2 Hw|s ws1 node ws2 err Hw
      |s ws1 node ws2 g' Hw Hu|s ws1 node ws2 Hw Hu|s ws1 node ws2 e Hw
      |s ws1 node err ws2 Hcl Hw|s ws1 node err ws2 Hw|s];
      try (destruct Hrun as [s node rest res Hf Hne|s node rest Hf|s node rest Hf
                            |s node rest Hin|s node rest Hnin|s node rest Hfree]);
      try (unfold slot_free in Hfree; rewrite Hlim in Hfree);
      rewrite ?active_group_done;
      unfold active in *; simpl in *;
      try rewrite Hw in *; try rewrite Hc in *;
      rewrite ?length_app in *; simpl in *; try lia.
Qed.
End executions.

(** ** No panic *)

(** X8.  On a graph made by the constructors no execution of a traversal
    panics: no status operation meets a missing vertex and no goroutine
    sends on [nodeCh] after it was closed.  The counter [expect] stays
    between zero and the number of vertices, and [nodeCh] is closed only
    once every vertex was received. *)
Theorem traversal_never_panics (d : direction) (n : Z) (g : Graph)
    (tr : list event) (s : state) :
  graph_wf g → reachable (directed d n) g tr s →
  (EvPanic ∉ tr) ∧ panicked s = false
  ∧ (0 ≤ expect s ≤ Z.of_nat (length (Vertices g)))%Z
  ∧ (closed s = true → received tr ≡ₚ keys g).
Proof.
  intros Hwf Hr.
  pose proof (shape_reachable d n g Hwf _ _ Hr) as Hshape.
  pose proof (token_reachable d n g Hwf _ _ Hr) as Htok.
  assert (Hsub : received tr ⊆+ keys g).
  { rewrite (tok_received _ _ _ Htok).
    etrans; [apply (held_submseteq g sent _ _ Htok)|].
    apply NoDup_submseteq; [apply (tok_nodup _ _ _ Htok)|apply (shape_seen _ _ Hshape)]. }
  split; [|split; [|split]].
  - intros (tr1 & tr2 & ->)%list_elem_of_split.
    destruct (reachable_split _ _ _ _ _ _ Hr) as (s1 & s1' & _ & Hstep & Hr1).
    apply step_panic_inv in Hstep.
    pose proof (tok_panicked _ _ _ (token_reachable d n g Hwf _ _ Hr1)). congruence.
  - apply (tok_panicked _ _ _ Htok).
  - rewrite (tok_expect _ _ _ Htok).
    apply submseteq_length in Hsub. rewrite length_keys in Hsub. lia.
  - intros Hclosed.
    pose proof (tok_done _ _ _ Htok (tok_closed _ _ _ Htok Hclosed)) as Hlen.
    apply submseteq_length_Permutation; [done|]. by rewrite length_keys, Hlen.
Qed.

Lemma traversal_never_panics_witness :
  let after := diamond_after diamond_success in
  (EvPanic ∉ after.1) ∧ panicked after.2 = false
  ∧ (0 ≤ expect after.2 ≤ Z.of_nat (length (Vertices diamond_graph)))%Z
  ∧ (closed after.2 = true → received after.1 ≡ₚ keys diamond_graph).
Proof.
  intros after.
  apply (traversal_never_panics Up 0 diamond_graph after.1 after.2).
  - apply graph_wfb_sound. vm_compute. reflexivity.
  - eapply DiamondFacts.diamond_reachable. vm_compute. reflexivity.
Defined.

Lemma execution_reachable (t : graphTraversal) (g : Graph) (schedule : list choice) :
  reachable t g (execution t g schedule).1 (execution t g schedule).2.
Proof.
  unfold execution. destruct (run t (start t g) schedule) as [[tr s]|] eqn:Hrun; simpl.
  - by eapply schedule_reachable.
  - apply reachable_initial, start_initial.
Qed.

(** ** The limit on concurrency *)

Lemma limit_directed (d : direction) (n : Z) :
  (0 < n < 2 ^ 63 - 1)%Z → limit (directed d n) = Some (n + 1)%Z.
Proof.
  intros Hn. unfold limit, directed. simpl. rewrite decide_True by lia.
  assert (int_wrap (n + 1) = (n + 1)%Z) as ->.
  { unfold int_wrap. rewrite Z.mod_small; lia. }
  by rewrite decide_False by lia.
Qed.

Lemma nodes_where_none (P : worker_pc → bool) (ws : list (string * worker_pc)) :
  (∀ w, w ∈ ws → P w.2 = false) → nodes_where P ws = [].
Proof.
  induction ws as [|[node pc] ws IH]; [done|]. intros Hws. simpl.
  pose proof (Hws (node, pc) ltac:(left)) as Hpc. simpl in Hpc. rewrite Hpc.
  apply IH. intros w Hw. apply Hws. by right.
Qed.

(** X9.  With [maxConcurrency] set to [n], between 1 and the largest [int]
    less one, the group is limited to [n + 1] goroutines, the
    coordinator among them, and at no time more than [n] visitors are
    running. *)
Theorem visitors_within_maxConcurrency (d : direction) (n : Z) (g : Graph)
    (tr : list event) (s : state) :
  graph_wf g → (0 < n < 2 ^ 63 - 1)%Z → reachable (directed d n) g tr s →
  limit (directed d n) = Some (n + 1)%Z
  ∧ (active s ≤ n + 1)%Z
  ∧ (Z.of_nat (length (nodes_where visiting (workers s))) ≤ n)%Z.
Proof.
  intros Hwf Hn Hr. pose proof (limit_directed d n Hn) as Hlim.
  pose proof (within_limit d n g (n + 1)%Z tr s Hlim ltac:(lia) Hr) as Hact.
  split; [done|]. split; [done|].
  assert (Hcases : coord s = CoordDone ∨ coord s ≠ CoordDone)
    by (destruct (coord s); auto).
  destruct Hcases as [Hc|Hc].
  - pose proof (shape_reachable d n g Hwf _ _ Hr) as Hshape.
    pose proof (token_reachable d n g Hwf _ _ Hr) as Htok.
    destruct (all_received g _ _ Hshape Htok (tok_done _ _ _ Htok Hc)) as (_ & _ & _ & Hsent).
    rewrite nodes_where_none; [simpl; lia|].
    intros w Hw. apply Hsent in Hw. by destruct (w.2).
  - pose proof (nodes_where_length visiting (workers s)).
    unfold active in Hact. destruct (coord s); try done; lia.
Qed.

Lemma visitors_within_maxConcurrency_witness :
  let after := execution (directed Up 2) diamond_graph diamond_before_B in
  limit (directed Up 2) = Some 3%Z
  ∧ (active after.2 ≤ 3)%Z
  ∧ (Z.of_nat (length (nodes_where visiting (workers after.2))) ≤ 2)%Z.
Proof.
  intros after.
  apply (visitors_within_maxConcurrency Up 2 diamond_graph after.1 after.2).
  - apply graph_wfb_sound. vm_compute. reflexivity.
  - lia.
  - apply execution_reachable.
Defined.

(** ** The value [visit] returns *)

Lemma elem_of_finished (tr : list event) (node : string) :
  node ∈ finished tr ↔ ∃ err, EvFinish node err ∈ tr.
Proof.
  unfold finished. rewrite list_elem_of_omap. split.
  - intros (ev & Hev & Hsome). destruct ev; try done. injection Hsome as ->. eauto.
  - intros (err & Hev). by exists (EvFinish node err).
Qed.

(** X10.  When [visit] returns, it returns the error of the first goroutine
    of a node that returned one, and nil if none did.  An error it
    returns is what the visitor of some vertex returned; when it returns
    nil the visitor of every vertex has returned nil. *)
Theorem visit_returns_first_error (d : direction) (n : Z) (g : Graph)
    (tr : list event) (s : state) (err : option error) :
  graph_wf g → reachable (directed d n) g tr s → main s = MainReturned err →
  err = head (failures tr)
  ∧ (∀ e, err = Some e → ∃ node, node ∈ keys g ∧ (node, Some e) ∈ visited_with tr)
  ∧ (err = None → ∀ node, node ∈ keys g → (node, None) ∈ visited_with tr).
Proof.
  intros Hwf Hr Hmain.
  pose proof (shape_reachable d n g Hwf _ _ Hr) as Hshape.
  pose proof (token_reachable d n g Hwf _ _ Hr) as Htok.
  pose proof (result_reachable d n g Hwf _ _ Hr) as Hres.
  destruct (tok_returned _ _ _ Htok _ Hmain) as (_ & _ & ->).
  pose proof (first_error d n g _ _ Hr) as Hfirst.
  split; [done|]. split.
  - intros e He. rewrite He in Hfirst. symmetry in Hfirst.
    apply head_Some_elem_of, elem_of_failures in Hfirst as [node Hnode].
    apply (finish_visited d n g Hwf _ _ _ _ Hr) in Hnode.
    exists node. split; [|done].
    apply (shape_seen _ _ Hshape).
    eapply elem_of_submseteq; [|apply (held_submseteq g returned _ _ Htok)].
    rewrite <- (res_visited _ _ _ _ Hres).
    by apply (list_elem_of_fmap_2 fst _ (node, Some e)).
  - intros Hnone node Hnode.
    destruct (returned_all g _ _ _ Hshape Htok Hmain) as (_ & Hfin & _).
    rewrite <- Hfin in Hnode. apply elem_of_finished in Hnode as [[e|] Hev].
    + assert (He : e ∈ failures tr) by (apply elem_of_failures; eauto).
      rewrite Hnone in Hfirst. destruct (failures tr); [inversion He|done].
    + by apply (finish_visited d n g Hwf _ _ _ _ Hr).
Qed.

Lemma visit_returns_first_error_witness :
  let after := execution (directed Up 0) diamond_graph diamond_root_failure in
  Some X = head (failures after.1)
  ∧ (∀ e, Some X = Some e →
       ∃ node, node ∈ keys diamond_graph ∧ (node, Some e) ∈ visited_with after.1)
  ∧ (Some X = None →
       ∀ node, node ∈ keys diamond_graph → (node, None) ∈ visited_with after.1).
Proof.
  intros after.
  apply (visit_returns_first_error Up 0 diamond_graph after.1 after.2 (Some X)).
  - apply graph_wfb_sound. vm_compute. reflexivity.
  - apply execution_reachable.
  - vm_compute. reflexivity.
Defined.

(** ** What a traversal changes *)

(** X11.  A traversal changes nothing of the graph but statuses: the keys,
    the children and the parents stay; a vertex has the status it started
    with, or the target status after its visitor returned nil; and a
    vertex whose visitor returned an error keeps its status. *)
Theorem traversal_changes_statuses_only (d : direction) (n : Z) (g : Graph)
    (tr : list event) (s : state) :
  graph_wf g → reachable (directed d n) g tr s →
  keys (graph s) = keys g
  ∧ (∀ k, Children <$> vertex_at (graph s) k = Children <$> vertex_at g k
          ∧ Parents <$> vertex_at (graph s) k = Parents <$> vertex_at g k)
  ∧ (∀ k, status_at (graph s) k = status_at g k
          ∨ (status_at (graph s) k = Some (targetServiceStatus (directed d n))
             ∧ (k, None) ∈ visited_with tr))
  ∧ (∀ k e, (k, Some e) ∈ visited_with tr → status_at (graph s) k = status_at g k).
Proof.
  intros Hwf Hr.
  pose proof (shape_reachable d n g Hwf _ _ Hr) as Hshape.
  pose proof (token_reachable d n g Hwf _ _ Hr) as Htok.
  pose proof (result_reachable d n g Hwf _ _ Hr) as Hres.
  split; [apply Hshape|]. split; [|split].
  - intros k. destruct (vertex_at (graph s) k) as [v|] eqn:Hv.
    + destruct (shape_edges _ _ Hshape _ _ Hv) as (v0 & -> & Hc & Hp). simpl.
      by rewrite Hc, Hp.
    + apply vertex_at_None in Hv. rewrite (shape_keys _ _ Hshape) in Hv.
      apply vertex_at_None in Hv. by rewrite Hv.
  - intros k. destruct (res_status _ _ _ _ Hres k) as [Heq|Hup]; [by left|].
    right. by apply (res_updated _ _ _ _ Hres).
  - intros k e Hfail. destruct (res_status _ _ _ _ Hres k) as [Heq|Hup]; [done|].
    destruct (res_updated _ _ _ _ Hres _ Hup) as [_ Hok].
    pose proof (NoDup_fst_unique _ _ _ _ (visited_NoDup d n g _ _ Htok Hres) Hok Hfail).
    done.
Qed.

Lemma traversal_changes_statuses_only_witness :
  let after := execution (directed Up 0) diamond_graph diamond_root_failure in
  keys (graph after.2) = keys diamond_graph
  ∧ (∀ k, Children <$> vertex_at (graph after.2) k = Children <$> vertex_at diamond_graph k
          ∧ Parents <$> vertex_at (graph after.2) k = Parents <$> vertex_at diamond_graph k)
  ∧ (∀ k, status_at (graph after.2) k = status_at diamond_graph k
          ∨ (status_at (graph after.2) k = Some ServiceStarted
             ∧ (k, None) ∈ visited_with after.1))
  ∧ (∀ k e, (k, Some e) ∈ visited_with after.1 →
        status_at (graph after.2) k = status_at diamond_graph k).
Proof.
  intros after.
  apply (traversal_changes_statuses_only Up 0 diamond_graph after.1 after.2).
  - apply graph_wfb_sound. vm_compute. reflexivity.
  - apply execution_reachable.
Defined.

(** ** The order of the visits *)

Lemma acyclic_or_cycle (services : list ServiceConfig) (st : ServiceStatus) :
  ((∃ p, cycle (dep_edge services) p)
     ∧ ∃ path, NewGraph services st = Ret (None, Some (CycleFound path)))
  ∨ ((∀ p, ¬ cycle (dep_edge services) p)
     ∧ NewGraph services st = Ret (Some (built services st), None)).
Proof.
  destruct (NewGraph_total services st) as [[Hb Hno]|(p & Hp & Hw & Hcl)].
  - right. split; [|done].
    intros p Hc%(GraphFacts.dep_cycle_gedge services st). by apply (Hno p).
  - left. destruct (closes_cycle _ p Hw Hcl) as (pre & cyc & Hpc & Hcyc).
    apply GraphFacts.dep_cycle_gedge in Hcyc. eauto.
Qed.

Lemma built_gating (services : list ServiceConfig) (d : direction) (a b : string) :
  dep_edge services a b → a ∈ names services → b ∈ names services →
  match d with
  | Up => b ∈ gating Up (built services (initial_status Up)) a
  | Down => a ∈ gating Down (built services (initial_status Down)) b
  end.
Proof.
  intros Hab Ha Hb.
  destruct d; unfold gating.
  - assert (Hg : gedge (built services (initial_status Up)) a b) by by apply gedge_built.
    destruct Hg as (v & -> & Hin). done.
  - assert (Hg : gedge (built services (initial_status Down)) a b) by by apply gedge_built.
    apply (bi_consistent _ _ (GraphFacts.built_built_inv services _)) in Hg.
    destruct Hg as (v & -> & Hin). done.
Qed.

Lemma built_status (services : list ServiceConfig) (st : ServiceStatus) (k : string) :
  k ∈ names services → status_at (built services st) k = Some st.
Proof.
  intros [v Hv]%(keys_built services st)%vertex_at_is_Some.
  unfold status_at. rewrite Hv. simpl.
  by destruct (bi_fields _ _ (GraphFacts.built_built_inv services st) k v Hv) as [_ ->].
Qed.

(** X12.  [InDependencyOrder] returns the [cycle found] error of [NewGraph]
    without calling the visitor when the dependencies have a cycle.
    Otherwise it calls [visit] going up on the graph of the project with
    every service [Stopped], and in every execution the visitor of a
    service is called only after the visitor of each of its dependencies
    among the services of the project has returned nil. *)
Theorem InDependencyOrder_order (services : list ServiceConfig) (n : Z) :
  ((∃ p, cycle (dep_edge services) p)
     ∧ ∃ path, InDependencyOrder services [WithMaxConcurrency n]
               = Ret (ReturnError (CycleFound path)))
  ∨ ((∀ p, ¬ cycle (dep_edge services) p)
     ∧ ∃ g, InDependencyOrder services [WithMaxConcurrency n]
            = Ret (CallVisit (directed Up n) g)
       ∧ NewGraph services ServiceStopped = Ret (Some g, None)
       ∧ ∀ tr1 a tr2 s b,
           reachable (directed Up n) g (tr1 ++ EvInvoke a :: tr2) s →
           dep_edge services a b → b ∈ names services →
           (b, None) ∈ visited_with tr1).
Proof.
  destruct (acyclic_or_cycle services ServiceStopped) as [[Hc [path Hp]]|[Hno Hg]].
  - left. split; [done|]. exists path. unfold InDependencyOrder. by rewrite Hp.
  - right. split; [done|]. exists (built services ServiceStopped).
    split; [unfold InDependencyOrder; by rewrite Hg|]. split; [done|].
    intros tr1 a tr2 s b Hr Hab Hb.
    assert (Ha : a ∈ names services).
    { destruct Hab as (sv & Hsv & <- & _). by apply list_elem_of_fmap_2. }
    eapply (invoke_after_gating Up n _ (built_wf services ServiceStopped)); [done| |].
    + by apply (built_gating services Up a b).
    + rewrite built_status by done. done.
Qed.

Lemma InDependencyOrder_order_witness :
  let tr := (execution (directed Up 0) diamond_graph diamond_success).1 in
  InDependencyOrder diamond [WithMaxConcurrency 0]
  = Ret (CallVisit (directed Up 0) diamond_graph)
  ∧ tr !! 17%nat = Some (EvInvoke "B")
  ∧ ("D", None) ∈ visited_with (take 17 tr).
Proof.
  intros tr. split; [vm_compute; reflexivity|]. split; [vm_compute; reflexivity|].
  destruct (InDependencyOrder_order diamond 0)
    as [[_ [path Hp]]|[_ (g & Hg & _ & Horder)]]; [vm_compute in Hp; discriminate|].
  assert (Hd : InDependencyOrder diamond [WithMaxConcurrency 0]
               = Ret (CallVisit (directed Up 0) diamond_graph))
    by (vm_compute; reflexivity).
  assert (g = diamond_graph) as -> by congruence.
  apply (Horder (take 17 tr) "B" (drop 18 tr)
           (execution (directed Up 0) diamond_graph diamond_success).2 "D").
  - assert (Htr : take 17 tr ++ EvInvoke "B" :: drop 18 tr = tr)
      by (vm_compute; reflexivity).
    rewrite Htr. apply execution_reachable.
  - exists (svc "B" ["D"]). split; [|split; [done|left]]. right. left.
  - right. right. right. left.
Defined.

(** X13.  [InReverseDependencyOrder] returns the [cycle found] error of
    [NewGraph] without calling the visitor when the dependencies have a
    cycle.  Otherwise it calls [visit] going down on the graph of the
    project with every service [Started], and in every execution the
    visitor of a service is called only after the visitor of each service
    that depends on it has returned nil. *)
Theorem InReverseDependencyOrder_order (services : list ServiceConfig) :
  ((∃ p, cycle (dep_edge services) p)
     ∧ ∃ path, InReverseDependencyOrder services = Ret (ReturnError (CycleFound path)))
  ∨ ((∀ p, ¬ cycle (dep_edge services) p)
     ∧ ∃ g, InReverseDependencyOrder services = Ret (CallVisit (directed Down 0) g)
       ∧ NewGraph services ServiceStarted = Ret (Some g, None)
       ∧ ∀ tr1 b tr2 s a,
           reachable (directed Down 0) g (tr1 ++ EvInvoke b :: tr2) s →
           dep_edge services a b → b ∈ names services →
           (a, None) ∈ visited_with tr1).
Proof.
  destruct (acyclic_or_cycle services ServiceStarted) as [[Hc [path Hp]]|[Hno Hg]].
  - left. split; [done|]. exists path. unfold InReverseDependencyOrder. by rewrite Hp.
  - right. split; [done|]. exists (built services ServiceStarted).
    split; [unfold InReverseDependencyOrder; by rewrite Hg|]. split; [done|].
    intros tr1 b tr2 s a Hr Hab Hb.
    assert (Ha : a ∈ names services).
    { destruct Hab as (sv & Hsv & <- & _). by apply list_elem_of_fmap_2. }
    eapply (invoke_after_gating Down 0 _ (built_wf services ServiceStarted)); [done| |].
    + by apply (built_gating services Down a b).
    + rewrite built_status by done. done.
Qed.

Lemma InReverseDependencyOrder_order_witness :
  let tr := (execution (directed Down 0) started_diamond diamond_success).1 in
  InReverseDependencyOrder diamond = Ret (CallVisit (directed Down 0) started_diamond)
  ∧ tr !! 17%nat = Some (EvInvoke "B")
  ∧ ("A", None) ∈ visited_with (take 17 tr).
Proof.
  intros tr. split; [vm_compute; reflexivity|]. split; [vm_compute; reflexivity|].
  destruct (InReverseDependencyOrder_order diamond)
    as [[_ [path Hp]]|[_ (g & Hg & _ & Horder)]]; [vm_compute in Hp; discriminate|].
  assert (Hd : InReverseDependencyOrder diamond
               = Ret (CallVisit (directed Down 0) started_diamond))
    by (vm_compute; reflexivity).
  assert (g = started_diamond) as -> by congruence.
  apply (Horder (take 17 tr) "B" (drop 18 tr)
           (execution (directed Down 0) started_diamond diamond_success).2 "A").
  - assert (Htr : take 17 tr ++ EvInvoke "B" :: drop 18 tr = tr)
      by (vm_compute; reflexivity).
    rewrite Htr. apply execution_reachable.
  - exists (svc "A" ["B"; "C"]). split; [|split; [done|left]]. left.
  - right. left.
Defined.

(** ** A full group *)

Lemma steps_cons (t : graphTraversal) (s : state) (ev : event) (s1 : state)
    (tr : list event) (s2 : state) :
  step t s ev s1 → steps t s1 tr s2 → steps t s (ev :: tr) s2.
Proof.
  intros Hstep. induction 1 as [s1|s1 tr s2 ev' s3 Hst IH Hstep'].
  - apply (steps_more t s [] s ev s1); [apply steps_done|done].
  - rewrite app_comm_cons. eapply steps_more; [by apply IH|done].
Qed.

Lemma run_steps (t : graphTraversal) (schedule : list choice) (s : state)
    (tr : list event) (s' : state) :
  run t s schedule = Some (tr, s') → steps t s tr s'.
Proof.
  revert s tr. induction schedule as [|c schedule IH]; intros s tr; simpl.
  - intros [= <- <-]. apply steps_done.
  - destruct (exec t s c) as [[ev s1]|] eqn:Hexec; [|done].
    destruct (run t s1 schedule) as [[tr1 s2]|] eqn:Hrun; [|done].
    intros [= <- <-]. eapply steps_cons; [by apply (exec_step _ _ c)|by apply IH].
Qed.

Lemma quiet_step (t : graphTraversal) (k : Z) (node : string) (rest : list string)
    (s : state) (ev : event) (s' : state) :
  limit t = Some k → coord s = CoordRun (RunGo node rest) → (k ≤ active s)%Z →
  nodes_where sent (workers s) = [] →
  step t s ev s' →
  coord s' = CoordRun (RunGo node rest) ∧ (k ≤ active s')%Z
  ∧ nodes_where sent (workers s') = [] ∧ quiet ev = true
  ∧ (∀ err, main s' = MainReturned err → main s = MainReturned err).
Proof.
  intros Hlim Hcoord Hact Hsent Hstep.
  destruct Hstep as
    [s pc ev s1 pc' Hm Hrun|s Hm|s Hm Hc Hw|s ws1 node0 err ws2 Hc Hcl Hw
    |s node0 Hc He|s node0 adj nodes Hc He Ha Hp|s node0 Hc He Ha
    |s pc ev s1 pc' Hc Hrun|s Hc|s Hc Hcl|s ws1 node0 ws2 Hw|s ws1 node0 ws2 err Hw
    |s ws1 node0 ws2 g' Hw Hu|s ws1 node0 ws2 Hw Hu|s ws1 node0 ws2 e Hw
    |s ws1 node0 err ws2 Hcl Hw|s ws1 node0 err ws2 Hw|s];
    try congruence.
  - destruct Hrun as [s node0 rest0 res Hf Hne|s node0 rest0 Hf|s node0 rest0 Hf
                     |s node0 rest0 Hin|s node0 rest0 Hnin|s node0 rest0 Hfree];
      try (unfold slot_free in Hfree; rewrite Hlim in Hfree; lia);
      simpl; split_and!; try done.
  - simpl. split_and!; try done.
  - rewrite Hcoord in Hc. injection Hc as <-.
    inversion Hrun as [| | | | |s0 node0 rest0 Hfree]; subst.
    unfold slot_free in Hfree. rewrite Hlim in Hfree. lia.
  - unfold active in *. simpl. rewrite Hw in *.
    rewrite nodes_where_app in *. simpl in *. rewrite !length_app in *. simpl in *.
    split_and!; try done.
  - unfold active in *. simpl. rewrite Hw in *.
    rewrite nodes_where_app in *. simpl in *. rewrite !length_app in *. simpl in *.
    split_and!; try done.
  - unfold active in *. simpl. rewrite Hw in *.
    rewrite nodes_where_app in *. simpl in *. rewrite !length_app in *. simpl in *.
    split_and!; try done.
  - simpl. split_and!; try done.
  - unfold active in *. simpl. rewrite Hw in *.
    rewrite nodes_where_app in *. simpl in *. rewrite !length_app in *. simpl in *.
    split_and!; try done.
  - simpl. split_and!; try done.
  - rewrite Hw, nodes_where_app in Hsent. simpl in Hsent.
    by apply app_eq_nil in Hsent as [_ ?].
  - simpl. split_and!; try done.
Qed.

Lemma continuation_steps (t : graphTraversal) (s : state) (schedule : list choice) :
  steps t s (continuation t s schedule).1 (continuation t s schedule).2.
Proof.
  unfold continuation. destruct (run t s schedule) as [[tr s']|] eqn:Hrun; simpl.
  - by eapply run_steps.
  - apply steps_done.
Qed.

Lemma quiet_steps (t : graphTraversal) (k : Z) (node : string) (rest : list string)
    (s : state) (tr : list event) (s' : state) :
  limit t = Some k → coord s = CoordRun (RunGo node rest) → (k ≤ active s)%Z →
  nodes_where sent (workers s) = [] →
  steps t s tr s' →
  coord s' = CoordRun (RunGo node rest) ∧ (k ≤ active s')%Z
  ∧ nodes_where sent (workers s') = [] ∧ Forall (λ ev, quiet ev = true) tr
  ∧ (∀ err, main s' = MainReturned err → main s = MainReturned err).
Proof.
  intros Hlim Hcoord Hact Hsent. induction 1 as [s|s tr s1 ev s2 Hst IH Hstep].
  - split_and!; try done.
  - destruct (IH Hcoord Hact Hsent) as (Hc1 & Ha1 & Hs1 & Hq1 & Hm1).
    destruct (quiet_step t k node rest s1 ev s2 Hlim Hc1 Ha1 Hs1 Hstep)
      as (Hc2 & Ha2 & Hs2 & Hq2 & Hm2).
    split_and!; try done.
    + apply Forall_app. split; [done|]. by apply Forall_singleton.
    + intros err Herr. by apply Hm1, Hm2.
Qed.

(** X14.  The limit of the group can stop a traversal for good.  When the
    coordinator is in [eg.Go] with the group at its limit and no
    goroutine of a node is between its send and its return, no slot is
    ever freed: from then on no node is received, no goroutine starts or
    returns, the coordinator stays in [eg.Go] and [visit] does not
    return. *)
Theorem full_group_blocks_visit (t : graphTraversal) (k : Z) (node : string)
    (rest : list string) (s : state) (tr : list event) (s' : state) :
  limit t = Some k → coord s = CoordRun (RunGo node rest) → (k ≤ active s)%Z →
  nodes_where sent (workers s) = [] → (∀ err, main s ≠ MainReturned err) →
  steps t s tr s' →
  coord s' = CoordRun (RunGo node rest)
  ∧ (∀ err, main s' ≠ MainReturned err)
  ∧ received tr = [] ∧ finished tr = [] ∧ (∀ err, EvReturn err ∉ tr)
  ∧ (workers s').*1 = (workers s).*1.
Proof.
  intros Hlim Hcoord Hact Hsent Hmain Hst.
  destruct (quiet_steps t k node rest s tr s' Hlim Hcoord Hact Hsent Hst)
    as (Hc & _ & _ & Hq & Hm).
  split; [done|]. split; [intros err Herr; by apply (Hmain err), Hm|].
  split; [|split; [|split]].
  - clear -Hq. induction tr as [|ev tr IH] using rev_ind; [done|].
    apply Forall_app in Hq as [Hq1 Hq2%Forall_inv].
    rewrite received_snoc, IH by done. by destruct ev.
  - clear -Hq. induction tr as [|ev tr IH] using rev_ind; [done|].
    apply Forall_app in Hq as [Hq1 Hq2%Forall_inv].
    rewrite finished_snoc, IH by done. by destruct ev.
  - intros err Hin. rewrite Forall_forall in Hq. by apply Hq in Hin.
  - clear -Hst Hlim Hcoord Hact Hsent. induction Hst as [s|s tr s1 ev s2 Hst IH Hstep]; [done|].
    destruct (quiet_steps t k node rest s tr s1 Hlim Hcoord Hact Hsent Hst)
      as (Hc1 & Ha1 & Hs1 & _ & _).
    rewrite <- (IH Hcoord Hact Hsent).
    destruct Hstep as
      [s1 pc ev s1' pc' Hm Hrun|s1 Hm|s1 Hm Hc Hw|s1 ws1 node0 err ws2 Hc Hcl Hw
      |s1 node0 Hc He|s1 node0 adj nodes Hc He Ha Hp|s1 node0 Hc He Ha
      |s1 pc ev s1' pc' Hc Hrun|s1 Hc|s1 Hc Hcl|s1 ws1 node0 ws2 Hw|s1 ws1 node0 ws2 err Hw
      |s1 ws1 node0 ws2 g' Hw Hu|s1 ws1 node0 ws2 Hw Hu|s1 ws1 node0 ws2 e Hw
      |s1 ws1 node0 err ws2 Hcl Hw|s1 ws1 node0 err ws2 Hw|s1];
      try congruence; try done;
      try (simpl; rewrite Hw, !fmap_app; done).
    + destruct Hrun as [s1 node0 rest0 res Hf Hne|s1 node0 rest0 Hf|s1 node0 rest0 Hf
                       |s1 node0 rest0 Hin|s1 node0 rest0 Hnin|s1 node0 rest0 Hfree];
        try done.
      unfold slot_free in Hfree. rewrite Hlim in Hfree. lia.
    + rewrite Hc1 in Hc. injection Hc as <-.
      inversion Hrun as [| | | | |s0 node0 rest0 Hfree]; subst.
      unfold slot_free in Hfree. rewrite Hlim in Hfree. lia.
    + rewrite Hw, nodes_where_app in Hs1. simpl in Hs1.
      by apply app_eq_nil in Hs1 as [_ ?].
Qed.

Lemma full_group_blocks_visit_witness :
  let t := directed Up 1 in
  let s := (execution t diamond_graph diamond_before_C).2 in
  let after := continuation t s [Worker 0 None; Worker 0 None; Worker 0 None] in
  workers after.2 = [("B", WSend None)]
  ∧ coord after.2 = CoordRun (RunGo "C" [])
  ∧ (∀ err, main after.2 ≠ MainReturned err)
  ∧ received after.1 = [] ∧ finished after.1 = [] ∧ (∀ err, EvReturn err ∉ after.1)
  ∧ (workers after.2).*1 = (workers s).*1.
Proof.
  intros t s after. split; [vm_compute; reflexivity|].
  apply (full_group_blocks_visit t 2 "C" [] s after.1 after.2).
  - vm_compute. reflexivity.
  - vm_compute. reflexivity.
  - vm_compute. discriminate.
  - vm_compute. reflexivity.
  - intros err. assert (Hmain : main s = MainWait) by (vm_compute; reflexivity).
    rewrite Hmain. discriminate.
  - apply continuation_steps.
Defined.
(** ** Progress *)

Section progress.
Variables (d : direction) (n : Z) (g0 : Graph).
Hypothesis Hwf0 : graph_wf g0.
Hypothesis Hcons : consistent g0.

Local Abbreviation t := (directed d n).

Lemma released_shape (s : state) (node : string) :
  shape_inv g0 s → released d (graph s) node = released d g0 node.
Proof.
  intros Hshape. unfold released.
  destruct (vertex_at (graph s) node) as [v|] eqn:Hv.
  - destruct (shape_edges _ _ Hshape _ _ Hv) as (v0 & -> & Hc & Hp).
    by destruct d.
  - apply vertex_at_None in Hv. rewrite (shape_keys _ _ Hshape) in Hv.
    apply vertex_at_None in Hv. by rewrite Hv.
Qed.

Lemma gating_released (u c : string) :
  c ∈ gating d g0 u → u ∈ released d g0 c.
Proof.
  unfold gating, released. destruct (vertex_at g0 u) as [v|] eqn:Hv; [|by inversion 1].
  destruct d; intros Hc.
  - assert (Hg : gedge g0 u c) by (by exists v).
    apply Hcons in Hg as (vc & -> & Hin). done.
  - assert (Hg : pedge g0 u c) by (by exists v).
    apply Hcons in Hg as (vc & -> & Hin). done.
Qed.

Lemma succeeded_snoc (tr : list event) (ev : event) :
  succeeded (tr ++ [ev]) → succeeded tr.
Proof.
  intros Hs node e Hin. apply (Hs node e). rewrite visited_with_snoc.
  apply elem_of_app. by left.
Qed.

(** While the visitors succeed, a node that was received has the
    target status. *)
Lemma received_target (tr : list event) (s : state) (c : string) :
  reachable t g0 tr s → succeeded tr → c ∈ received tr →
  status_at (graph s) c = Some (targetServiceStatus t).
Proof.
  intros Hr Hok Hc.
  pose proof (token_reachable d n g0 Hwf0 _ _ Hr) as Htok.
  pose proof (result_reachable d n g0 Hwf0 _ _ Hr) as Hres.
  apply (res_updated _ _ _ _ Hres).
  rewrite (tok_received _ _ _ Htok) in Hc. apply elem_of_app in Hc as [Hc|Hc].
  - unfold nodes_where in Hc. apply list_elem_of_omap in Hc as ([node pc] & Hin & Hsome).
    simpl in Hsome. destruct (sent pc) eqn:Hsent; [|done]. injection Hsome as ->.
    destruct pc as [| | | |err]; try done.
    pose proof (res_worker _ _ _ _ Hres c (WSent err) err Hin eq_refl) as Hv.
    destruct err as [e|]; [by destruct (Hok c e)|].
    by apply (res_past _ _ _ _ Hres c (WSent None)).
  - apply elem_of_finished in Hc as [[e|] Hev].
    + apply (finish_visited d n g0 Hwf0 _ _ _ _ Hr) in Hev. by destruct (Hok c e).
    + by apply (res_finished _ _ _ _ Hres).
Qed.

(** One action in [run] drops a node only when it was consumed or
    waits for a neighbour that was not received. *)
Lemma live_run (tr : list event) (s : state) (pc : run_pc) (ev : event) (s' : state)
    (pc' : run_pc) (u : string) :
  reachable t g0 tr s → succeeded tr →
  run_step t s pc ev s' pc' → run_nodes pc ⊆ keys g0 → run_pending pc ⊆ seen s →
  u ∈ run_nodes pc → u ∉ seen s' →
  u ∈ run_nodes pc' ∨ ∃ c, c ∈ gating d g0 u ∧ c ∉ received tr.
Proof.
  intros Hr Hok Hrun Hpc Hpend Hu Hnew.
  pose proof (shape_reachable d n g0 Hwf0 _ _ Hr) as Hshape.
  destruct Hrun as [s node rest res Hf Hres|s node rest Hf|s node rest Hf
                   |s node rest Hin|s node rest Hin|s node rest Hfree];
    simpl in Hu, Hnew, Hpend, Hpc |- *.
  - apply elem_of_cons in Hu as [->|Hu]; [|by left]. right.
    rewrite (filter_gating d n) in Hf;
      [|apply Hshape|rewrite (shape_keys _ _ Hshape); apply Hpc; left].
    injection Hf as <-. rewrite (gating_shape d g0 s) in Hres by done.
    destruct (filter _ _) as [|c cs] eqn:Hfilter; [done|].
    assert (Hc : c ∈ c :: cs) by left. rewrite <- Hfilter in Hc.
    apply list_elem_of_filter in Hc as [Hst Hc]. exists c. split; [done|].
    intros Hrec. rewrite (received_target tr s c Hr Hok Hrec) in Hst.
    injection Hst as Hst. by destruct d.
  - by left.
  - exfalso. rewrite (filter_gating d n) in Hf; [done|apply Hshape|].
    rewrite (shape_keys _ _ Hshape). apply Hpc. left.
  - apply elem_of_cons in Hu as [->|Hu]; [done|by left].
  - by left.
  - apply elem_of_cons in Hu as [->|Hu]; [|by left].
    exfalso. apply Hnew, Hpend. left.
Qed.
Lemma run_keeps (s : state) (pc : run_pc) (ev : event) (s' : state) (pc' : run_pc) :
  run_step t s pc ev s' pc' →
  seen s ⊆ seen s' ∧ received [ev] = [] ∧ expect s' = expect s
  ∧ main s' = main s ∧ coord s' = coord s.
Proof.
  destruct 1; simpl; split_and!; try done.
  intros x Hx. apply elem_of_app. by left.
Qed.

Lemma extremity_offered (u : string) :
  u ∈ keys g0 → gating d g0 u = [] → u ∈ extremityNodesFn t g0.
Proof.
  intros [v Hv]%vertex_at_is_Some. unfold gating. rewrite Hv.
  destruct d; simpl; intros Hnil.
  - apply GraphFacts.elem_of_Leaves; eauto.
  - apply GraphFacts.elem_of_Roots; eauto.
Qed.

Lemma live_initial (s : state) : initial t g0 s → live_inv d g0 [] s.
Proof.
  destruct 1 as [Hlen|nodes Hlen Hperm]; split; simpl.
  - by left.
  - intros u Hu. rewrite <- length_keys in Hlen.
    destruct (keys g0); [inversion Hu|done].
  - lia.
  - intros u Hu _. destruct (gating d g0 u) as [|c cs] eqn:Hg.
    + left. rewrite Hperm. by apply extremity_offered.
    + right. right. exists c. split; [left|]. intros H. inversion H.
Qed.

Lemma pending_seen (tr : list event) (s : state) :
  token_inv g0 tr s →
  main_pending (main s) ⊆ seen s ∧ coord_pending (coord s) ⊆ seen s.
Proof.
  intros Htok. pose proof (tok_seen _ _ _ Htok) as Hseen. unfold holders in Hseen.
  split; intros x Hx; rewrite Hseen, !elem_of_app; auto.
Qed.

Lemma live_reachable (tr : list event) (s : state) :
  reachable t g0 tr s → succeeded tr → live_inv d g0 tr s.
Proof.
  induction 1 as [s Hinit|tr s ev s' Hreach IH Hstep]; intros Hok.
  { by apply live_initial. }
  specialize (IH (succeeded_snoc _ _ Hok)).
  pose proof (succeeded_snoc _ _ Hok) as Hok0.
  pose proof (shape_reachable d n g0 Hwf0 _ _ Hreach) as Hshape.
  pose proof (token_reachable d n g0 Hwf0 _ _ Hreach) as Htok.
  destruct (pending_seen _ _ Htok) as [Hpm Hpc].
  destruct IH as [He Ho].
  destruct Hstep as
    [s pc ev s' pc' Hmain Hrun | s Hmain | s Hmain Hcoord Hws
    | s ws1 node err ws2 Hcoord Hclosed Hws | s node Hcoord Hexp
    | s node adjacent nodes Hcoord Hexp Hadj Hperm | s node Hcoord Hexp Hadj
    | s pc ev s' pc' Hcoord Hrun | s Hcoord | s Hcoord Hclosed
    | s ws1 node ws2 Hws | s ws1 node ws2 err Hws | s ws1 node ws2 g' Hws Hup
    | s ws1 node ws2 Hws Hup | s ws1 node ws2 e Hws | s ws1 node err ws2 Hclosed Hws
    | s ws1 node err ws2 Hws | s].
  - (* the caller, in run *)
    destruct (run_keeps _ _ _ _ _ Hrun) as (Hsub & Hrec & Hex & Hm & Hc).
    assert (Hnodes : run_nodes pc ⊆ keys g0).
    { pose proof (shape_main _ _ Hshape) as H. by rewrite Hmain in H. }
    rewrite Hmain in Hpm. simpl in Hpm.
    split; simpl; rewrite ?Hex, ?Hc; [done|].
    intros u Hu Hnew. rewrite received_snoc, Hrec, app_nil_r.
    destruct (Ho u Hu) as [Hin|[Hin|Hin]]; [by intros ?%Hsub| | |].
    + rewrite Hmain in Hin. simpl in Hin.
      destruct (live_run tr s pc ev s' pc' u Hreach Hok0 Hrun Hnodes Hpm Hin Hnew);
        auto.
    + auto.
    + auto.
  - (* run is over *)
    split; simpl; [done|]. intros u Hu Hnew. rewrite received_snoc. simpl.
    rewrite app_nil_r. destruct (Ho u Hu Hnew) as [Hin|[Hin|Hin]]; auto.
    rewrite Hmain in Hin. inversion Hin.
  - (* visit returns *)
    split; simpl; [done|]. intros u Hu Hnew. rewrite received_snoc. simpl.
    rewrite app_nil_r. destruct (Ho u Hu Hnew) as [Hin|[Hin|Hin]]; auto.
    rewrite Hmain in Hin. inversion Hin.
  - (* a node is received *)
    split; simpl; [eauto|]. intros u Hu Hnew. rewrite received_snoc. simpl.
    destruct (Ho u Hu Hnew) as [Hin|[Hin|(c & Hc & Hin)]]; auto.
    + rewrite Hcoord in Hin. inversion Hin.
    + destruct (decide (c = node)) as [->|Hne].
      * right. left. by apply gating_released.
      * right. right. exists c. split; [done|].
        rewrite elem_of_app, list_elem_of_singleton. tauto.
  - (* the last node: the channel is closed *)
    split; simpl; [by left|]. intros u Hu Hnew. exfalso.
    assert (Hlen : length (received tr) = length (Vertices g0)).
    { pose proof (tok_expect _ _ _ Htok). lia. }
    destruct (all_received g0 _ _ Hshape Htok Hlen) as (Hseen & _).
    apply Hnew. by rewrite Hseen.
  - (* the released nodes *)
    split; simpl; [done|]. intros u Hu Hnew. rewrite received_snoc. simpl.
    rewrite app_nil_r. destruct (Ho u Hu Hnew) as [Hin|[Hin|Hin]]; auto.
    right. left. rewrite Hcoord in Hin. simpl in Hin.
    rewrite adjacent_released in Hadj.
    destruct (vertex_at (graph s) node); [|done]. injection Hadj as <-.
    rewrite Hperm. by rewrite released_shape.
  - split; simpl; [done|]. intros u Hu Hnew. rewrite received_snoc. simpl.
    rewrite app_nil_r. destruct (Ho u Hu Hnew) as [Hin|[Hin|Hin]]; auto.
  - (* the coordinator, in run *)
    destruct (run_keeps _ _ _ _ _ Hrun) as (Hsub & Hrec & Hex & Hm & Hc).
    assert (Hnodes : run_nodes pc ⊆ keys g0).
    { pose proof (shape_coord _ _ Hshape) as H. by rewrite Hcoord in H. }
    rewrite Hcoord in Hpc. simpl in Hpc.
    split; simpl; rewrite ?Hex, ?Hm.
    + intros H0. destruct (He H0) as [H|[? H]]; congruence.
    + intros u Hu Hnew. rewrite received_snoc, Hrec, app_nil_r.
      destruct (Ho u Hu) as [Hin|[Hin|Hin]]; [by intros ?%Hsub| | |].
      * auto.
      * rewrite Hcoord in Hin. simpl in Hin.
        destruct (live_run tr s pc ev s' pc' u Hreach Hok0 Hrun Hnodes Hpc Hin Hnew);
          auto.
      * auto.
  - split; simpl.
    + intros H0. destruct (He H0) as [H|[? H]]; congruence.
    + intros u Hu Hnew. rewrite received_snoc. simpl.
      rewrite app_nil_r. destruct (Ho u Hu Hnew) as [Hin|[Hin|Hin]]; auto.
      rewrite Hcoord in Hin. inversion Hin.
  - split; simpl; [by left|].
    intros u Hu Hnew. rewrite received_snoc. simpl.
    rewrite app_nil_r. destruct (Ho u Hu Hnew) as [Hin|[Hin|Hin]]; auto.
    rewrite Hcoord in Hin. inversion Hin.
  - split; simpl; [done|]. intros u Hu Hnew. rewrite received_snoc. simpl.
    rewrite app_nil_r. destruct (Ho u Hu Hnew) as [Hin|[Hin|Hin]]; auto.
  - split; simpl; [done|]. intros u Hu Hnew. rewrite received_snoc. simpl.
    rewrite app_nil_r. destruct (Ho u Hu Hnew) as [Hin|[Hin|Hin]]; auto.
  - split; simpl; [done|]. intros u Hu Hnew. rewrite received_snoc. simpl.
    rewrite app_nil_r. destruct (Ho u Hu Hnew) as [Hin|[Hin|Hin]]; auto.
  - split; simpl; [done|]. intros u Hu Hnew. rewrite received_snoc. simpl.
    rewrite app_nil_r. destruct (Ho u Hu Hnew) as [Hin|[Hin|Hin]]; auto.
  - split; simpl; [done|]. intros u Hu Hnew. rewrite received_snoc. simpl.
    rewrite app_nil_r. destruct (Ho u Hu Hnew) as [Hin|[Hin|Hin]]; auto.
  - split; simpl; [done|]. intros u Hu Hnew. rewrite received_snoc. simpl.
    rewrite app_nil_r. destruct (Ho u Hu Hnew) as [Hin|[Hin|Hin]]; auto.
  - assert (Hsame : ∀ s0 : state,
              expect (group_done s0 err) = expect s0 ∧ coord (group_done s0 err) = coord s0
              ∧ seen (group_done s0 err) = seen s0 ∧ main (group_done s0 err) = main s0).
    { intros s0. unfold group_done. by destruct err, (eg_err s0). }
    destruct (Hsame (with_workers s (ws1 ++ ws2))) as (H1 & H2 & H3 & H4).
    split; rewrite ?H1, ?H2, ?H3, ?H4; simpl; [done|].
    intros u Hu Hnew. rewrite received_snoc. simpl.
    rewrite app_nil_r. destruct (Ho u Hu Hnew) as [Hin|[Hin|Hin]]; auto.
  - split; simpl; [done|]. intros u Hu Hnew. rewrite received_snoc. simpl.
    rewrite app_nil_r. destruct (Ho u Hu Hnew) as [Hin|[Hin|Hin]]; auto.
Qed.
Hypothesis Hacyclic : ∀ p, ¬ cycle (gedge g0) p.
Hypothesis Hlimit : limit t = None.

Lemma gating_sn (u : string) : u ∈ keys g0 → sn (λ u c, c ∈ gating d g0 u) u.
Proof.
  intros Hu. destruct d.
  - apply (GraphFacts.sn_iff (gedge g0)); [|by apply GraphFacts.acyclic_sn].
    intros a b. unfold gedge, gating. destruct (vertex_at g0 a) as [v|]; [naive_solver|].
    split; [by intros (? & ? & _)|by inversion 1].
  - apply (GraphFacts.sn_iff (pedge g0)); [|by apply GraphFacts.acyclic_sn_parents].
    intros a b. unfold pedge, gating. destruct (vertex_at g0 a) as [v|]; [naive_solver|].
    split; [by intros (? & ? & _)|by inversion 1].
Qed.

Lemma advances_run (s : state) (pc : run_pc) (ev : event) (s' : state) (pc' : run_pc) :
  shape_inv g0 s → run_nodes pc ⊆ keys g0 → run_step t s pc ev s' pc' → advances ev.
Proof.
  intros Hshape Hpc Hrun. by destruct Hrun.
Qed.

Lemma run_progress (s : state) (pc : run_pc) :
  shape_inv g0 s → run_nodes pc ⊆ keys g0 → pc ≠ RunNext [] →
  ∃ ev s' pc', run_step t s pc ev s' pc'.
Proof.
  intros Hshape Hpc Hne. destruct pc as [[|node rest]|node rest|node rest]; [done|..].
  - destruct (filterAdjacentByStatusFn t (graph s) node (adjacentServiceStatusToSkip t))
      as [[|c res]| |] eqn:Hf.
    + eexists _, _, _. by apply run_ready.
    + eexists _, _, _. by eapply run_not_ready.
    + eexists _, _, _. by apply run_check_panic.
    + rewrite (filter_gating d n) in Hf; [done|apply Hshape|].
      rewrite (shape_keys _ _ Hshape). apply Hpc. left.
  - destruct (decide (node ∈ seen s)).
    + eexists _, _, _. by apply run_consume_seen.
    + eexists _, _, _. by apply run_consume_fresh.
  - eexists _, _, _. apply run_go. unfold slot_free. by rewrite Hlimit.
Qed.

Lemma worker_progress (s : state) (node : string) (pc : worker_pc)
    (ws : list (string * worker_pc)) :
  shape_inv g0 s → workers s = (node, pc) :: ws →
  (∀ err, pc = WSend err → coord s = CoordRecv ∧ closed s = false) →
  ∃ ev s', step t s ev s' ∧ advances ev.
Proof.
  intros Hshape Hws Hsend.
  assert (Hw : ∀ pc, (node, pc) :: ws = [] ++ (node, pc) :: ws) by done.
  rewrite Hw in Hws. destruct pc as [| |[e|]|err|err].
  - eexists _, _. split; [by eapply step_invoke|]. by split.
  - eexists _, _. split; [by eapply (step_visited _ _ _ _ _ None)|]. by split.
  - eexists _, _. split; [by eapply step_no_update|]. by split.
  - destruct (UpdateStatus_Ret (graph s) node (targetServiceStatus t)) as [g' Hg'].
    { rewrite (shape_keys _ _ Hshape). apply (shape_workers _ _ Hshape).
      rewrite Hws. left. }
    eexists _, _. split; [by eapply step_update|]. by split.
  - destruct (Hsend err eq_refl) as [Hc Hcl].
    eexists _, _. split; [by eapply step_receive|]. by split.
  - eexists _, _. split; [by eapply step_finish|]. by split.
Qed.

(** No execution in which the visitors have succeeded is stuck before
    [visit] has returned. *)
Lemma progress (tr : list event) (s : state) :
  reachable t g0 tr s → succeeded tr →
  main s = MainReturned None ∨ ∃ ev s', step t s ev s' ∧ advances ev.
Proof.
  intros Hr Hok.
  pose proof (shape_reachable d n g0 Hwf0 _ _ Hr) as Hshape.
  pose proof (token_reachable d n g0 Hwf0 _ _ Hr) as Htok.
  pose proof (live_reachable _ _ Hr Hok) as [He Ho].
  assert (Hrun : ∀ pc, run_nodes pc ⊆ keys g0 → pc ≠ RunNext [] →
            ∃ ev s' pc', run_step t s pc ev s' pc' ∧ advances ev).
  { intros pc Hpc Hne. destruct (run_progress s pc Hshape Hpc Hne) as (ev & s' & pc' & Hst).
    exists ev, s', pc'. split; [done|]. by eapply advances_run. }
  assert (Hlast : ∀ pc : run_pc, pc = RunNext [] ∨ pc ≠ RunNext []).
  { intros [[|? ?]|? ?|? ?]; auto. }
  destruct (main s) as [pc| |err] eqn:Hmain.
  - (* the caller is in run *)
    right. destruct (Hlast pc) as [->|Hne].
    + eexists _, _. split; [by apply step_main_wait|]. by split.
    + destruct (Hrun pc) as (ev & s' & pc' & Hst & Hadv); [|done|].
      { pose proof (shape_main _ _ Hshape) as H. by rewrite Hmain in H. }
      eexists _, _. split; [by eapply step_main_run|done].
  - (* the caller waits for the group *)
    right. destruct (coord s) as [|node|pc|] eqn:Hcoord.
    + destruct (closed s) eqn:Hclosed.
      { eexists _, _. split; [by apply step_range_end|]. by split. }
      destruct (workers s) as [|[node pc] ws] eqn:Hws.
      * (* nobody is left to send: every vertex was received *)
        exfalso.
        pose proof (tok_seen _ _ _ Htok) as Hseen.
        pose proof (tok_received _ _ _ Htok) as Hrec.
        unfold holders in Hseen. rewrite Hmain, Hcoord, Hws in Hseen.
        rewrite Hws in Hrec. simpl in Hseen, Hrec.
        assert (Hall : ∀ u, u ∈ keys g0 → u ∈ seen s).
        { intros u Hu. pose proof (gating_sn u Hu) as Hsn.
          induction Hsn as [u _ IH].
          destruct (decide (u ∈ seen s)) as [|Hnew]; [done|]. exfalso.
          destruct (Ho u Hu Hnew) as [Hin|[Hin|(c & Hc & Hin)]].
          - inversion Hin.
          - inversion Hin.
          - apply Hin. rewrite Hrec, <- Hseen. apply (IH c Hc).
            by apply (gating_keys d g0 Hwf0 u). }
        assert (Hlen : (length (keys g0) ≤ length (seen s))%nat).
        { apply submseteq_length, NoDup_submseteq; [apply Hwf0|done]. }
        rewrite Hseen, <- Hrec, length_keys in Hlen.
        assert (Hle : (length (received tr) ≤ length (Vertices g0))%nat).
        { rewrite <- length_keys. apply submseteq_length.
          rewrite Hrec, <- Hseen. apply NoDup_submseteq; [apply Htok|apply Hshape]. }
        pose proof (tok_expect _ _ _ Htok) as Hex.
        assert (H0 : expect s = 0%Z) by lia.
        destruct (He H0) as [H|[? H]]; discriminate.
      * apply (worker_progress s node pc ws Hshape Hws). by intros.
    + destruct (decide (expect s = 0%Z)) as [H0|Hn0].
      * eexists _, _. split; [by eapply step_close|]. by split.
      * assert (Hn : node ∈ keys (graph s)).
        { rewrite (shape_keys _ _ Hshape). apply (shape_coord _ _ Hshape).
          rewrite Hcoord. left. }
        apply vertex_at_is_Some in Hn as [v Hv].
        exists EvInternal. eexists. split; [|by split].
        eapply (step_expand _ _ _ (released d (graph s) node)
                  (released d (graph s) node)); [done|done| |done].
        by rewrite adjacent_released, Hv.
    + destruct (Hlast pc) as [->|Hne].
      * eexists _, _. split; [by apply step_coord_loop|]. by split.
      * destruct (Hrun pc) as (ev & s' & pc' & Hst & Hadv); [|done|].
        { pose proof (shape_coord _ _ Hshape) as H. by rewrite Hcoord in H. }
        eexists _, _. split; [by eapply step_coord_run|done].
    + destruct (workers s) as [|[node pc] ws] eqn:Hws.
      * eexists _, _. split; [by apply step_return|]. by split.
      * apply (worker_progress s node pc ws Hshape Hws).
        intros err ->. exfalso.
        destruct (all_received g0 _ _ Hshape Htok (tok_done _ _ _ Htok Hcoord))
          as (_ & _ & _ & Hsent).
        specialize (Hsent (node, WSend err)). rewrite Hws in Hsent.
        by specialize (Hsent ltac:(left)).
  - (* visit has returned *)
    left. destruct (tok_returned _ _ _ Htok _ Hmain) as (_ & _ & ->).
    rewrite (first_error d n g0 _ _ Hr).
    destruct (failures tr) as [|e l] eqn:Hf; [done|]. exfalso.
    assert (He' : e ∈ failures tr) by (rewrite Hf; left).
    apply elem_of_failures in He' as [node Hev].
    apply (finish_visited d n g0 Hwf0 _ _ _ _ Hr) in Hev. by apply (Hok node e).
Qed.
End progress.
(** X15.  Without a limit on concurrency a traversal of a graph returned by
    [NewGraph] cannot come to a halt while the visitors succeed: in
    every execution in which no visitor has returned an error, either
    [visit] has returned nil or some goroutine can take a step. *)
Theorem visit_never_stuck (services : list ServiceConfig) (st : ServiceStatus)
    (d : direction) (n : Z) (g : Graph) (tr : list event) (s : state) :
  NewGraph services st = Ret (Some g, None) → (n ≤ 0)%Z →
  reachable (directed d n) g tr s → succeeded tr →
  main s = MainReturned None
  ∨ ∃ ev s', step (directed d n) s ev s' ∧ advances ev.
Proof.
  intros Hnew Hn Hr Hok.
  destruct (NewGraph_total services st) as [[Hb Hno]|(p & Hp & _)]; [|congruence].
  assert (g = built services st) as -> by congruence.
  apply (progress d n (built services st)) with (tr := tr); try done.
  - apply built_wf.
  - apply (bi_consistent _ _ (GraphFacts.built_built_inv services st)).
  - unfold limit, directed. simpl. by rewrite decide_False by lia.
Qed.

Lemma visit_never_stuck_witness :
  let after := execution (directed Up 0) diamond_graph diamond_before_B in
  main after.2 = MainReturned None
  ∨ ∃ ev s', step (directed Up 0) after.2 ev s' ∧ advances ev.
Proof.
  intros after.
  apply (visit_never_stuck diamond ServiceStopped Up 0 diamond_graph after.1 after.2).
  - vm_compute. reflexivity.
  - lia.
  - apply execution_reachable.
  - assert (Hv : visited_with after.1 = [("D", None)]) by (vm_compute; reflexivity).
    intros node e Hin. rewrite Hv in Hin.
    apply list_elem_of_singleton in Hin. discriminate.
Defined.
(** ** Termination *)

Section termination.
Variables (d : direction) (n : Z) (g0 : Graph).
Hypothesis Hwf0 : graph_wf g0.

Local Open Scope nat_scope.

Local Abbreviation t := (directed d n).

(** The coordinator waits for a node only while some are missing. *)
Lemma expect_left (tr : list event) (s : state) :
  reachable t g0 tr s →
  expect s = 0%Z → coord s = CoordDone ∨ ∃ node, coord s = CoordGot node.
Proof.
  induction 1 as [s Hinit|tr s ev s' Hreach IH Hstep].
  { destruct Hinit; simpl; [by left|lia]. }
  destruct Hstep as
    [s pc ev s' pc' Hmain Hrun | s Hmain | s Hmain Hcoord Hws
    | s ws1 node err ws2 Hcoord Hclosed Hws | s node Hcoord Hexp
    | s node adjacent nodes Hcoord Hexp Hadj Hperm | s node Hcoord Hexp Hadj
    | s pc ev s' pc' Hcoord Hrun | s Hcoord | s Hcoord Hclosed
    | s ws1 node ws2 Hws | s ws1 node ws2 err Hws | s ws1 node ws2 g' Hws Hup
    | s ws1 node ws2 Hws Hup | s ws1 node ws2 e Hws | s ws1 node err ws2 Hclosed Hws
    | s ws1 node err ws2 Hws | s];
    try (destruct (run_keeps d n _ _ _ _ _ Hrun) as (_ & _ & Hex & Hm & Hc));
    simpl.
  17: { unfold group_done.
        destruct err; [destruct (eg_err (with_workers s (ws1 ++ ws2)))|]; done. }
  all: rewrite ?Hex, ?Hc; try done; eauto.
  - intros H0. destruct (IH H0) as [H|[? H]]; congruence.
  - intros H0. destruct (IH H0) as [H|[? H]]; congruence.
Qed.

Lemma released_le_round (node : string) :
  node ∈ keys g0 → 8 * length (released d g0 node) + 4 ≤ round d g0.
Proof.
  intros Hin. unfold round.
  assert (H : length (released d g0 node)
              ≤ max_list_with (λ k, length (released d g0 k)) (keys g0)); [|lia].
  induction (keys g0) as [|k ks IH]; [inversion Hin|]. simpl.
  apply elem_of_cons in Hin as [->|Hin]; [lia|]. specialize (IH Hin). lia.
Qed.

Lemma run_measure_step (s : state) (pc : run_pc) (ev : event) (s' : state) (pc' : run_pc) :
  run_step t s pc ev s' pc' →
  run_measure pc' + sum_list_with (λ w, worker_measure w.2) (workers s')
  < run_measure pc + sum_list_with (λ w, worker_measure w.2) (workers s)
  ∧ is_cancel ev = false.
Proof.
  destruct 1; simpl; rewrite ?sum_list_with_app; simpl; split; try done; lia.
Qed.

(** Every step of a goroutine lowers the measure. *)
Lemma measure_step (tr : list event) (s : state) (ev : event) (s' : state) :
  reachable t g0 tr s → step t s ev s' →
  if is_cancel ev then measure d g0 s' = measure d g0 s
  else measure d g0 s' < measure d g0 s.
Proof.
  intros Hr Hstep.
  pose proof (shape_reachable d n g0 Hwf0 _ _ Hr) as Hshape.
  pose proof (token_reachable d n g0 Hwf0 _ _ Hr) as Htok.
  pose proof (expect_left _ _ Hr) as Hleft.
  assert (Hpanic : ev = EvPanic → False).
  { intros ->.
    assert (Hr' : reachable t g0 (tr ++ [EvPanic]) s') by (by eapply reachable_step).
    apply step_panic_inv in Hstep.
    pose proof (tok_panicked _ _ _ (token_reachable d n g0 Hwf0 _ _ Hr')). congruence. }
  unfold measure.
  destruct Hstep as
    [s pc ev s' pc' Hmain Hrun | s Hmain | s Hmain Hcoord Hws
    | s ws1 node err ws2 Hcoord Hclosed Hws | s node Hcoord Hexp
    | s node adjacent nodes Hcoord Hexp Hadj Hperm | s node Hcoord Hexp Hadj
    | s pc ev s' pc' Hcoord Hrun | s Hcoord | s Hcoord Hclosed
    | s ws1 node ws2 Hws | s ws1 node ws2 err Hws | s ws1 node ws2 g' Hws Hup
    | s ws1 node ws2 Hws Hup | s ws1 node ws2 e Hws | s ws1 node err ws2 Hclosed Hws
    | s ws1 node err ws2 Hws | s];
    try (by destruct Hpanic).
  - destruct (run_keeps d n _ _ _ _ _ Hrun) as (_ & _ & Hex & Hm & Hc).
    destruct (run_measure_step _ _ _ _ _ Hrun) as [Hlt ->].
    simpl. rewrite Hmain, Hex, Hc. simpl. lia.
  - simpl. rewrite Hmain. simpl. lia.
  - simpl. rewrite Hmain. simpl. lia.
  - simpl. rewrite Hcoord, Hws, !sum_list_with_app. simpl.
    assert (Hpos : (0 < expect s)%Z).
    { pose proof (tok_expect _ _ _ Htok) as Hex.
      assert (expect s ≠ 0%Z).
      { intros H0. destruct (Hleft H0) as [H|[? H]]; congruence. }
      assert (length (received tr) ≤ length (Vertices g0)); [|lia].
      rewrite <- length_keys. apply submseteq_length.
      rewrite (tok_received _ _ _ Htok).
      etrans; [apply (held_submseteq g0 sent _ _ Htok)|].
      apply NoDup_submseteq; [apply Htok|apply Hshape]. }
    assert (Hnode : node ∈ keys g0).
    { apply (shape_workers _ _ Hshape). rewrite Hws, fmap_app. simpl.
      apply elem_of_app. right. left. }
    pose proof (released_le_round node Hnode).
    replace (Z.to_nat (expect s)) with (S (Z.to_nat (expect s - 1))) by lia.
    simpl. lia.
  - simpl. rewrite Hcoord. simpl. lia.
  - simpl. rewrite Hcoord. simpl.
    rewrite (adjacent_released d n) in Hadj.
    destruct (vertex_at (graph s) node); [|done]. injection Hadj as <-.
    rewrite Hperm, (released_shape d g0 s) by done. lia.
  - destruct (run_keeps d n _ _ _ _ _ Hrun) as (_ & _ & Hex & Hm & Hc).
    destruct (run_measure_step _ _ _ _ _ Hrun) as [Hlt ->].
    simpl. rewrite Hcoord, Hex, Hm. simpl. lia.
  - simpl. rewrite Hcoord. simpl. lia.
  - simpl. rewrite Hcoord. simpl. lia.
  - simpl. rewrite Hws, !sum_list_with_app. simpl. lia.
  - simpl. rewrite Hws, !sum_list_with_app. simpl. lia.
  - simpl. rewrite Hws, !sum_list_with_app. simpl. lia.
  - simpl. rewrite Hws, !sum_list_with_app. simpl. lia.
  - assert (Hsame : ∀ s0 : state,
              expect (group_done s0 err) = expect s0 ∧ coord (group_done s0 err) = coord s0
              ∧ workers (group_done s0 err) = workers s0
              ∧ main (group_done s0 err) = main s0).
    { intros s0. unfold group_done. by destruct err, (eg_err s0). }
    destruct (Hsame (with_workers s (ws1 ++ ws2))) as (-> & -> & -> & ->).
    simpl. rewrite Hws, !sum_list_with_app. simpl. lia.
  - done.
Qed.

Lemma moves_snoc (tr : list event) (ev : event) :
  moves (tr ++ [ev]) = moves tr + (if is_cancel ev then 0 else 1).
Proof.
  unfold moves. rewrite filter_app, length_app. f_equal.
  rewrite filter_cons. destruct (is_cancel ev); by case_decide.
Qed.

Lemma measure_initial (s : state) : initial t g0 s → measure d g0 s ≤ bound d g0.
Proof.
  destruct 1 as [Hlen|nodes Hlen Hperm]; unfold measure, bound; simpl; [lia|].
  rewrite Hperm, Nat2Z.id.
  assert (length (extremityNodesFn t g0) ≤ length (Vertices g0)); [|lia].
  rewrite <- length_keys.
  destruct d; simpl; unfold Leaves, Roots, keys, GoMap.keys;
    rewrite !length_fmap; apply length_filter.
Qed.

(** The steps of an execution and what is left to do stay within the
    bound. *)
Lemma measure_reachable (tr : list event) (s : state) :
  reachable t g0 tr s → moves tr + measure d g0 s ≤ bound d g0.
Proof.
  induction 1 as [s Hinit|tr s ev s' Hreach IH Hstep].
  - simpl. by apply measure_initial.
  - rewrite moves_snoc. pose proof (measure_step _ _ _ _ Hreach Hstep) as Hm.
    destruct (is_cancel ev); lia.
Qed.
End termination.
(** X16.  A traversal cannot run for ever: in every execution the goroutines
    take no more steps than a bound that the graph gives, whatever the
    visitors return and whatever the limit on concurrency; what is left
    to do shrinks with every step. *)
Theorem visit_terminates (d : direction) (n : Z) (g : Graph)
    (tr : list event) (s : state) :
  graph_wf g → reachable (directed d n) g tr s →
  (moves tr + measure d g s ≤ bound d g)%nat
  ∧ (moves tr ≤ bound d g)%nat
  ∧ ∀ ev s', step (directed d n) s ev s' → is_cancel ev = false →
      (measure d g s' < measure d g s)%nat.
Proof.
  intros Hwf Hr. pose proof (measure_reachable d n g Hwf tr s Hr) as Hm.
  split; [done|]. split; [lia|].
  intros ev s' Hstep Hev. pose proof (measure_step d n g Hwf tr s ev s' Hr Hstep) as H.
  by rewrite Hev in H.
Qed.

Lemma visit_terminates_witness :
  let after := execution (directed Up 0) diamond_graph diamond_before_B in
  (moves after.1 + measure Up diamond_graph after.2 ≤ bound Up diamond_graph)%nat
  ∧ (moves after.1 ≤ bound Up diamond_graph)%nat
  ∧ ∀ ev s', step (directed Up 0) after.2 ev s' → is_cancel ev = false →
      (measure Up diamond_graph s' < measure Up diamond_graph after.2)%nat.
Proof.
  intros after.
  apply (visit_terminates Up 0 diamond_graph after.1 after.2).
  - apply graph_wfb_sound. vm_compute. reflexivity.
  - apply execution_reachable.
Defined.
(** ** The life of a node *)

Lemma nodes_where_mono (P Q : worker_pc → bool) (ws : list (string * worker_pc)) :
  (∀ pc, P pc = true → Q pc = true) → nodes_where P ws ⊆+ nodes_where Q ws.
Proof.
  intros HPQ. induction ws as [|[node pc] ws IH]; simpl; [done|].
  destruct (P pc) eqn:HP.
  - rewrite (HPQ pc HP). by apply submseteq_skip.
  - destruct (Q pc); [by apply submseteq_cons|done].
Qed.

(** X17.  In every execution each vertex is invoked, visited, received and
    finished at most once and in this order: the goroutine of a node
    returns only after the coordinator has received the node, the node is
    sent only after its visitor has returned, and a status is updated
    only after a visitor that returned nil.  When [visit] has returned,
    every vertex was received and the goroutine of each has returned. *)
Theorem node_lifecycle (d : direction) (n : Z) (g : Graph)
    (tr : list event) (s : state) :
  graph_wf g → reachable (directed d n) g tr s →
  NoDup (invoked tr)
  ∧ finished tr ⊆+ received tr
  ∧ received tr ⊆+ (visited_with tr).*1
  ∧ (visited_with tr).*1 ⊆+ invoked tr
  ∧ (∀ node, node ∈ updated tr → (node, None) ∈ visited_with tr)
  ∧ (∀ err, main s = MainReturned err →
       received tr ≡ₚ keys g ∧ finished tr ≡ₚ keys g).
Proof.
  intros Hwf Hr.
  pose proof (shape_reachable d n g Hwf _ _ Hr) as Hshape.
  pose proof (token_reachable d n g Hwf _ _ Hr) as Htok.
  pose proof (result_reachable d n g Hwf _ _ Hr) as Hres.
  split; [|split; [|split; [|split; [|split]]]].
  - eapply submseteq_NoDup; [apply (invoked_seen g _ _ Htok)|apply Htok].
  - rewrite (tok_received _ _ _ Htok). by apply submseteq_inserts_l.
  - rewrite (tok_received _ _ _ Htok), (res_visited _ _ _ _ Hres).
    apply submseteq_app; [|done]. apply nodes_where_mono. by intros [].
  - rewrite (tok_invoked _ _ _ Htok), (res_visited _ _ _ _ Hres).
    apply submseteq_app; [|done]. apply nodes_where_mono. by intros [].
  - intros node Hup. by apply (res_updated _ _ _ _ Hres).
  - intros err Hmain.
    destruct (returned_all g _ _ _ Hshape Htok Hmain) as (_ & Hfin & _).
    split; [|done].
    destruct (tok_returned _ _ _ Htok _ Hmain) as (_ & Hws & _).
    rewrite (tok_received _ _ _ Htok), Hws. done.
Qed.

Lemma node_lifecycle_witness :
  let after := execution (directed Up 0) diamond_graph diamond_failure in
  NoDup (invoked after.1)
  ∧ finished after.1 ⊆+ received after.1
  ∧ received after.1 ⊆+ (visited_with after.1).*1
  ∧ (visited_with after.1).*1 ⊆+ invoked after.1
  ∧ (∀ node, node ∈ updated after.1 → (node, None) ∈ visited_with after.1)
  ∧ (∀ err, main after.2 = MainReturned err →
       received after.1 ≡ₚ keys diamond_graph ∧ finished after.1 ≡ₚ keys diamond_graph).
Proof.
  intros after.
  apply (node_lifecycle Up 0 diamond_graph after.1 after.2).
  - apply graph_wfb_sound. vm_compute. reflexivity.
  - apply execution_reachable.
Defined.
End OrderingFacts.

(** * Further properties of the watcher *)

Module WatchFacts.
Import Watcher WatchNotions.

Section watch.
Variable ServiceLabel ContainerReplaceLabel : string.
Variable getContainerNameWithoutProject : Container → string.
Variable onStart onRecreate : Container → Z → option error.

Local Abbreviation consumer :=
  (consumer ServiceLabel ContainerReplaceLabel getContainerNameWithoutProject
     onStart onRecreate).
Local Abbreviation Events :=
  (Events ServiceLabel ContainerReplaceLabel getContainerNameWithoutProject
     onStart onRecreate).
Local Abbreviation watchContainers :=
  (watchContainers ServiceLabel ContainerReplaceLabel getContainerNameWithoutProject
     onStart onRecreate).


Lemma finish_cases (st : state) :
  (finish st = (st, None) ∧ expected st ≠ [])
  ∨ (finish st = (set_cancelled (emit st Stop), None) ∧ expected st = []).
Proof.
  unfold finish. case_decide as H; [right|left]; split; try done.
  - by destruct (expected st).
  - intros Hnil. by rewrite Hnil in H.
Qed.

Ltac not_stop :=
  let H := fresh in
  intros H; repeat (apply elem_of_cons in H as [H|H]; [discriminate H|]); inversion H.

Ltac finishing :=
  match goal with
  | |- context [finish ?s] =>
      let Hf := fresh "Hf" in let He := fresh "He" in
      destruct (finish_cases s) as [[Hf He]|[Hf He]]; rewrite Hf; simpl
  end.

Ltac ends_none :=
  first [ left; split; [done|not_stop]
        | right; split; [done|]; split; [done|];
          first [ exists []; split; [reflexivity|not_stop]
                | eexists [_]; split; [reflexivity|not_stop]
                | eexists [_; _]; split; [reflexivity|not_stop] ] ].

Ltac ends_some :=
  split; [done|]; split; [not_stop|];
  first [ by left | right; left; by eexists _, _ | right; right; by eexists _, _ ].

Ltac ends :=
  unfold ends_well, ends_badly; simpl in *;
  try (exfalso; match goal with H : _ ++ [_] = [] |- _ =>
                  by apply app_eq_nil in H as [_ ?] end);
  rewrite <- ?app_assoc; simpl;
  first [ exists (@nil effect); split; [by rewrite app_nil_r|]
        | eexists; split; [reflexivity|] ];
  (split; [first [done | by apply prefix_app_r]|]);
  first [ ends_none | ends_some ].

(** One call of the consumer. *)
Lemma consumer_ends (st : state) (event : Event) (answer : inspection) :
  ∃ js, journal (consumer st event answer).1 = journal st ++ js
    ∧ replaced st `prefix_of` replaced (consumer st event answer).1
    ∧ match (consumer st event answer).2 with
      | Some err =>
          ends_badly onStart onRecreate st (consumer st event answer).1 js answer err
      | None => ends_well st (consumer st event answer).1 js
      end.
Proof.
  unfold Watcher.consumer. destruct answer as [inspected|e|e]; [|ends..].
  destruct (String.eqb (Event_Status event) "stop").
  { unfold on_stop. destruct (watched st !! ID (container_of inspected));
      finishing; ends. }
  destruct (String.eqb (Event_Status event) "die").
  { unfold on_die. destruct (State_Restarting inspected); finishing; ends. }
  destruct (String.eqb (Event_Status event) "start").
  { unfold on_start. destruct (watched st !! ID (container_of inspected)) as [count|].
    - destruct (bool_decide (0 < count)%Z).
      + destruct (onStart (container_of inspected) (Timestamp event)) eqn:Hs;
          [ends|finishing; ends].
      + finishing; ends.
    - destruct (onStart (container_of inspected) (Timestamp event)) eqn:Hs;
          [ends|finishing; ends]. }
  destruct (String.eqb (Event_Status event) "create").
  { unfold on_create.
    destruct (Labels (container_of inspected) !! ContainerReplaceLabel) as [id|];
      [|finishing; ends].
    destruct (onRecreate (container_of inspected) (Timestamp event)) eqn:Hs; [ends|].

    unfold Contains. simpl.
    repeat match goal with
           | |- context [StringContains ?l ?x] => destruct (StringContains l x); simpl
           end;
      finishing; ends. }
  finishing; ends.
Qed.

Lemma Events_cancelled (st : state) (stream : list stream_item) :
  cancelled st = true → Events st stream = (st, Some (Some contextCanceled)).
Proof. intros Hc. destruct stream; simpl; by rewrite Hc. Qed.

(** The subscription, on the events of a stream. *)
Lemma Events_ends (stream : list stream_item) (st : state) :
  cancelled st = false →
  ∃ js, journal (Events st stream).1 = journal st ++ js
    ∧ replaced st `prefix_of` replaced (Events st stream).1
    ∧ subscription_ends onStart onRecreate stream (Events st stream).1 js
        (Events st stream).2.
Proof.
  revert st. induction stream as [|[event answer|] stream IH]; intros st Hc; simpl;
    rewrite Hc.
  - exists []. rewrite app_nil_r. simpl. split_and!; try done.
    + intros H. inversion H.
    + intros H. inversion H.
    + intros event err H. inversion H.
  - destruct (consumer_ends st event answer) as (js1 & Hj1 & Hr1 & Hend).
    destruct (consumer st event answer) as [st1 [err|]] eqn:Hcons; simpl in *.
    + exists js1. split; [done|]. split; [done|]. left.
      destruct Hend as (Hc1 & Hstop & Hsrc). split; [congruence|]. split; [done|].
      destruct Hsrc as [->|[(c & t & Hl & Hs)|(c & t & Hl & Hs)]].
      * left. exists event. left.
      * right. left. exists c, t. split; [by apply last_Some_elem_of|done].
      * right. right. exists c, t. split; [by apply last_Some_elem_of|done].
    + destruct Hend as [[Hc1 Hstop]|(Hc1 & He1 & js' & -> & Hstop)].
      * rewrite Hc in Hc1.
        destruct (IH st1 Hc1) as (js2 & Hj2 & Hr2 & Hend2).
        exists (js1 ++ js2). rewrite Hj2, Hj1, app_assoc. split; [done|].
        split; [by etrans|].
        destruct (Events st1 stream) as [st2 [[err|]|]]; simpl in *; [|done|].
        -- destruct Hend2 as [(Hc2 & Hs2 & Hsrc)|(Hc2 & -> & Hwhy)].
           ++ left. split; [done|]. split; [rewrite elem_of_app; tauto|].
              destruct Hsrc as [[ev Hev]|[(c & t & Hin & Hs)|(c & t & Hin & Hs)]].
              ** left. exists ev. by right.
              ** right. left. exists c, t. rewrite elem_of_app. tauto.
              ** right. right. exists c, t. rewrite elem_of_app. tauto.
           ++ right. split; [done|]. split; [done|].
              destruct Hwhy as [(He2 & js'' & -> & Hs2)|[Hcan Hs2]].
              ** left. split; [done|]. exists (js1 ++ js''). rewrite app_assoc.
                 split; [done|]. rewrite elem_of_app. tauto.
              ** right. split; [by right|]. rewrite elem_of_app. tauto.
        -- destruct Hend2 as (Hc2 & Hs2 & Hcan & Hins).
           split; [done|]. split; [rewrite elem_of_app; tauto|].
           split.
           ++ intros [H|H]%elem_of_cons; [discriminate|done].
           ++ intros ev err [H|H]%elem_of_cons.
              ** injection H as <- <-.
                 unfold Watcher.consumer in Hcons. discriminate.
              ** by eapply Hins.
      * rewrite (Events_cancelled st1 stream Hc1). simpl.
        exists (js' ++ [Stop]). split; [done|]. split; [done|].
        right. split; [done|]. split; [done|]. left. split; [done|]. eauto.
  - exists []. rewrite app_nil_r. simpl. split; [done|]. split; [done|].
    right. split; [done|]. split; [done|]. right. split; [left|]. intros H. inversion H.
Qed.

Lemma subscribed_fields (projectName : string) (services required : list string)
    (containers : list Container) :
  cancelled (subscribed ServiceLabel projectName services required containers) = false
  ∧ journal (subscribed ServiceLabel projectName services required containers)
    = [Subscribe projectName services]
  ∧ replaced (subscribed ServiceLabel projectName services required containers) = [].
Proof.
  unfold subscribed. simpl.
  rewrite WatcherFacts.seed_cancelled, WatcherFacts.seed_journal. split_and!; try done.
  generalize (if decide (length required = 0) then services else required).
  intros req.
  assert (H : ∀ st, replaced (seed ServiceLabel req containers st) = replaced st).
  { induction containers as [|c cs IH]; intros st; simpl; [done|].
    rewrite IH. by destruct (Contains _ _). }
  by rewrite H.
Qed.

(** X18.  How [watchContainers] returns, for a snapshot with a container.  A
    non-nil error is the error of an inspection that was not a
    not-found, or of the callback called last, and then [stop()] was
    not called.  It returns nil when [stop()] was called, which is then
    the last thing it did, done once and with [expected] empty, or when
    the caller cancelled the context.  While it has not returned,
    [stop()] was not called, the caller has not cancelled and no
    inspection failed other than by a not-found. *)
Theorem watchContainers_returns (projectName : string) (services required : list string)
    (containers : list Container) (stream : list stream_item) :
  containers ≠ [] →
  let r := watchContainers projectName services required containers stream in
  head (journal r.1) = Some (Subscribe projectName services)
  ∧ (∀ err, r.2 = Some (Some err) →
       (Stop ∉ journal r.1) ∧ error_source onStart onRecreate stream (journal r.1) err)
  ∧ (r.2 = Some None →
       (expected r.1 = [] ∧ last (journal r.1) = Some Stop)
       ∨ (Cancel ∈ stream ∧ (Stop ∉ journal r.1)))
  ∧ (Stop ∈ journal r.1 →
       r.2 = Some None ∧ expected r.1 = []
       ∧ ∃ js, journal r.1 = js ++ [Stop] ∧ (Stop ∉ js))
  ∧ (r.2 = None →
       (Stop ∉ journal r.1) ∧ (Cancel ∉ stream)
       ∧ ∀ event err, Deliver event (InspectError err) ∉ stream).
Proof.
  intros Hne r. subst r. unfold Watcher.watchContainers.
  destruct (decide (length containers = 0)) as [H0|_]; [by destruct containers|].
  destruct (subscribed_fields projectName services required containers) as (Hc & Hj & _).
  destruct (Events_ends stream _ Hc) as (js & Hjs & _ & Hend).
  rewrite Hj in Hjs.
  assert (Hsub : ∀ l, (Stop ∉ l) → Stop ∉ [Subscribe projectName services] ++ l).
  { intros l Hl [H|H]%elem_of_cons; [discriminate|done]. }
  destruct (Events (subscribed ServiceLabel projectName services required containers) stream)
    as [st [[err|]|]]; simpl in *; [|done|].
  - destruct Hend as [(Hc1 & Hstop & Hsrc)|(Hc1 & -> & Hwhy)]; rewrite Hc1; simpl.
    + rewrite Hjs. split; [done|]. split; [|split; [done|split; [|done]]].
      * intros err' [= <-]. split; [by apply Hsub|].
        destruct Hsrc as [?|[(c & t & Hin & Hs)|(c & t & Hin & Hs)]].
        -- by left.
        -- right. left. exists c, t. split; [by right|done].
        -- right. right. exists c, t. split; [by right|done].
      * intros Hin. by apply Hsub in Hin.
    + rewrite Hjs. split; [done|]. split; [done|].
      destruct Hwhy as [(He & js' & -> & Hs)|[Hcan Hs]].
      * split; [|split; [|done]].
        -- intros _. left. split; [done|]. by rewrite app_comm_cons, last_snoc.
        -- intros _. split; [done|]. split; [done|].
           exists (Subscribe projectName services :: js'). split; [done|].
           by apply (Hsub js').
      * split; [|split; [|done]].
        -- intros _. right. split; [done|]. by apply Hsub.
        -- intros Hin. by apply Hsub in Hin.
  - destruct Hend as (Hc1 & Hs & Hcan & Hins). rewrite Hjs.
    split; [done|]. split; [done|]. split; [done|]. split.
    + intros Hin. by apply Hsub in Hin.
    + intros _. split; [by apply Hsub|]. done.
Qed.

Lemma Events_app (st : state) (stream more : list stream_item) :
  (Events st stream).2 = None →
  Events st (stream ++ more) = Events (Events st stream).1 more.
Proof.
  revert st. induction stream as [|[event answer|] stream IH]; intros st; simpl.
  - by destruct (cancelled st).
  - destruct (cancelled st); [done|].
    destruct (consumer st event answer) as [st1 [err|]]; [done|]. apply IH.
  - by destruct (cancelled st).
Qed.

Lemma watch_waiting (projectName : string) (services required : list string)
    (containers : list Container) (stream : list stream_item) :
  containers ≠ [] →
  (watchContainers projectName services required containers stream).2 = None →
  Events (subscribed ServiceLabel projectName services required containers) stream
  = ((watchContainers projectName services required containers stream).1, None)
  ∧ cancelled (watchContainers projectName services required containers stream).1 = false.
Proof.
  intros Hne. unfold Watcher.watchContainers.
  destruct (decide (length containers = 0)) as [H0|_]; [by destruct containers|].
  destruct (subscribed_fields projectName services required containers) as (Hc & _ & _).
  destruct (Events_ends stream _ Hc) as (js & _ & _ & Hend).
  destruct (Events (subscribed ServiceLabel projectName services required containers) stream)
    as [st [[err|]|]]; simpl in *; [by destruct (cancelled st)|done|].
  intros _. split; [done|apply Hend].
Qed.

Lemma watch_more (projectName : string) (services required : list string)
    (containers : list Container) (stream more : list stream_item) :
  containers ≠ [] →
  (watchContainers projectName services required containers stream).2 = None →
  (watchContainers projectName services required containers (stream ++ more)).1
  = (Events (watchContainers projectName services required containers stream).1 more).1
  ∧ (watchContainers projectName services required containers (stream ++ more)).2
    = match Events (watchContainers projectName services required containers stream).1 more
      with
      | (st, Some err) => if cancelled st then Some None else Some err
      | (_, None) => None
      end.
Proof.
  intros Hne Hwait. destruct (watch_waiting _ _ _ _ _ Hne Hwait) as [Hev _].
  unfold Watcher.watchContainers at 1 3.
  destruct (decide (length containers = 0)) as [H0|_]; [by destruct containers|].
  rewrite Events_app by (by rewrite Hev). rewrite Hev. simpl.
  destruct (Events _ more) as [st [err|]]; simpl; [|done].
  by destruct (cancelled st).
Qed.

(** X19.  A not-found inspection never ends the watch.  The container is
    taken out of [watched] and [expected], nothing is reported, and the
    consumer returns without the check of [expected]: even when this
    leaves [expected] empty, [stop()] is not called and
    [watchContainers] does not return on this event. *)
Theorem not_found_keeps_waiting (projectName : string) (services required : list string)
    (containers : list Container) (stream : list stream_item) (event : Event) (err : error) :
  containers ≠ [] →
  (watchContainers projectName services required containers stream).2 = None →
  let before := (watchContainers projectName services required containers stream).1 in
  watchContainers projectName services required containers
    (stream ++ [Deliver event (NotFound err)])
  = ({| expected := Remove (expected before) (Event_Container event);
        watched := delete (Event_Container event) (watched before);
        replaced := replaced before;
        cancelled := false;
        journal := journal before |}, None).
Proof.
  intros Hne Hwait before.
  destruct (watch_waiting _ _ _ _ _ Hne Hwait) as [_ Hc].
  destruct (watch_more _ _ _ _ _ [Deliver event (NotFound err)] Hne Hwait) as [H1 H2].
  fold before in H1, H2, Hc. simpl in H1, H2. rewrite Hc in H1, H2. simpl in H1, H2.
  apply injective_projections; simpl; [|done].
  rewrite H1. unfold set_expected, set_watched. simpl. by rewrite Hc.
Qed.
(** X20.  The watcher never takes an ID out of [replaced]: the result of
    [utils.Remove(replaced, container.ID)] is dropped.  So an ID recorded
    at a [create] stays recorded whatever comes, and every [die] of that
    container that is delivered while the watcher waits is reported to
    the listener as [Recreated], with its exit code. *)
Theorem replaced_is_kept (projectName : string) (services required : list string)
    (containers : list Container) (stream more : list stream_item)
    (event : Event) (inspected : ContainerJSON) :
  containers ≠ [] →
  (watchContainers projectName services required containers stream).2 = None →
  inspected_ID inspected
    ∈ replaced (watchContainers projectName services required containers stream).1 →
  Event_Status event = "die" →
  inspected_ID inspected
    ∈ replaced (watchContainers projectName services required containers
                  (stream ++ more)).1
  ∧ ∃ rest,
      journal (watchContainers projectName services required containers
                 (stream ++ [Deliver event (Inspected inspected)])).1
      = journal (watchContainers projectName services required containers stream).1
        ++ Listener (recreated_on_die getContainerNameWithoutProject ServiceLabel inspected)
           :: rest
      ∧ (rest = [] ∨ rest = [Stop]).
Proof.
  intros Hne Hwait Hin Hdie.
  destruct (watch_waiting _ _ _ _ _ Hne Hwait) as [_ Hc].
  split.
  - destruct (watch_more _ _ _ _ _ more Hne Hwait) as [-> _].
    destruct (Events_ends more _ Hc) as (_ & _ & Hpre & _).
    destruct Hpre as [k ->]. apply elem_of_app. by left.
  - destruct (watch_more _ _ _ _ _ [Deliver event (Inspected inspected)] Hne Hwait)
      as [-> _].
    set (before := (watchContainers projectName services required containers stream).1)
      in *.
    simpl. rewrite Hc. unfold Watcher.consumer. rewrite Hdie. simpl.
    unfold on_die. unfold Contains. simpl.
    apply StringContains_elem_of in Hin. rewrite Hin.
    assert (Hfin : ∀ st, ∃ rest,
              journal (Events (finish st).1 []).1 = journal st ++ rest
              ∧ (rest = [] ∨ rest = [Stop])).
    { intros st. destruct (finish_cases st) as [[-> _]|[-> _]]; simpl.
      - exists []. rewrite app_nil_r. split; [by destruct (cancelled st)|by left].
      - exists [Stop]. split; [done|by right]. }
    unfold recreated_on_die.
    destruct (State_Restarting inspected) eqn:Hr; simpl;
      match goal with |- context [finish ?s] =>
        destruct (Hfin s) as (rest & Hj & Hrest); destruct (finish s) as [st1 r1] eqn:Hf;
        destruct (WatcherFacts.finish_fields s) as (_ & _ & _ & H2 & _);
        rewrite Hf in H2; simpl in H2; subst r1
      end;
      simpl in Hj; rewrite Hj; exists rest; (split; [|done]);
      by rewrite <- app_assoc.
Qed.

(** X21.  A container that dies while the engine restarts it is attached
    again when it starts, as long as the watch goes on.  Let the
    watcher wait with some container still expected, and let a container
    be watched with a counter from 0 to the largest [int] less one and
    not recorded as replaced.  Then its [die] with [Restarting] set is
    reported as [Exit], raises its counter in [watched] by one and
    leaves [expected] as it was, so [stop()] is not called; and the
    [start] that follows finds a positive counter and calls [onStart],
    whose error, if any, is returned. *)
Theorem restart_reattaches (projectName : string) (services required : list string)
    (containers : list Container) (stream : list stream_item)
    (died started : Event) (inspected : ContainerJSON) (count : Z) :
  containers ≠ [] →
  (watchContainers projectName services required containers stream).2 = None →
  let before := (watchContainers projectName services required containers stream).1 in
  watched before !! inspected_ID inspected = Some count →
  (0 ≤ count < 2 ^ 63 - 1)%Z →
  expected before ≠ [] →
  (inspected_ID inspected ∉ replaced before) →
  State_Restarting inspected = true →
  Event_Status died = "die" → Event_Status started = "start" →
  let after := watchContainers projectName services required containers
                 (stream ++ [Deliver died (Inspected inspected);
                             Deliver started (Inspected inspected)]) in
  journal after.1
  = journal before
    ++ [Listener {| Type_ := ContainerEventExit;
                    Event_Name := getContainerNameWithoutProject (container_of inspected);
                    Event_ID := inspected_ID inspected;
                    Event_Service := label (Config_Labels inspected) ServiceLabel;
                    ExitCode := State_ExitCode inspected;
                    Restarting := true |};
        OnStart (container_of inspected) (Timestamp started)]
  ∧ watched after.1 !! inspected_ID inspected = Some (count + 1)%Z
  ∧ expected after.1 = expected before
  ∧ after.2 = match onStart (container_of inspected) (Timestamp started) with
              | Some err => Some (Some err)
              | None => None
              end.
Proof.
  intros Hne Hwait before Hw Hcount Hexp Hrep Hres Hdie Hstart after.
  destruct (watch_waiting _ _ _ _ _ Hne Hwait) as [_ Hc]. fold before in Hc.
  destruct (watch_more _ _ _ _ _ [Deliver died (Inspected inspected);
                                  Deliver started (Inspected inspected)] Hne Hwait)
    as [H1 H2].
  fold before in H1, H2. fold after in H1, H2. rewrite H1, H2. clear H1 H2.
  assert (Hwrap : int_wrap (count + 1) = (count + 1)%Z).
  { unfold int_wrap. rewrite Z.mod_small; lia. }
  apply StringContains_false in Hrep.
  assert (Hlen : length (expected before) ≠ 0) by (by destruct (expected before)).
  set (st1 := {| expected := expected before;
                 watched := <[inspected_ID inspected := (count + 1)%Z]> (watched before);
                 replaced := replaced before; cancelled := false;
                 journal := journal before
                   ++ [Listener {| Type_ := ContainerEventExit;
                         Event_Name := getContainerNameWithoutProject (container_of inspected);
                         Event_ID := inspected_ID inspected;
                         Event_Service := label (Config_Labels inspected) ServiceLabel;
                         ExitCode := State_ExitCode inspected;
                         Restarting := true |}] |}).
  assert (Hd : consumer before died (Inspected inspected) = (st1, None)).
  { unfold Watcher.consumer. rewrite Hdie. simpl. unfold on_die, Contains. simpl.
    rewrite Hw, Hrep, Hres. simpl. rewrite Hwrap. unfold finish. simpl.
    rewrite decide_False by done. unfold emit, set_watched. simpl. by rewrite Hc. }
  set (st2 := emit st1 (OnStart (container_of inspected) (Timestamp started))).
  assert (Hs : consumer st1 started (Inspected inspected)
               = (st2, onStart (container_of inspected) (Timestamp started))).
  { unfold Watcher.consumer. rewrite Hstart. simpl. unfold on_start. simpl.
    rewrite lookup_insert_eq. rewrite bool_decide_eq_true_2 by lia.
    destruct (onStart _ _) as [err|]; [done|]. unfold finish. simpl.
    by rewrite decide_False by done. }
  cbn [Watcher.Events]. rewrite Hc, Hd. cbn [Watcher.Events cancelled st1]. rewrite Hs.
  destruct (onStart _ _) as [err|]; simpl.
  - rewrite <- app_assoc, lookup_insert_eq. done.
  - rewrite <- app_assoc, lookup_insert_eq. done.
Qed.
Lemma consumer_watched (st : state) (event : Event) (answer : inspection) :
  (∀ id, id ∈ expected st → is_Some (watched st !! id)) →
  ∀ id, id ∈ expected (consumer st event answer).1 →
        is_Some (watched (consumer st event answer).1 !! id).
Proof.
  intros Hinv id.
  assert (Hfin : ∀ st0, expected (finish st0).1 = expected st0
                        ∧ watched (finish st0).1 = watched st0).
  { intros st0. destruct (WatcherFacts.finish_fields st0) as (? & ? & _). done. }
  assert (Hdel : ∀ x, id ∈ Remove (expected st) x → is_Some (delete x (watched st) !! id)).
  { intros x [Hin Hne]%elem_of_Remove. rewrite lookup_delete_ne by done. by apply Hinv. }
  unfold Watcher.consumer. destruct answer as [inspected|e|e]; simpl; [|by apply Hdel|by apply Hinv].
  destruct (String.eqb (Event_Status event) "stop").
  { unfold on_stop.
    destruct (watched st !! ID (container_of inspected));
      match goal with |- context [finish ?s] => destruct (Hfin s) as [-> ->] end;
      simpl; apply Hdel. }
  destruct (String.eqb (Event_Status event) "die").
  { unfold on_die.
    destruct (State_Restarting inspected);
      match goal with |- context [finish ?s] => destruct (Hfin s) as [-> ->] end; simpl.
    - intros Hin. destruct (decide (inspected_ID inspected = id)) as [->|Hne].
      + rewrite lookup_insert_eq. eauto.
      + rewrite lookup_insert_ne by done. by apply Hinv.
    - intros [Hin Hne]%elem_of_Remove. rewrite lookup_delete_ne by done.
      rewrite lookup_insert_ne by done. by apply Hinv. }
  destruct (String.eqb (Event_Status event) "start").
  { unfold on_start. destruct (watched st !! ID (container_of inspected)) as [count|] eqn:Hw.
    - destruct (bool_decide (0 < count)%Z);
        [destruct (onStart (container_of inspected) (Timestamp event))|];
        try match goal with |- context [finish ?s] => destruct (Hfin s) as [-> ->] end;
        simpl; apply Hinv.
    - destruct (onStart (container_of inspected) (Timestamp event));
        try match goal with |- context [finish ?s] => destruct (Hfin s) as [-> ->] end;
        simpl; intros [Hin| ->%list_elem_of_singleton]%elem_of_app;
        try (rewrite lookup_insert_eq; eauto);
        (destruct (decide (inspected_ID inspected = id)) as [->|Hne];
         [rewrite lookup_insert_eq; eauto|rewrite lookup_insert_ne by done; by apply Hinv]). }
  destruct (String.eqb (Event_Status event) "create").
  { unfold on_create.
    destruct (Labels (container_of inspected) !! ContainerReplaceLabel) as [old|];
      [|destruct (Hfin st) as [-> ->]; apply Hinv].
    destruct (onRecreate (container_of inspected) (Timestamp event)); [apply Hinv|].
    unfold Contains. simpl.
    repeat match goal with
           | |- context [StringContains ?l ?x] => destruct (StringContains l x); simpl
           end;
      match goal with |- context [finish ?s] => destruct (Hfin s) as [-> ->] end; simpl;
      rewrite ?elem_of_app, ?list_elem_of_singleton;
      intros Hin;
      (destruct (decide (inspected_ID inspected = id)) as [->|Hne];
       [rewrite lookup_insert_eq; eauto
       |rewrite lookup_insert_ne by done; apply Hinv; naive_solver]). }
  destruct (Hfin st) as [-> ->]. apply Hinv.
Qed.
Lemma Events_watched (stream : list stream_item) (st : state) :
  (∀ id, id ∈ expected st → is_Some (watched st !! id)) →
  ∀ id, id ∈ expected (Events st stream).1 → is_Some (watched (Events st stream).1 !! id).
Proof.
  revert st. induction stream as [|[event answer|] stream IH]; intros st Hinv; simpl.
  - by destruct (cancelled st).
  - destruct (cancelled st); [done|].
    pose proof (consumer_watched st event answer Hinv) as Hc.
    destruct (consumer st event answer) as [st1 [err|]]; [done|]. by apply IH.
  - by destruct (cancelled st).
Qed.

Lemma seed_watched (required : list string) (containers : list Container) (st : state) :
  (∀ id, id ∈ expected st → is_Some (watched st !! id)) →
  ∀ id, id ∈ expected (seed ServiceLabel required containers st) →
        is_Some (watched (seed ServiceLabel required containers st) !! id).
Proof.
  revert st. induction containers as [|c cs IH]; intros st Hinv; simpl; [done|].
  apply IH. intros id.
  destruct (Contains required (label (Labels c) ServiceLabel)); simpl.
  - intros [Hin| ->%list_elem_of_singleton]%elem_of_app.
    + destruct (decide (ID c = id)) as [->|Hne];
        [rewrite lookup_insert_eq; eauto|rewrite lookup_insert_ne by done; by apply Hinv].
    + rewrite lookup_insert_eq; eauto.
  - intros Hin. destruct (decide (ID c = id)) as [->|Hne];
        [rewrite lookup_insert_eq; eauto|rewrite lookup_insert_ne by done; by apply Hinv].
Qed.

(** X22.  At any time every ID in [expected] is a key of [watched]: the
    watcher adds an ID to [expected] only together with its counter and
    takes it out of both together.  So the [stop] of a container that is
    expected is always reported to the listener, as [Stopped] or
    [Recreated]. *)
Theorem expected_are_watched (projectName : string) (services required : list string)
    (containers : list Container) (stream : list stream_item) :
  let r := watchContainers projectName services required containers stream in
  (∀ id, id ∈ expected r.1 → is_Some (watched r.1 !! id))
  ∧ (r.2 = None → containers ≠ [] →
     ∀ event inspected,
       Event_Status event = "stop" → inspected_ID inspected ∈ expected r.1 →
       ∃ e rest,
         journal (watchContainers projectName services required containers
                    (stream ++ [Deliver event (Inspected inspected)])).1
         = journal r.1 ++ Listener e :: rest
         ∧ Event_ID e = inspected_ID inspected
         ∧ (Type_ e = ContainerEventStopped ∨ Type_ e = ContainerEventRecreated)).
Proof.
  intros r.
  assert (Hinv : ∀ id, id ∈ expected r.1 → is_Some (watched r.1 !! id)).
  { subst r. unfold Watcher.watchContainers.
    destruct (decide (length containers = 0)) as [_|_]; [by inversion 1|].
    pose proof (Events_watched stream
                  (subscribed ServiceLabel projectName services required containers)) as H.
    destruct (Events _ stream) as [st [err|]]; simpl in *.
    - destruct (cancelled st); apply H; unfold subscribed; simpl;
        apply seed_watched; by inversion 1.
    - apply H. unfold subscribed. simpl. apply seed_watched. by inversion 1. }
  split; [done|].
  intros Hwait Hne event inspected Hstop Hin.
  destruct (watch_waiting _ _ _ _ _ Hne Hwait) as [_ Hc].
  destruct (watch_more _ _ _ _ _ [Deliver event (Inspected inspected)] Hne Hwait)
    as [-> _].
  fold r in Hc |- *. destruct (Hinv _ Hin) as [count Hw].
  simpl. rewrite Hc. unfold Watcher.consumer. rewrite Hstop. simpl.
  unfold on_stop. simpl. rewrite Hw.
  match goal with |- context [finish ?s] =>
    destruct (finish_cases s) as [[-> _]|[-> _]] end; simpl; rewrite ?Hc; simpl.
  - eexists _, []. split; [done|]. split; [done|].
    destruct (Contains (replaced r.1) (inspected_ID inspected)); auto.
  - eexists _, [Stop]. rewrite <- app_assoc. split; [done|]. split; [done|].
    destruct (Contains (replaced r.1) (inspected_ID inspected)); auto.
Qed.
End watch.

Lemma not_found_keeps_waiting_witness :
  let before := (Scenario.watch ["a"] Scenario.initial []).1 in
  Scenario.watch ["a"] Scenario.initial ([] ++ [vanished])
  = ({| expected := Remove (expected before) "c1";
        watched := delete "c1" (watched before);
        replaced := replaced before;
        cancelled := false;
        journal := journal before |}, None)
  ∧ expected before = ["c1"] ∧ Remove (expected before) "c1" = [].
Proof.
  intros before. split; [|split; vm_compute; reflexivity].
  apply (not_found_keeps_waiting Scenario.service_label Scenario.replace_label
           Scenario.shown Scenario.succeeds Scenario.succeeds
           "proj" ["a"] ["a"] Scenario.initial []
           {| Timestamp := 1; Event_Container := "c1"; Event_Status := "destroy" |}
           (OtherError "No such container: c1")).
  - discriminate.
  - reflexivity.
Defined.

Lemma watchContainers_returns_witness :
  let r := Scenario.watch ["a"] Scenario.initial
             (Scenario.recreation ++ [Scenario.happened 4 "stop" Scenario.c2]) in
  head (journal r.1) = Some (Subscribe "proj" ["a"])
  ∧ (∀ err, r.2 = Some (Some err) →
       (Stop ∉ journal r.1)
       ∧ error_source Scenario.succeeds Scenario.succeeds
           (Scenario.recreation ++ [Scenario.happened 4 "stop" Scenario.c2])
           (journal r.1) err)
  ∧ (r.2 = Some None →
       (expected r.1 = [] ∧ last (journal r.1) = Some Stop)
       ∨ (Cancel ∈ Scenario.recreation ++ [Scenario.happened 4 "stop" Scenario.c2]
          ∧ (Stop ∉ journal r.1)))
  ∧ (Stop ∈ journal r.1 →
       r.2 = Some None ∧ expected r.1 = []
       ∧ ∃ js, journal r.1 = js ++ [Stop] ∧ (Stop ∉ js))
  ∧ (r.2 = None →
       (Stop ∉ journal r.1)
       ∧ (Cancel ∉ Scenario.recreation ++ [Scenario.happened 4 "stop" Scenario.c2])
       ∧ ∀ event err,
           Deliver event (InspectError err)
           ∉ Scenario.recreation ++ [Scenario.happened 4 "stop" Scenario.c2]).
Proof.
  apply (watchContainers_returns Scenario.service_label Scenario.replace_label
           Scenario.shown Scenario.succeeds Scenario.succeeds
           "proj" ["a"] ["a"] Scenario.initial).
  discriminate.
Defined.

Lemma replaced_is_kept_witness :
  let stream := [Scenario.happened 1 "create" Scenario.c2] in
  let died := {| Timestamp := 2; Event_Container := "c1"; Event_Status := "die" |} in
  let more := [Deliver died (Inspected Scenario.c1); Deliver died (Inspected c1_restarting)] in
  "c1" ∈ replaced (Scenario.watch ["a"] Scenario.initial (stream ++ more)).1
  ∧ ∃ rest,
      journal (Scenario.watch ["a"] Scenario.initial
                 (stream ++ [Deliver died (Inspected c1_restarting)])).1
      = journal (Scenario.watch ["a"] Scenario.initial stream).1
        ++ Listener (recreated_on_die Scenario.shown Scenario.service_label c1_restarting)
           :: rest
      ∧ (rest = [] ∨ rest = [Stop]).
Proof.
  intros stream died more.
  apply (replaced_is_kept Scenario.service_label Scenario.replace_label
           Scenario.shown Scenario.succeeds Scenario.succeeds
           "proj" ["a"] ["a"] Scenario.initial stream more died c1_restarting).
  - discriminate.
  - vm_compute. reflexivity.
  - assert (Hr : replaced (Scenario.watch ["a"] Scenario.initial stream).1 = ["c1"])
      by (vm_compute; reflexivity).
    unfold Scenario.watch in Hr. rewrite Hr. left.
  - reflexivity.
Defined.

Lemma restart_reattaches_witness :
  let before := (Scenario.watch ["a"] Scenario.initial []).1 in
  let died := {| Timestamp := 2; Event_Container := "c1"; Event_Status := "die" |} in
  let started := {| Timestamp := 3; Event_Container := "c1"; Event_Status := "start" |} in
  let after := Scenario.watch ["a"] Scenario.initial
                 ([] ++ [Deliver died (Inspected c1_restarting);
                         Deliver started (Inspected c1_restarting)]) in
  journal after.1
  = journal before
    ++ [Listener {| Type_ := ContainerEventExit;
                    Event_Name := Scenario.shown (container_of c1_restarting);
                    Event_ID := "c1";
                    Event_Service := label (Config_Labels c1_restarting) Scenario.service_label;
                    ExitCode := 1;
                    Restarting := true |};
        OnStart (container_of c1_restarting) 3]
  ∧ watched after.1 !! "c1" = Some (0 + 1)%Z
  ∧ expected after.1 = expected before
  ∧ after.2 = match Scenario.succeeds (container_of c1_restarting) 3 with
              | Some err => Some (Some err)
              | None => None
              end.
Proof.
  intros before died started after.
  apply (restart_reattaches Scenario.service_label Scenario.replace_label
           Scenario.shown Scenario.succeeds Scenario.succeeds
           "proj" ["a"] ["a"] Scenario.initial [] died started c1_restarting 0).
  - discriminate.
  - vm_compute. reflexivity.
  - vm_compute. reflexivity.
  - lia.
  - vm_compute. discriminate.
  - assert (Hr : replaced (Scenario.watch ["a"] Scenario.initial []).1 = [])
      by (vm_compute; reflexivity).
    unfold Scenario.watch in Hr. rewrite Hr. apply not_elem_of_nil.
  - reflexivity.
  - reflexivity.
  - reflexivity.
Defined.

Lemma expected_are_watched_witness :
  let r := Scenario.watch ["a"] Scenario.initial [Scenario.happened 1 "create" Scenario.c2] in
  (∀ id, id ∈ expected r.1 → is_Some (watched r.1 !! id))
  ∧ (r.2 = None → Scenario.initial ≠ [] →
     ∀ event inspected,
       Event_Status event = "stop" → inspected_ID inspected ∈ expected r.1 →
       ∃ e rest,
         journal (Scenario.watch ["a"] Scenario.initial
                    ([Scenario.happened 1 "create" Scenario.c2]
                     ++ [Deliver event (Inspected inspected)])).1
         = journal r.1 ++ Listener e :: rest
         ∧ Event_ID e = inspected_ID inspected
         ∧ (Type_ e = ContainerEventStopped ∨ Type_ e = ContainerEventRecreated)).
Proof.
  apply (expected_are_watched Scenario.service_label Scenario.replace_label
           Scenario.shown Scenario.succeeds Scenario.succeeds
           "proj" ["a"] ["a"] Scenario.initial).
Defined.
End WatchFacts.

(** * The conditions [start] waits for *)

Module WaitingFacts.
Import Waiting.

Section conditions.
Variable Completed RunningOrHealthy : string.

Lemma depends_loop_spec (dependsOn : list (string * string)) (name : string) :
  depends_loop Completed dependsOn name = true ↔ (name, Completed) ∈ dependsOn.
Proof.
  induction dependsOn as [|[dep cond] rest IH]; simpl.
  - split; [done|]. intros H. inversion H.
  - rewrite elem_of_cons, <- IH.
    destruct (String.eqb_spec dep name) as [->|Hd];
      destruct (String.eqb_spec cond Completed) as [->|Hc]; simpl; naive_solver.
Qed.

Lemma services_loop_spec (services : list ServiceConfig) (name : string) :
  services_loop Completed services name = true ↔ depended_on services name Completed.
Proof.
  unfold depended_on. induction services as [|s rest IH]; simpl.
  - split; [done|]. intros (s & H & _). inversion H.
  - destruct (depends_loop Completed (DependsOn s) name) eqn:Hd.
    + apply (proj1 (depends_loop_spec _ _)) in Hd. split; [|done].
      intros _. exists s. split; [left|done].
    + rewrite IH. split.
      * intros (s' & Hin & Hdep). exists s'. split; [by right|done].
      * intros (s' & [->|Hin]%elem_of_cons & Hdep); [|eauto].
        apply (proj2 (depends_loop_spec _ _)) in Hdep. rewrite Hd in Hdep. discriminate.
Qed.

Lemma wait_conditions_get (services all : list ServiceConfig) (depends : list (string * string))
    (name : string) :
  GoMap.get
    (foldl (λ depends s,
              GoMap.set depends (Name s) (getDependencyCondition Completed RunningOrHealthy s all))
           depends services) name
  = if bool_decide (name ∈ Name <$> services)
    then Some (if services_loop Completed all name then Completed else RunningOrHealthy)
    else GoMap.get depends name.
Proof.
  revert depends. induction services as [|s rest IH]; intros depends; simpl; [done|].
  rewrite IH. unfold getDependencyCondition.
  destruct (decide (name ∈ Name <$> rest)) as [Hin|Hnin].
  - rewrite !bool_decide_eq_true_2; [done| |done]. by right.
  - rewrite (bool_decide_eq_false_2 _ Hnin). rewrite GoMapFacts.get_set.
    destruct (decide (Name s = name)) as [<-|Hne].
    + rewrite bool_decide_eq_true_2 by left. done.
    + rewrite bool_decide_eq_false_2; [done|].
      intros [?|?]%elem_of_cons; [congruence|done].
Qed.

(** X23.  [getDependencyCondition] gives the condition
    [service_completed_successfully] for a service exactly when some
    service of the project depends on it with that condition, and the
    running-or-healthy condition for every other service, whatever the
    order in which the services and their dependencies are ranged over;
    and the map of conditions that [start] waits for holds exactly the
    services of the project, each with the condition of its name. *)
Theorem getDependencyCondition_spec (service : ServiceConfig)
    (services : list ServiceConfig) :
  Completed ≠ RunningOrHealthy →
  (getDependencyCondition Completed RunningOrHealthy service services = Completed
     ↔ depended_on services (Name service) Completed)
  ∧ (getDependencyCondition Completed RunningOrHealthy service services = RunningOrHealthy
     ↔ ¬ depended_on services (Name service) Completed)
  ∧ (∀ services', services' ≡ₚ services →
       getDependencyCondition Completed RunningOrHealthy service services'
       = getDependencyCondition Completed RunningOrHealthy service services)
  ∧ (∀ name,
       GoMap.get (wait_conditions Completed RunningOrHealthy services) name
       = if bool_decide (name ∈ Name <$> services)
         then Some (getDependencyCondition Completed RunningOrHealthy
                      {| Name := name; DependsOn := [] |} services)
         else None).
Proof.
  intros Hne. unfold getDependencyCondition.
  pose proof (services_loop_spec services (Name service)) as Hspec.
  split; [|split; [|split]].
  - destruct (services_loop Completed services (Name service)); [naive_solver|].
    split; [done|]. intros H. apply Hspec in H. done.
  - destruct (services_loop Completed services (Name service)); [|naive_solver].
    split; [done|]. intros H. destruct H. by apply Hspec.
  - intros services' Hperm.
    assert (Hiff : services_loop Completed services' (Name service) = true
                   ↔ services_loop Completed services (Name service) = true).
    { rewrite !services_loop_spec. unfold depended_on.
      split; intros (s & Hin & Hdep); exists s; split; try done.
      - by rewrite <- Hperm.
      - by rewrite Hperm. }
    destruct (services_loop Completed services' (Name service)),
             (services_loop Completed services (Name service)); naive_solver.
  - intros name. unfold wait_conditions. by rewrite wait_conditions_get.
Qed.
End conditions.

Lemma getDependencyCondition_spec_witness :
  let completed := "service_completed_successfully" in
  let healthy := "running_or_healthy" in
  let migrate := {| Name := "migrate"; DependsOn := [("db", "service_started")] |} in
  (getDependencyCondition completed healthy migrate project = completed
     ↔ depended_on project "migrate" completed)
  ∧ (getDependencyCondition completed healthy migrate project = healthy
     ↔ ¬ depended_on project "migrate" completed)
  ∧ (∀ services', services' ≡ₚ project →
       getDependencyCondition completed healthy migrate services'
       = getDependencyCondition completed healthy migrate project)
  ∧ (∀ name,
       GoMap.get (wait_conditions completed healthy project) name
       = if bool_decide (name ∈ Name <$> project)
         then Some (getDependencyCondition completed healthy
                      {| Name := name; DependsOn := [] |} project)
         else None).
Proof.
  intros completed healthy migrate.
  apply (getDependencyCondition_spec completed healthy migrate project).
  discriminate.
Defined.
End WaitingFacts.
